(** * ApolloBackend: combination tracking and the resumable crawl

    A shallow embedding of

      - [utils/combinations_generator.py]  (generation, status updates),
      - [utils/apollo_fetcher.py]          (the search collaborator),
      - [api/management/commands/fetch_apollo_data.py] (the harvest command),
      - [api/models.py], [api/views.py]    (the by-id read API),

    together with the properties of the combination store that the
    specification states.

    MongoDB collections are lists of documents in store (insertion) order.
    Python code that mutates the database, reads the clock, talks to the
    network and may raise is written in a state-and-exception monad: the
    state survives a raised exception, as the database does. *)

From Stdlib Require Import String Ascii List ZArith NArith Bool Arith Lia.
Import ListNotations.
Local Open Scope string_scope.
Local Open Scope list_scope.

Set Implicit Arguments.

(* ===================================================================== *)
(** * 1. Data model                                                      *)
(* ===================================================================== *)

(** The four values of the [status] field. *)
Inductive status : Type :=
| pending
| in_progress
| completed
| failed.

Definition status_eqb (a b : status) : bool :=
  match a, b with
  | pending, pending | in_progress, in_progress
  | completed, completed | failed, failed => true
  | _, _ => false
  end.

(** Timestamps are the values returned by [timezone.now()]. *)
Definition timestamp := Z.

(** A document of the [combinations] collection.  [results_count] is an
    optional key of the document: [None] when the key is absent. *)
Record combination : Type := mkCombination {
  location        : string;
  employee_ranges : string;
  industry_id     : string;
  industry_name   : string;
  comb_status     : status;
  results_count   : option Z;
  created_at      : timestamp;
  updated_at      : timestamp
}.

(** The identity of a combination: the pair the unique index of
    [init_mongodb.py] is declared on, and the filter of every write. *)
Definition key : Type := (string * string)%type.

Definition key_of (d : combination) : key := (location d, industry_name d).

Definition key_eqb (k1 k2 : key) : bool :=
  String.eqb (fst k1) (fst k2) && String.eqb (snd k1) (snd k2).

(** [{"location": location, "industry_name": industry_name}] as a filter. *)
Definition matches_key (k : key) (d : combination) : bool :=
  key_eqb (key_of d) k.

(** The [combinations] collection, in store order. *)
Definition collection := list combination.

(* ===================================================================== *)
(** * 2. Store primitives (pymongo)                                      *)
(* ===================================================================== *)

(** [collection.find_one(filter)]: the first matching document. *)
Definition find_one (k : key) (c : collection) : option combination :=
  find (matches_key k) c.

(** [collection.count_documents({})] and [count_documents({"status": s})]. *)
Definition count_all (c : collection) : Z := Z.of_nat (length c).

Definition count_status (s : status) (c : collection) : Z :=
  Z.of_nat (length (filter (fun d => status_eqb (comb_status d) s) c)).

(** [collection.update_one(filter, {"$set": ...})]: the update [f] is
    applied to the first matching document only; without a match nothing
    is written (no upsert). *)
Fixpoint update_one (k : key) (f : combination -> combination)
         (c : collection) : collection :=
  match c with
  | [] => []
  | d :: c' => if matches_key k d then f d :: c' else d :: update_one k f c'
  end.

(** [collection.update_many(filter, {"$set": ...})]. *)
Definition update_many (p : combination -> bool)
           (f : combination -> combination) (c : collection) : collection :=
  map (fun d => if p d then f d else d) c.

(** The [$set] document built by [update_combination_status]: [status] and
    [updated_at] always, [results_count] only when it is not [None]. *)
Definition set_update_data (s : status) (now : timestamp)
           (rc : option Z) (d : combination) : combination :=
  {| location := location d;
     employee_ranges := employee_ranges d;
     industry_id := industry_id d;
     industry_name := industry_name d;
     comb_status := s;
     results_count := match rc with
                      | Some n => Some n
                      | None => results_count d
                      end;
     created_at := created_at d;
     updated_at := now |}.

(** The [$set] of the reset in [Command.handle]:
    [{"status": "pending", "updated_at": timezone.now()}]. *)
Definition set_pending (now : timestamp) (d : combination) : combination :=
  set_update_data pending now None d.

Definition is_failed (d : combination) : bool :=
  status_eqb (comb_status d) failed.

(** [update_many({"status": "failed"}, {"$set": {"status": "pending",
    "updated_at": now}})], lines 57-60 of [fetch_apollo_data.py]. *)
Definition reset_failed_store (now : timestamp) (c : collection) : collection :=
  update_many is_failed (set_pending now) c.

(** [result.modified_count] of that call. *)
Definition reset_modified_count (c : collection) : Z :=
  Z.of_nat (length (filter is_failed c)).

(** [bulk_write] of conditional inserts.  Every operation of
    [generate_combinations] is
    [UpdateOne(filter, {"$setOnInsert": combination}, upsert=True)]. *)
Record upsert_op : Type := mkUpsert {
  op_filter        : key;
  op_set_on_insert : combination
}.

(** One conditional insert: a document matching the filter is left as it
    is ([$setOnInsert] writes nothing on a match); otherwise the document
    is inserted at the end of the collection.  The boolean tells whether
    the operation upserted. *)
Definition apply_upsert (c : collection) (op : upsert_op) : collection * bool :=
  if existsb (matches_key (op_filter op)) c
  then (c, false)
  else (c ++ [op_set_on_insert op], true).

(** The operations of a batch, applied one after the other; the second
    component is [result.upserted_count]. *)
Fixpoint apply_ops (c : collection) (ops : list upsert_op) : collection * Z :=
  match ops with
  | [] => (c, 0%Z)
  | op :: ops' =>
      let (c1, ins) := apply_upsert c op in
      let (c2, n) := apply_ops c1 ops' in
      (c2, ((if ins then 1 else 0) + n)%Z)
  end.

(** The operations of a batch that took effect before an unordered bulk
    write failed: those the mask marks. *)
Fixpoint select_applied (mask : list bool) (ops : list upsert_op) : list upsert_op :=
  match mask, ops with
  | b :: mask', op :: ops' =>
      if b then op :: select_applied mask' ops' else select_applied mask' ops'
  | _, _ => []
  end.

(* ===================================================================== *)
(** * 3. Python exceptions                                               *)
(* ===================================================================== *)

Inductive exn : Type :=
| RequestException (reason : string)  (* raised by [requests.post] *)
| JSONDecodeError                     (* [response.json()], [json.load] *)
| FileNotFoundError (path : string)   (* [open(path)] *)
| AttributeError                      (* [.get] on a JSON value that is no object *)
| KeyError (k : string)               (* [industry_tags[industry]] *)
| NameError (name : string)           (* a global name that is not bound *)
| BulkWriteError                      (* [collection.bulk_write] *)
| InvalidId                           (* [bson.ObjectId(s)] *)
| OperationFailure                    (* the server refuses a query *)
| TypeError                           (* [k in v], [v[k]] on a value without them *)
| SystemExit (code : Z).              (* [sys.exit(code)] *)

(** [isinstance(e, Exception)]: [SystemExit] derives from [BaseException]
    only, so [except Exception] does not catch it. *)
Definition is_Exception (e : exn) : bool :=
  match e with
  | SystemExit _ => false
  | _ => true
  end.

(** [isinstance(e, json.JSONDecodeError)]. *)
Definition is_JSONDecodeError (e : exn) : bool :=
  match e with
  | JSONDecodeError => true
  | _ => false
  end.

(** A bare [except:] clause. *)
Definition any_exception (e : exn) : bool := true.

(* ===================================================================== *)
(** * 4. The organization side: documents and vendor payloads            *)
(* ===================================================================== *)

(** A [bson.ObjectId] is twelve bytes; it is kept as their value. *)
Definition object_id := N.

(** The keys of an [organization] document that
    [extract_organization_data] writes. *)
Record organization_data : Type := mkOrganization {
  org_name                : string;
  org_linkedin_url        : string;
  org_website_url         : string;
  org_facebook_url        : string;
  org_phone               : string;
  org_apollo_id           : string;
  org_number_of_employees : Z;
  org_industry            : list string;
  org_keywords            : list string;
  org_address             : string;
  org_created_at          : timestamp;
  org_updated_at          : timestamp
}.

(** A document of the [organization] collection: its [_id] and the rest. *)
Definition organization_doc : Type := (object_id * organization_data)%type.

(** A document of the [industry] and [keyword] collections. *)
Record named_doc : Type := mkNamed {
  named_name       : string;
  named_created_at : timestamp;
  named_updated_at : timestamp
}.

(** One entry of ["organizations"] in a search response; [hit_id] is
    [org.get("id")]. *)
Record search_hit : Type := mkHit {
  hit_id                    : option string;
  hit_name                  : string;
  hit_linkedin_url          : string;
  hit_website_url           : string;
  hit_facebook_url          : string;
  hit_sanitized_phone       : string;
  hit_primary_phone_number  : string
}.

(** One entry of ["organizations"] in a [load_snippets] response. *)
Record org_detail : Type := mkDetail {
  det_id                      : option string;
  det_estimated_num_employees : Z;
  det_industries              : list string;
  det_keywords                : list string;
  det_raw_address             : string
}.

(** The parsed body of a search response: [.get('organizations', [])] and
    [pagination.has_next_page] ([None] when either key is missing). *)
Record search_results : Type := mkSearchResults {
  sr_organizations : list search_hit;
  sr_has_next_page : option bool
}.

(** A JSON value that is no object, as far as the code looks at it. *)
Inductive non_object : Type :=
| JsonScalar    (* [null], a number or a boolean: [k in v] raises [TypeError] *)
(* a list or a string, and whether ["organizations" in v] holds; [v[k]]
   raises [TypeError] *)
| JsonSequence (has_organizations : bool).

(** What [response.json()] does with a body. *)
Inductive json_body (A : Type) : Type :=
| JsonInvalid                     (* not JSON: [json()] raises *)
| JsonNotObject (v : non_object)  (* JSON, but no object *)
| JsonObject (a : A).
Arguments JsonInvalid {A}.
Arguments JsonNotObject {A} v.
Arguments JsonObject {A} a.

(** The value of [batch_details]: a dictionary, with its
    ["organizations"] if it has the key, or another JSON value. *)
Inductive details_value : Type :=
| DetailsObject (organizations : option (list org_detail))
| DetailsOther (v : non_object).

Record response (A : Type) : Type := mkResponse {
  status_code : Z;
  body        : json_body A
}.

(** What [requests.post] does: it raises (connection error, timeout, ...;
    all of them subclasses of [Exception]) or returns a response. *)
Inductive http_outcome (A : Type) : Type :=
| HttpRaises (reason : string)
| HttpResponse (r : response A).
Arguments HttpRaises {A} reason.
Arguments HttpResponse {A} r.

(** A JSON file on disk, as [os.path.exists] and [json.load] see it. *)
Inductive file_content : Type :=
| FileMissing
| FileNotJson
| FileJson.

(** What the server does with one [bulk_write(..., ordered=False)]: all
    operations applied, or an error after the marked operations. *)
Inductive bulk_outcome : Type :=
| BulkOk
| BulkError (applied : list bool).

(* ===================================================================== *)
(** * 5. Environment, state and trace                                    *)
(* ===================================================================== *)

(** Everything outside the program: the files, the clock, the vendor API,
    and of the database server its failures and its regular expressions.
    Sequences are indexed by the number of calls made so far. *)
Record environment : Type := mkEnv {
  filesystem             : string -> file_content;
  all_Cities             : list string;              (* data/all_Cities.csv *)
  (* data/formatted_industry_tags.json: the items of the dictionary *)
  formatted_industry_tags : list (string * string);
  clock                  : nat -> timestamp;
  search_responses       : nat -> http_outcome search_results;
  details_responses      : nat -> http_outcome (option (list org_detail));
  bulk_results           : nat -> bulk_outcome;
  (* the reads of the two data files by [generate_combinations] (lines
     46-60, in no [try]): [None] when both are read, as the two lists
     above; [Some e] when a read raises [e] (a file that is missing or
     cannot be read, a row without its column, JSON that does not parse) *)
  data_files_error       : option exn;
  (* the server's search for [{"$regex": pattern, "$options": "i"}]:
     [None] for a pattern the server rejects, otherwise the test that the
     pattern is found in a text *)
  regex                  : string -> option (string -> bool)
}.

(** What a run does that can be observed: its store writes, its requests,
    its reports on stdout and its pauses. *)
Inductive event : Type :=
| LogFileNotFound (what path : string)        (* "Cookies file not found: ..." *)
| LogReset (modified : Z)                     (* "Reset n failed combinations ..." *)
| LogNothingToDo
| LogProcessing (processed total : Z) (k : key)
| LogCompleted (k : key) (results : Z)
| LogErrorProcessing (k : key) (e : exn)
| DbUpdateOne (k : key) (s : status) (rc : option Z)
| DbUpdateMany
| DbBulkWrite (ops : list upsert_op) (ok : bool)
| HttpSearch (loc ind_id : string) (page : Z)
| HttpDetails (ids : list string)
| Sleep.

Record state : Type := mkState {
  db_combinations : collection;
  db_organization : list organization_doc;
  db_industry     : list named_doc;
  db_keyword      : list named_doc;
  clock_reads     : nat;
  search_calls    : nat;
  details_calls   : nat;
  bulk_calls      : nat;
  ids_issued      : nat;        (* ObjectIds generated by inserts *)
  trace           : list event
}.

Definition with_combinations (c : collection) (st : state) : state :=
  mkState c (db_organization st) (db_industry st) (db_keyword st)
          (clock_reads st) (search_calls st) (details_calls st) (bulk_calls st)
          (ids_issued st) (trace st).

Definition with_organization (o : list organization_doc) (st : state) : state :=
  mkState (db_combinations st) o (db_industry st) (db_keyword st)
          (clock_reads st) (search_calls st) (details_calls st) (bulk_calls st)
          (ids_issued st) (trace st).

Definition with_industry (i : list named_doc) (st : state) : state :=
  mkState (db_combinations st) (db_organization st) i (db_keyword st)
          (clock_reads st) (search_calls st) (details_calls st) (bulk_calls st)
          (ids_issued st) (trace st).

Definition with_keyword (k : list named_doc) (st : state) : state :=
  mkState (db_combinations st) (db_organization st) (db_industry st) k
          (clock_reads st) (search_calls st) (details_calls st) (bulk_calls st)
          (ids_issued st) (trace st).

Definition tick_clock (st : state) : state :=
  mkState (db_combinations st) (db_organization st) (db_industry st) (db_keyword st)
          (S (clock_reads st)) (search_calls st) (details_calls st) (bulk_calls st)
          (ids_issued st) (trace st).

Definition tick_search (st : state) : state :=
  mkState (db_combinations st) (db_organization st) (db_industry st) (db_keyword st)
          (clock_reads st) (S (search_calls st)) (details_calls st) (bulk_calls st)
          (ids_issued st) (trace st).

Definition tick_details (st : state) : state :=
  mkState (db_combinations st) (db_organization st) (db_industry st) (db_keyword st)
          (clock_reads st) (search_calls st) (S (details_calls st)) (bulk_calls st)
          (ids_issued st) (trace st).

Definition tick_bulk (st : state) : state :=
  mkState (db_combinations st) (db_organization st) (db_industry st) (db_keyword st)
          (clock_reads st) (search_calls st) (details_calls st) (S (bulk_calls st))
          (ids_issued st) (trace st).

Definition tick_ids (st : state) : state :=
  mkState (db_combinations st) (db_organization st) (db_industry st) (db_keyword st)
          (clock_reads st) (search_calls st) (details_calls st) (bulk_calls st)
          (S (ids_issued st)) (trace st).

Definition log_event (e : event) (st : state) : state :=
  mkState (db_combinations st) (db_organization st) (db_industry st) (db_keyword st)
          (clock_reads st) (search_calls st) (details_calls st) (bulk_calls st)
          (ids_issued st) (trace st ++ [e]).

(** A fresh database and a process that has done nothing yet. *)
Definition initial_state : state :=
  mkState [] [] [] [] 0 0 0 0 0 [].

(* ===================================================================== *)
(** * 6. The monad of the Python code                                    *)
(* ===================================================================== *)

(** How a call ends: it returns, it raises, or (a [while] loop that is cut
    off by the fuel of the model) it is still running. *)
Inductive outcome (A : Type) : Type :=
| Returned (a : A)
| Raised (e : exn)
| OutOfFuel.
Arguments Returned {A} a.
Arguments Raised {A} e.
Arguments OutOfFuel {A}.

Definition py (A : Type) : Type := state -> outcome A * state.

Definition ret {A} (a : A) : py A := fun st => (Returned a, st).

Definition bind {A B} (m : py A) (k : A -> py B) : py B :=
  fun st =>
    match m st with
    | (Returned a, st') => k a st'
    | (Raised e, st') => (Raised e, st')
    | (OutOfFuel, st') => (OutOfFuel, st')
    end.

Definition raise {A} (e : exn) : py A := fun st => (Raised e, st).

Definition out_of_fuel {A} : py A := fun st => (OutOfFuel, st).

(** [try: m  except <classes> as e: h e]. *)
Definition try_except {A} (m : py A) (classes : exn -> bool)
           (h : exn -> py A) : py A :=
  fun st =>
    match m st with
    | (Raised e, st') => if classes e then h e st' else (Raised e, st')
    | r => r
    end.

Definition get_state : py state := fun st => (Returned st, st).

Definition modify (f : state -> state) : py unit := fun st => (Returned tt, f st).

Declare Scope py_scope.
Delimit Scope py_scope with py.
Notation "x <- m ;; k" := (bind m (fun x => k))
  (at level 61, m at next level, right associativity) : py_scope.
Notation "m ;; k" := (bind m (fun _ => k))
  (at level 61, right associativity) : py_scope.
Notation "' pat <- m ;; k" := (bind m (fun x => match x with pat => k end))
  (at level 61, pat pattern, m at next level, right associativity) : py_scope.
Local Open Scope py_scope.

(** [when b m]: [if b: m]. *)
Definition when (b : bool) (m : py unit) : py unit :=
  if b then m else ret tt.

(** [for x in xs: body x]. *)
Fixpoint for_each {A} (xs : list A) (body : A -> py unit) : py unit :=
  match xs with
  | [] => ret tt
  | x :: xs' => body x ;; for_each xs' body
  end.

(* ===================================================================== *)
(** * 7. [utils/combinations_generator.py]                               *)
(* ===================================================================== *)

(** [itertools.product(xs, ys, zs)]. *)
Definition product3 {A B C} (xs : list A) (ys : list B) (zs : list C)
  : list (A * B * C) :=
  flat_map (fun x => flat_map (fun y => map (fun z => (x, y, z)) zs) ys) xs.

(** [d[k]] on a dict of strings, kept as the list of its items. *)
Fixpoint dict_get (d : list (string * string)) (k : string) : option string :=
  match d with
  | [] => None
  | (k', v) :: d' => if String.eqb k' k then Some v else dict_get d' k
  end.

(** Line 54: the one employee-range descriptor. *)
Definition employee_ranges_defined : list string :=
  ["1-10, 10-20, 20-50, 50-100, 100-200"].

(** Line 96: [batch_size = 100000], a local constant of
    [generate_combinations]. *)
Definition batch_size : Z := 100000.

(** The dictionary [generate_combinations] returns.  [stat_new_added] is
    [None] on the skipped path, whose dictionary has no ["new_added"]. *)
Record generation_stats : Type := mkStats {
  stat_total              : Z;
  stat_pending            : Z;
  stat_completed          : Z;
  stat_failed             : Z;
  stat_in_progress        : Z;
  stat_new_added          : option Z;
  stat_skipped_generation : bool
}.

(** The local variables of the generation loop:
    [current_batch], [processed_count], [new_combinations_count]. *)
Definition loop_locals : Type := (list upsert_op * Z * Z)%type.

Section Program.

Variable env : environment.

(** [timezone.now()]. *)
Definition timezone_now : py timestamp :=
  fun st => (Returned (clock env (clock_reads st)), tick_clock st).

(** [combinations_collection.bulk_write(operations, ordered=False)],
    returning [result.upserted_count]. *)
Definition bulk_write (ops : list upsert_op) : py Z :=
  fun st =>
    match bulk_results env (bulk_calls st) with
    | BulkOk =>
        let (c, n) := apply_ops (db_combinations st) ops in
        (Returned n,
         log_event (DbBulkWrite ops true) (tick_bulk (with_combinations c st)))
    | BulkError applied =>
        let (c, _) := apply_ops (db_combinations st) (select_applied applied ops) in
        (Raised BulkWriteError,
         log_event (DbBulkWrite ops false) (tick_bulk (with_combinations c st)))
    end.

(** Lines 131-157: the flush of a full batch.  The batch is emptied on
    both paths; the count of new documents grows on success only. *)
Definition flush_batch (current_batch : list upsert_op)
           (processed_count new_combinations_count : Z) : py loop_locals :=
  try_except
    (n <- bulk_write current_batch ;;
     ret ([], processed_count, new_combinations_count + n)%Z)
    is_Exception
    (fun _ => ret ([], processed_count, new_combinations_count)).

(** Lines 104-157: the body of [for location, size, industry in
    product(...)].  The loop stops at an exception that no inner [try]
    handles (the lookup [industry_tags[industry]]); it then hands the
    exception, with the locals as they are, to the handler of line 169. *)
Fixpoint generate_loop (industry_tags : list (string * string))
         (items : list (string * string * string)) (locals : loop_locals)
  : py (loop_locals * option exn) :=
  match items with
  | [] => ret (locals, None)
  | (loc, size, industry) :: rest =>
      let '(current_batch, processed_count, new_combinations_count) := locals in
      match dict_get industry_tags industry with
      | None => ret (locals, Some (KeyError industry))
      | Some ind_id =>
          created <- timezone_now ;;
          updated <- timezone_now ;;
          let combination :=
            mkCombination loc size ind_id industry pending None created updated in
          let current_batch :=
            current_batch ++ [mkUpsert (loc, industry) combination] in
          let processed_count := (processed_count + 1)%Z in
          locals' <-
            (if (Z.of_nat (length current_batch) >=? batch_size)%Z
             then flush_batch current_batch processed_count new_combinations_count
             else ret (current_batch, processed_count, new_combinations_count)) ;;
          generate_loop industry_tags rest locals'
      end
  end.

(** Lines 160-168: the last, partial batch. *)
Definition flush_final (current_batch : list upsert_op)
           (new_combinations_count : Z) : py Z :=
  match current_batch with
  | [] => ret new_combinations_count
  | _ :: _ =>
      try_except
        (n <- bulk_write current_batch ;; ret (new_combinations_count + n)%Z)
        is_Exception
        (fun _ => ret new_combinations_count)
  end.

(** The counts by status read from the collection. *)
Definition status_counts (total : Z) (new_added : option Z) (skipped : bool)
  : py generation_stats :=
  st <- get_state ;;
  let c := db_combinations st in
  ret (mkStats total (count_status pending c) (count_status completed c)
               (count_status failed c) (count_status in_progress c)
               new_added skipped).

(** Line 63: [list(industry_tags.keys())]. *)
Definition apollo_industries : list string :=
  map fst (formatted_industry_tags env).

(** Line 68. *)
Definition total_potential : Z :=
  (Z.of_nat (length (all_Cities env)) * Z.of_nat (length employee_ranges_defined)
   * Z.of_nat (length apollo_industries))%Z.

(** Lines 46-60: the reads of [data/all_Cities.csv] and of
    [data/formatted_industry_tags.json].  They are in no [try]: what
    they raise reaches the caller of [generate_combinations()], before
    anything is written. *)
Definition read_data_files : py unit :=
  match data_files_error env with
  | Some e => raise e
  | None => ret tt
  end.

(** [generate_combinations()] from line 63 on, once the two files are
    read. *)
Definition generate_combinations : py generation_stats :=
  let locations := all_Cities env in
  let industry_tags := formatted_industry_tags env in
  st <- get_state ;;
  let existing_count := count_all (db_combinations st) in
  if (existing_count =? total_potential)%Z
  then status_counts total_potential None true
  else
    '(locals, uncaught) <-
      generate_loop industry_tags
        (product3 locations employee_ranges_defined apollo_industries)
        ([], 0%Z, 0%Z) ;;
    let '(current_batch, _, new_combinations_count) := locals in
    new_combinations_count <-
      match uncaught with
      | None => flush_final current_batch new_combinations_count
      | Some _ => ret new_combinations_count    (* line 169: [except Exception] *)
      end ;;
    st' <- get_state ;;
    status_counts (count_all (db_combinations st')) (Some new_combinations_count) false.

(** [generate_combinations()] as its callers run it: the reads of the
    two files, then the rest. *)
Definition generate_combinations_from_files : py generation_stats :=
  read_data_files ;; generate_combinations.

(** [update_combination_status(location, industry_name, status,
    results_count=None)]. *)
Definition update_combination_status (loc ind : string) (s : status)
           (rc : option Z) : py unit :=
  now <- timezone_now ;;
  modify (fun st =>
            with_combinations
              (update_one (loc, ind) (set_update_data s now rc) (db_combinations st))
              st) ;;
  modify (log_event (DbUpdateOne (loc, ind) s rc)).

(* ===================================================================== *)
(** * 8. [utils/apollo_fetcher.py]                                       *)
(* ===================================================================== *)

(** [load_json_file(path)]: [open] then [json.load].  The cookies and the
    headers are only handed on to [requests.post]; their content is not
    kept. *)
Definition load_json_file (path : string) : py unit :=
  match filesystem env path with
  | FileMissing => raise (FileNotFoundError path)
  | FileNotJson => raise JSONDecodeError
  | FileJson => ret tt
  end.

(** The names bound at the top level of [utils/apollo_fetcher.py]: what
    its [import] statements (lines 4-16) and its [def]s bind. *)
Definition apollo_fetcher_globals : list string :=
  [ "requests"; "json"; "time"; "random"; "string"; "os"; "csv"; "pymongo";
    "product"; "timezone"; "datetime"; "settings";
    "get_completed_combinations"; "generate_combinations";
    "update_combination_status";
    "generate_random_string"; "fetch_organization_details";
    "extract_organization_data"; "save_to_mongodb";
    "search_apollo_and_save_to_mongodb"; "main" ].

(** The statement [sys.exit(code)] of line 61.  Python looks the name
    [sys] up in the globals of the module (it is no builtin): bound, the
    call raises [SystemExit]; not bound, the lookup raises [NameError]. *)
Definition sys_exit {A} (code : Z) : py A :=
  if existsb (String.eqb "sys") apollo_fetcher_globals
  then raise (SystemExit code)
  else raise (NameError "sys").

(** [requests.post('.../mixed_companies/search', json=search_payload)].
    Of the payload the trace keeps the location, the industry tag and the
    page; the formatted employee ranges, the session id, the random seed
    and the cache key take no part in the control flow. *)
Definition post_search (loc ind_id : string) (page : Z)
  : py (response search_results) :=
  fun st =>
    let st' := log_event (HttpSearch loc ind_id page) (tick_search st) in
    match search_responses env (search_calls st) with
    | HttpRaises reason => (Raised (RequestException reason), st')
    | HttpResponse r => (Returned r, st')
    end.

(** [requests.post('.../organizations/load_snippets', json={'ids': ...})]. *)
Definition post_details (org_ids : list string)
  : py (response (option (list org_detail))) :=
  fun st =>
    let st' := log_event (HttpDetails org_ids) (tick_details st) in
    match details_responses env (details_calls st) with
    | HttpRaises reason => (Raised (RequestException reason), st')
    | HttpResponse r => (Returned r, st')
    end.

(** [fetch_organization_details(org_ids, cookies, headers)]: the parsed
    body of a response with status 200, whatever JSON value it is, and
    [{"organizations": []}] otherwise. *)
Definition fetch_organization_details (org_ids : list string)
  : py details_value :=
  match org_ids with
  | [] => ret (DetailsObject (Some []))
  | _ :: _ =>
      try_except
        (resp <- post_details org_ids ;;
         if (status_code resp =? 200)%Z
         then match body resp with
              | JsonInvalid => raise JSONDecodeError
              | JsonNotObject v => ret (DetailsOther v)
              | JsonObject b => ret (DetailsObject b)
              end
         else ret (DetailsObject (Some [])))
        is_Exception
        (fun _ => sys_exit 1)
  end.

(** Lines 251-261: [if "organizations" in batch_details:] and the loop
    over [batch_details["organizations"]].  On a value that is no
    dictionary the test or the lookup raises [TypeError], unless the
    value is a list or a string without ["organizations"] in it. *)
Definition for_each_detail (batch_details : details_value)
           (f : org_detail -> py unit) : py unit :=
  match batch_details with
  | DetailsObject (Some details) => for_each details f
  | DetailsObject None => ret tt
  | DetailsOther (JsonSequence false) => ret tt
  | DetailsOther (JsonSequence true) => raise TypeError    (* line 252 *)
  | DetailsOther JsonScalar => raise TypeError             (* line 251 *)
  end.

(** [extract_organization_data(org)], where [org] is the search hit (or
    [{}] when no hit has the id of the detail) with the detail stored
    under ["additional_details"]. *)
Definition extract_organization_data (org : option search_hit)
           (additional_details : org_detail) : py organization_data :=
  current_time <- timezone_now ;;
  let get {A} (f : search_hit -> A) (default : A) : A :=
    match org with Some h => f h | None => default end in
  ret {| org_name := get hit_name "";
         org_linkedin_url := get hit_linkedin_url "";
         org_website_url := get hit_website_url "";
         org_facebook_url := get hit_facebook_url "";
         org_phone :=
           (let sanitized := get hit_sanitized_phone "" in
            if String.eqb sanitized ""
            then get hit_primary_phone_number ""
            else sanitized);
         org_apollo_id :=
           match org with
           | Some h => match hit_id h with Some i => i | None => "" end
           | None => ""
           end;
         org_number_of_employees := det_estimated_num_employees additional_details;
         org_industry := det_industries additional_details;
         org_keywords := det_keywords additional_details;
         org_address := det_raw_address additional_details;
         org_created_at := current_time;
         org_updated_at := current_time |}.

Definition has_name (name : string) (d : named_doc) : bool :=
  String.eqb (named_name d) name.

(** Lines 97-105: an industry is inserted when no document has its name. *)
Definition save_industry (name : string) : py unit :=
  st <- get_state ;;
  if existsb (has_name name) (db_industry st)
  then ret tt
  else
    created <- timezone_now ;;
    updated <- timezone_now ;;
    modify (fun st => with_industry (db_industry st ++ [mkNamed name created updated]) st).

(** Lines 107-115: the same for a keyword. *)
Definition save_keyword (name : string) : py unit :=
  st <- get_state ;;
  if existsb (has_name name) (db_keyword st)
  then ret tt
  else
    created <- timezone_now ;;
    updated <- timezone_now ;;
    modify (fun st => with_keyword (db_keyword st ++ [mkNamed name created updated]) st).

Definition has_apollo_id (i : string) (d : organization_doc) : bool :=
  String.eqb (org_apollo_id (snd d)) i.

Definition set_updated_at (now : timestamp) (o : organization_data)
  : organization_data :=
  {| org_name := org_name o;
     org_linkedin_url := org_linkedin_url o;
     org_website_url := org_website_url o;
     org_facebook_url := org_facebook_url o;
     org_phone := org_phone o;
     org_apollo_id := org_apollo_id o;
     org_number_of_employees := org_number_of_employees o;
     org_industry := org_industry o;
     org_keywords := org_keywords o;
     org_address := org_address o;
     org_created_at := org_created_at o;
     org_updated_at := now |}.

(** [organization_collection.update_one({"apollo_id": i}, {"$set": data})]. *)
Fixpoint set_organization (i : string) (data : organization_data)
         (c : list organization_doc) : list organization_doc :=
  match c with
  | [] => []
  | d :: c' =>
      if has_apollo_id i d then (fst d, data) :: c'
      else d :: set_organization i data c'
  end.

(** [save_to_mongodb(extracted_data)]: the result is the [_id] of the
    organization. *)
Definition save_to_mongodb (extracted_data : organization_data) : py object_id :=
  for_each (org_industry extracted_data) save_industry ;;
  for_each (org_keywords extracted_data) save_keyword ;;
  st <- get_state ;;
  match find (has_apollo_id (org_apollo_id extracted_data)) (db_organization st) with
  | Some existing_org =>
      now <- timezone_now ;;
      let extracted_data := set_updated_at now extracted_data in
      modify (fun st =>
                with_organization
                  (set_organization (org_apollo_id extracted_data) extracted_data
                                    (db_organization st)) st) ;;
      ret (fst existing_org)
  | None =>
      let inserted_id := N.of_nat (ids_issued st) in
      modify (fun st =>
                tick_ids (with_organization
                            (db_organization st ++ [(inserted_id, extracted_data)]) st)) ;;
      ret inserted_id
  end.

(** Lines 224-229: the ids of a page that are truthy and not seen before
    are added to [current_page_ids] and to [all_organization_ids]. *)
Fixpoint collect_ids (organizations : list search_hit)
         (current_page_ids all_organization_ids : list string)
  : list string * list string :=
  match organizations with
  | [] => (current_page_ids, all_organization_ids)
  | org :: rest =>
      match hit_id org with
      | Some org_id =>
          if negb (String.eqb org_id "")
             && negb (existsb (String.eqb org_id) all_organization_ids)
          then collect_ids rest (current_page_ids ++ [org_id])
                           (all_organization_ids ++ [org_id])
          else collect_ids rest current_page_ids all_organization_ids
      | None => collect_ids rest current_page_ids all_organization_ids
      end
  end.

Definition option_string_eqb (a b : option string) : bool :=
  match a, b with
  | Some x, Some y => String.eqb x y
  | None, None => true
  | _, _ => false
  end.

(** Lines 252-261: one detail is merged with the hit of the same id,
    mapped and saved. *)
Definition save_detail (organizations : list search_hit) (org_detail : org_detail)
  : py unit :=
  let org_data :=
    find (fun org => option_string_eqb (hit_id org) (det_id org_detail))
         organizations in
  extracted_data <- extract_organization_data org_data org_detail ;;
  _ <- save_to_mongodb extracted_data ;;
  ret tt.

(** [search_payload["per_page"]]. *)
Definition per_page : Z := 25.

(** The local variables a page leaves behind: [more_results], [page],
    [all_organization_ids], [total_results_found]. *)
Definition page_locals : Type := (bool * Z * list string * Z)%type.

(** Lines 216-265: the [try] block of one page and its handler.  Only
    [search_response.json()], the first statement, raises
    [JSONDecodeError] ([fetch_organization_details] turns every exception
    into the one of [sys_exit]), so the handler sees the locals as they
    were before the page. *)
Definition process_page (search_response : response search_results)
           (page : Z) (all_organization_ids : list string)
           (total_results_found : Z) : py page_locals :=
  try_except
    (search_results <-
       match body search_response with
       | JsonInvalid => raise JSONDecodeError
       | JsonNotObject _ => raise AttributeError
       | JsonObject r => ret r
       end ;;
     let organizations := sr_organizations search_results in
     let '(current_page_ids, all_ids) :=
       collect_ids organizations [] all_organization_ids in
     let total := (total_results_found + Z.of_nat (length organizations))%Z in
     ' (more_results, next_page) <-
       (if (Z.of_nat (length organizations) <? per_page)%Z
        then ret (false, page)
        else match sr_has_next_page search_results with
             | Some false => ret (false, page)
             | _ => modify (log_event Sleep) ;; ret (true, (page + 1)%Z)
             end) ;;
     match current_page_ids with
     | [] => ret tt
     | _ :: _ =>
         batch_details <- fetch_organization_details current_page_ids ;;
         for_each_detail batch_details (save_detail organizations)
     end ;;
     ret (more_results, next_page, all_ids, total))
    is_JSONDecodeError
    (fun _ => ret (false, page, all_organization_ids, total_results_found)).

(** Lines 175-270: [while more_results]. *)
Fixpoint paginate (fuel : nat) (loc ind_id : string) (page : Z)
         (all_organization_ids : list string) (total_results_found : Z) : py Z :=
  match fuel with
  | O => out_of_fuel
  | S fuel' =>
      search_response <- post_search loc ind_id page ;;
      ' (more_results, page, all_organization_ids, total_results_found) <-
        process_page search_response page all_organization_ids total_results_found ;;
      let more_results :=
        if (status_code search_response =? 200)%Z then more_results else false in
      if more_results
      then paginate fuel' loc ind_id page all_organization_ids total_results_found
      else ret total_results_found
  end.

(** [search_apollo_and_save_to_mongodb(location, employee_ranges,
    industry_id, industry_name, cookies_file, headers_file)]. *)
Definition search_apollo_and_save_to_mongodb (fuel : nat)
           (loc ranges ind_id ind_name cookies_file headers_file : string) : py Z :=
  update_combination_status loc ind_name in_progress None ;;
  try_except
    (load_json_file cookies_file ;;
     load_json_file headers_file ;;
     total_results_found <- paginate fuel loc ind_id 1%Z [] 0%Z ;;
     update_combination_status loc ind_name completed (Some total_results_found) ;;
     ret total_results_found)
    is_Exception
    (fun e =>
       update_combination_status loc ind_name failed None ;;
       raise e).

(* ===================================================================== *)
(** * 9. [api/management/commands/fetch_apollo_data.py]                  *)
(* ===================================================================== *)

(** The parsed command line ([add_arguments]). *)
Record options : Type := mkOptions {
  opt_location        : option string;
  opt_industry        : option string;
  opt_limit           : option Z;
  opt_cookies_file    : string;
  opt_headers_file    : string;
  opt_yes             : bool;
  opt_reset_failed    : bool;
  opt_status          : option status;
  opt_skip_generation : bool;
  opt_batch_size      : Z
}.

(** ** The regular expressions of the query

    [{"$regex": pattern, "$options": "i"}] is an unanchored,
    case-insensitive search by the regular-expression engine of the
    server, which is a part of the environment ([regex]).  The server
    compiles the patterns of a query before it looks at any document: a
    pattern that it rejects makes the read of the cursor raise
    [OperationFailure], whatever the collection holds. *)

(** The query document of lines 80-98. *)
Inductive status_condition : Type :=
| StatusIs (s : status)                 (* [query["status"] = status_filter] *)
| StatusIn (l : list status).           (* [{"$in": [...]}] *)

Record query : Type := mkQuery {
  q_status        : status_condition;
  q_location      : option string;      (* the [$regex], when the key is set *)
  q_industry_name : option string
}.

(** [if location_filter:]: [None] and the empty string are falsy. *)
Definition truthy (s : option string) : option string :=
  match s with
  | Some EmptyString => None
  | _ => s
  end.

Definition build_query (o : options) : query :=
  mkQuery (match opt_status o with
           | Some s => StatusIs s
           | None => StatusIn [pending; failed]
           end)
          (truthy (opt_location o))
          (truthy (opt_industry o)).

Definition status_matches (cond : status_condition) (d : combination) : bool :=
  match cond with
  | StatusIs s => status_eqb (comb_status d) s
  | StatusIn l => existsb (status_eqb (comb_status d)) l
  end.

(** One condition [{"$regex": p, "$options": "i"}] on a field, or none. *)
Definition regex_matches (pattern : option string) (text : string) : bool :=
  match pattern with
  | Some p =>
      match regex env p with
      | Some found => found text
      | None => false
      end
  | None => true
  end.

Definition query_matches (q : query) (d : combination) : bool :=
  status_matches (q_status q) d
  && regex_matches (q_location q) (location d)
  && regex_matches (q_industry_name q) (industry_name d).

(** The server accepts the pattern of the condition. *)
Definition pattern_accepted (pattern : option string) : bool :=
  match pattern with
  | Some p =>
      match regex env p with
      | Some _ => true
      | None => false
      end
  | None => true
  end.

Definition query_accepted (q : query) : bool :=
  pattern_accepted (q_location q) && pattern_accepted (q_industry_name q).

(** [list(collection.find(query, projection))] before the projection:
    the matching documents in store order, or [None] when the server
    rejects a pattern of the query and the read raises
    [OperationFailure]. *)
Definition find_query (q : query) (c : collection) : option (list combination) :=
  if query_accepted q then Some (filter (query_matches q) c) else None.

(** The projection [{"location": 1, "employee_ranges": 1, "industry_id": 1,
    "industry_name": 1}]. *)
Record projected : Type := mkProjected {
  p_location        : string;
  p_employee_ranges : string;
  p_industry_id     : string;
  p_industry_name   : string
}.

Definition project (d : combination) : projected :=
  mkProjected (location d) (employee_ranges d) (industry_id d) (industry_name d).

Definition projected_key (p : projected) : key :=
  (p_location p, p_industry_name p).

(** Lines 109-112: [if limit and limit > 0 and limit < len(l): l = l[:limit]]. *)
Definition apply_limit {A} (limit : option Z) (l : list A) : list A :=
  match limit with
  | Some n =>
      if negb (n =? 0)%Z && (n >? 0)%Z && (n <? Z.of_nat (length l))%Z
      then firstn (Z.to_nat n) l
      else l
  | None => l
  end.

(** Lines 79-112: the work selector.  [selected_documents] is the list
    before the projection. *)
Definition selected_documents (o : options) (c : collection)
  : option (list combination) :=
  match find_query (build_query o) c with
  | Some matched => Some (apply_limit (opt_limit o) matched)
  | None => None
  end.

Definition filtered_combinations (o : options) (c : collection)
  : option (list projected) :=
  match find_query (build_query o) c with
  | Some matched => Some (apply_limit (opt_limit o) (map project matched))
  | None => None
  end.

(** [os.path.exists(path)]. *)
Definition os_path_exists (path : string) : bool :=
  match filesystem env path with
  | FileMissing => false
  | _ => true
  end.

(** Lines 139-205: the loop over the filtered combinations.  [i] is the
    index of [enumerate]; the result is [completed_in_run].  The handler's
    [continue] skips the pause. *)
Fixpoint process_combinations (fuel : nat) (cookies_file headers_file : string)
         (pending_count : Z) (i : Z) (completed_in_run : Z)
         (queue : list projected) : py Z :=
  match queue with
  | [] => ret completed_in_run
  | combo :: rest =>
      let loc := p_location combo in
      let ind_name := p_industry_name combo in
      let processed := (i + 1)%Z in
      modify (log_event (LogProcessing processed pending_count (loc, ind_name))) ;;
      succeeded <-
        try_except
          (results <-
             search_apollo_and_save_to_mongodb fuel loc (p_employee_ranges combo)
               (p_industry_id combo) ind_name cookies_file headers_file ;;
           modify (log_event (LogCompleted (loc, ind_name) results)) ;;
           ret true)
          is_Exception
          (fun e =>
             modify (log_event (LogErrorProcessing (loc, ind_name) e)) ;;
             update_combination_status loc ind_name failed None ;;
             ret false) ;;
      if succeeded : bool
      then
        when (processed <? pending_count)%Z (modify (log_event Sleep)) ;;
        process_combinations fuel cookies_file headers_file pending_count
                             (i + 1)%Z (completed_in_run + 1)%Z rest
      else
        process_combinations fuel cookies_file headers_file pending_count
                             (i + 1)%Z completed_in_run rest
  end.

(** Lines 55-61: [--reset-failed]. *)
Definition reset_failed : py unit :=
  now <- timezone_now ;;
  st <- get_state ;;
  let modified_count := reset_modified_count (db_combinations st) in
  modify (fun st => with_combinations (reset_failed_store now (db_combinations st)) st) ;;
  modify (log_event DbUpdateMany) ;;
  modify (log_event (LogReset modified_count)).

(** How [handle] ends when it returns. *)
Inductive run_result : Type :=
| PreconditionFailed      (* line 48 or 52 *)
| NothingToDo             (* line 131 *)
| AllProcessed.           (* the end of [handle] *)

(** Lines 54-226: [handle] after the check of the two files. *)
Definition run (fuel : nat) (o : options) : py run_result :=
  when (opt_reset_failed o) reset_failed ;;
  when (negb (opt_skip_generation o))
       (_ <- generate_combinations_from_files ;; ret tt) ;;
  st <- get_state ;;
  match filtered_combinations o (db_combinations st) with
  | None => raise OperationFailure          (* line 102: [list(cursor)] *)
  | Some queue =>
      let pending_count := Z.of_nat (length queue) in
      if (pending_count =? 0)%Z
      then modify (log_event LogNothingToDo) ;; ret NothingToDo
      else
        _ <- process_combinations fuel (opt_cookies_file o) (opt_headers_file o)
                                  pending_count 0%Z 0%Z queue ;;
        ret AllProcessed
  end.

(** [Command.handle]: the check of the two files, then the run. *)
Definition handle (fuel : nat) (o : options) : py run_result :=
  let cookies_file := opt_cookies_file o in
  let headers_file := opt_headers_file o in
  if negb (os_path_exists cookies_file)
  then modify (log_event (LogFileNotFound "Cookies" cookies_file)) ;;
       ret PreconditionFailed
  else if negb (os_path_exists headers_file)
  then modify (log_event (LogFileNotFound "Headers" headers_file)) ;;
       ret PreconditionFailed
  else run fuel o.

(** ** [get_completed_combinations()] of [utils/combinations_generator.py]

    [completed_combinations.add(t)] on a set of tuples, kept as the list
    of its elements without repetition. *)
Definition set_add (k : key) (s : list key) : list key :=
  if existsb (key_eqb k) s then s else s ++ [k].

(** Lines 14-28. *)
Definition get_completed_combinations : py (list key) :=
  st <- get_state ;;
  let cursor :=
    filter (fun d => status_eqb (comb_status d) completed) (db_combinations st) in
  ret (fold_left
         (fun completed_combinations combo =>
            set_add (location combo, industry_name combo) completed_combinations)
         cursor []).

(** ** [main()] of [utils/apollo_fetcher.py]

    The script's own driver: generation, then the pending and failed
    combinations, searched with the default cookies and headers files.
    Its handler only reports the error (the search has marked the
    combination failed already). *)

(** [{"status": {"$in": ["pending", "failed"]}}]. *)
Definition pending_query : query :=
  mkQuery (StatusIn [pending; failed]) None None.

(** Lines 319-347. *)
Fixpoint main_loop (fuel : nat) (pending_count processed : Z)
         (queue : list projected) : py unit :=
  match queue with
  | [] => ret tt
  | combo :: rest =>
      let processed := (processed + 1)%Z in
      succeeded <-
        try_except
          (_ <- search_apollo_and_save_to_mongodb fuel (p_location combo)
                  (p_employee_ranges combo) (p_industry_id combo)
                  (p_industry_name combo) "data/cookies.json" "data/headers.json" ;;
           ret true)
          is_Exception
          (fun _ => ret false) ;;
      if succeeded : bool
      then
        when (processed <? pending_count)%Z (modify (log_event Sleep)) ;;
        main_loop fuel pending_count processed rest
      else main_loop fuel pending_count processed rest
  end.

(** Lines 285-351; [exit(0)] raises [SystemExit]. *)
Definition main (fuel : nat) : py unit :=
  _ <- generate_combinations_from_files ;;
  st <- get_state ;;
  let pending_combinations :=
    map project (filter (query_matches pending_query) (db_combinations st)) in
  let pending_count := Z.of_nat (length pending_combinations) in
  if (pending_count =? 0)%Z
  then raise (SystemExit 0)
  else main_loop fuel pending_count 0%Z pending_combinations.

End Program.

(* ===================================================================== *)
(** * 10. [api/models.py] and [api/views.py]: the organization by id     *)
(* ===================================================================== *)

Module Api.

(** A hexadecimal digit. *)
Definition hex_digit (c : ascii) : option N :=
  let n := N_of_ascii c in
  if (48 <=? n)%N && (n <=? 57)%N then Some (n - 48)%N
  else if (97 <=? n)%N && (n <=? 102)%N then Some (n - 87)%N
  else if (65 <=? n)%N && (n <=? 70)%N then Some (n - 55)%N
  else None.

Fixpoint hex_value (s : string) (acc : N) : option N :=
  match s with
  | EmptyString => Some acc
  | String c s' =>
      match hex_digit c with
      | Some d => hex_value s' (16 * acc + d)%N
      | None => None
      end
  end.

(** [bson.ObjectId(s)] on a string of 24 hexadecimal digits, and
    [InvalidId] on any other. *)
Definition ObjectId_hex (s : string) : exn + object_id :=
  if (String.length s =? 24)%nat
  then match hex_value s 0%N with
       | Some v => inr v
       | None => inl InvalidId
       end
  else inl InvalidId.

(** The data of a response. *)
Inductive response_data : Type :=
| ErrorMessage (error : string)        (* [{'error': ...}] *)
| Serialized (d : organization_doc)    (* [serializer.data] *)
| Validated (d : organization_data)    (* [serializer.validated_data] *)
| SerializerErrors                     (* [serializer.errors] *)
| NoData.

Record api_response : Type := mkResponseOf {
  resp_status : Z;
  resp_data   : response_data
}.

Definition HTTP_200_OK : Z := 200.
Definition HTTP_204_NO_CONTENT : Z := 204.
Definition HTTP_400_BAD_REQUEST : Z := 400.
Definition HTTP_404_NOT_FOUND : Z := 404.

(** The response of lines 60-63, 73-76 and 91-94. *)
Definition not_found : api_response :=
  mkResponseOf HTTP_404_NOT_FOUND (ErrorMessage "Organization not found").

Definition is_InvalidId (e : exn) : bool :=
  match e with
  | InvalidId => true
  | _ => false
  end.

Definition has_oid (i : object_id) (d : organization_doc) : bool :=
  N.eqb (fst d) i.

Section Views.

(** The constructor [bson.ObjectId] of the driver library, on strings. *)
Variable ObjectId : string -> exn + object_id.

Definition new_ObjectId (s : string) : py object_id :=
  match ObjectId s with
  | inl e => raise e
  | inr i => ret i
  end.

(** [Organization.get_by_id(org_id)]: the bare [except] turns every
    exception of the conversion and of the lookup into [None]. *)
Definition get_by_id (org_id : string) : py (option organization_doc) :=
  try_except
    (i <- new_ObjectId org_id ;;
     st <- get_state ;;
     ret (find (has_oid i) (db_organization st)))
    any_exception
    (fun _ => ret None).

(** [collection.update_one({"_id": i}, {"$set": org_data})]. *)
Fixpoint set_by_oid (i : object_id) (data : organization_data)
         (c : list organization_doc) : list organization_doc :=
  match c with
  | [] => []
  | d :: c' => if has_oid i d then (fst d, data) :: c' else d :: set_by_oid i data c'
  end.

(** [collection.delete_one({"_id": i})]. *)
Fixpoint delete_by_oid (i : object_id) (c : list organization_doc)
  : list organization_doc :=
  match c with
  | [] => []
  | d :: c' => if has_oid i d then c' else d :: delete_by_oid i c'
  end.

(** [Organization.update(org_id, org_data)]. *)
Definition update (org_id : string) (org_data : organization_data) : py unit :=
  i <- new_ObjectId org_id ;;
  modify (fun st => with_organization (set_by_oid i org_data (db_organization st)) st).

(** [Organization.delete(org_id)]. *)
Definition delete (org_id : string) : py unit :=
  i <- new_ObjectId org_id ;;
  modify (fun st => with_organization (delete_by_oid i (db_organization st)) st).

(** [OrganizationDetailView.get_object(org_id)]. *)
Definition get_object (org_id : string) : py (option organization_doc) :=
  try_except (get_by_id org_id) is_InvalidId (fun _ => ret None).

(** [OrganizationDetailView.get(request, org_id)]. *)
Definition detail_get (org_id : string) : py api_response :=
  organization <- get_object org_id ;;
  match organization with
  | None => ret not_found
  | Some d => ret (mkResponseOf HTTP_200_OK (Serialized d))
  end.

(** [OrganizationDetailView.put(request, org_id)]; [request_data] is
    [Some] of the validated data when [serializer.is_valid()]. *)
Definition detail_put (request_data : option organization_data)
           (org_id : string) : py api_response :=
  organization <- get_object org_id ;;
  match organization with
  | None => ret not_found
  | Some _ =>
      match request_data with
      | Some validated_data =>
          update org_id validated_data ;;
          ret (mkResponseOf HTTP_200_OK (Validated validated_data))
      | None => ret (mkResponseOf HTTP_400_BAD_REQUEST SerializerErrors)
      end
  end.

(** [OrganizationDetailView.delete(request, org_id)]. *)
Definition detail_delete (org_id : string) : py api_response :=
  organization <- get_object org_id ;;
  match organization with
  | None => ret not_found
  | Some _ =>
      delete org_id ;;
      ret (mkResponseOf HTTP_204_NO_CONTENT NoData)
  end.

End Views.

(** ** The list view

    [cursor.skip(n)] and [cursor.limit(n)] of the driver, on the
    documents in store order.  [None]: the number is negative, and what
    the cursor then does is the driver's affair, not this program's. *)
Definition cursor_skip (n : Z) (q : list organization_doc)
  : option (list organization_doc) :=
  if (n <? 0)%Z then None else Some (skipn (Z.to_nat n) q).

Definition cursor_limit (n : Z) (q : list organization_doc)
  : option (list organization_doc) :=
  if (n <? 0)%Z then None else Some (firstn (Z.to_nat n) q).

(** [Organization.get_all(limit, skip)]: [if skip:] and [if limit:] take
    [None] and 0 for absent. *)
Definition get_all (limit skip : option Z) (c : list organization_doc)
  : option (list organization_doc) :=
  let query := Some c in
  let query :=
    match skip with
    | Some n => if (n =? 0)%Z then query
                else match query with Some q => cursor_skip n q | None => None end
    | None => query
    end in
  match limit with
  | Some n => if (n =? 0)%Z then query
              else match query with Some q => cursor_limit n q | None => None end
  | None => query
  end.

(** A link [f"?page={page}&page_size={page_size}"]. *)
Record page_link : Type := mkLink {
  link_page      : Z;
  link_page_size : Z
}.

(** The dictionary of the response of [OrganizationListView.get]. *)
Record list_response : Type := mkListResponse {
  lr_count    : Z;
  lr_next     : option page_link;
  lr_previous : option page_link;
  lr_results  : list organization_doc
}.

(** [OrganizationListView.get(request)]; the two arguments are the query
    parameters [page_size] and [page] as [int] reads them, [None] when
    the request has none. *)
Definition list_get (query_page_size query_page : option Z)
  : py (option list_response) :=
  let page_size := match query_page_size with Some n => n | None => 10%Z end in
  let page := match query_page with Some n => n | None => 1%Z end in
  let skip := ((page - 1) * page_size)%Z in
  st <- get_state ;;
  match get_all (Some page_size) (Some skip) (db_organization st) with
  | None => ret None
  | Some organizations =>
      let total_count := Z.of_nat (length (db_organization st)) in
      ret (Some
             {| lr_count := total_count;
                lr_next :=
                  if (skip + page_size <? total_count)%Z
                  then Some (mkLink (page + 1) page_size) else None;
                lr_previous :=
                  if (page >? 1)%Z then Some (mkLink (page - 1) page_size) else None;
                lr_results := organizations |})
  end.

End Api.

(* ===================================================================== *)
(** * 11. Notions used in the statements                                 *)
(* ===================================================================== *)

(** The collection after a computation, and how the computation ended. *)
Definition combinations_after {A} (m : py A) (st : state) : collection :=
  db_combinations (snd (m st)).

(** [generate_combinations()] called [n] times in a row. *)
Fixpoint generate_times (env : environment) (n : nat) : py unit :=
  match n with
  | O => ret tt
  | S n' => _ <- generate_combinations env ;; generate_times env n'
  end.

(** The pairs [(location, industry_name)] of the enumerated product. *)
Definition enumerated_pairs (env : environment) : list key :=
  map (fun t => match t with (loc, _, industry) => (loc, industry) end)
      (product3 (all_Cities env) employee_ranges_defined (apollo_industries env)).

(** The documents of a collection with a given key. *)
Definition documents_of (k : key) (c : collection) : list combination :=
  filter (matches_key k) c.

(** The uniqueness constraint on [(location, industry_name)]. *)
Definition unique_keys (c : collection) : Prop :=
  NoDup (map key_of c).

(** [results_count] is present. *)
Definition has_results_count (d : combination) : Prop :=
  results_count d <> None.

(** The collections that runs of the command and of the script produce
    from an empty collection; each run has its own environment, options
    and process state.  [allowed] restricts the command lines. *)
Inductive reachable (allowed : options -> Prop) : collection -> Prop :=
| reachable_empty : reachable allowed []
| reachable_handle (env : environment) (fuel : nat) (o : options) (st : state) :
    allowed o ->
    reachable allowed (db_combinations st) ->
    reachable allowed (db_combinations (snd (handle env fuel o st)))
| reachable_main (env : environment) (fuel : nat) (st : state) :
    reachable allowed (db_combinations st) ->
    reachable allowed (db_combinations (snd (main env fuel st))).

Definition any_options (o : options) : Prop := True.

Definition not_reharvesting (o : options) : Prop :=
  opt_status o <> Some completed.

(** ** The selector in the words of the specification

    Case-insensitive substring: the needle, in lower case, is a substring
    of the text in lower case.  Lower case is that of the letters A to
    Z. *)
Definition upper_case_letters : string := "ABCDEFGHIJKLMNOPQRSTUVWXYZ".
Definition lower_case_letters : string := "abcdefghijklmnopqrstuvwxyz".

Fixpoint lower_case_letter (upper lower : string) (c : ascii) : ascii :=
  match upper, lower with
  | String u upper', String l lower' =>
      if Ascii.eqb c u then l else lower_case_letter upper' lower' c
  | _, _ => c
  end.

Fixpoint lower_case (s : string) : string :=
  match s with
  | EmptyString => EmptyString
  | String c s' =>
      String (lower_case_letter upper_case_letters lower_case_letters c)
             (lower_case s')
  end.

Fixpoint starts_with (needle text : string) : bool :=
  match needle, text with
  | EmptyString, _ => true
  | String a needle', String b text' => Ascii.eqb a b && starts_with needle' text'
  | String _ _, EmptyString => false
  end.

Fixpoint is_substring (needle text : string) : bool :=
  starts_with needle text
  || match text with
     | EmptyString => false
     | String _ text' => is_substring needle text'
     end.

Definition contains_ignoring_case (needle text : string) : bool :=
  is_substring (lower_case needle) (lower_case text).

(** The three filters of the specification: the status, which is
    pending or failed when no status is asked for, and the two
    substrings. *)
Definition status_selected (status_option : option status) (d : combination)
  : Prop :=
  match status_option with
  | Some s => comb_status d = s
  | None => comb_status d = pending \/ comb_status d = failed
  end.

Definition spec_status (status_option : option status) (d : combination) : bool :=
  match status_option with
  | Some s => status_eqb (comb_status d) s
  | None => status_eqb (comb_status d) pending || status_eqb (comb_status d) failed
  end.

Definition spec_substring (filter_option : option string) (text : string) : bool :=
  match filter_option with
  | Some needle => contains_ignoring_case needle text
  | None => true
  end.

Definition spec_matches (o : options) (d : combination) : bool :=
  spec_status (opt_status o) d
  && spec_substring (opt_location o) (location d)
  && spec_substring (opt_industry o) (industry_name d).

(** ** The selector and the server's regular expressions

    A filter option counts when it is given and not empty: its string is
    then the pattern of a search by the server. *)

(** The server rejects the pattern of the option. *)
Definition rejected (env : environment) (filter_option : option string) : Prop :=
  exists p, filter_option = Some p /\ p <> EmptyString /\ regex env p = None.

(** The option does not count, or the server finds its pattern in the
    text. *)
Definition found_in (env : environment) (filter_option : option string)
           (text : string) : Prop :=
  forall p, filter_option = Some p -> p <> EmptyString ->
            exists found, regex env p = Some found /\ found text = true.

(** The option does not count, or the server's search for its pattern is
    what the specification says, the case-insensitive substring test, on
    one field of the documents of a collection. *)
Definition searched_as_substring (env : environment)
           (filter_option : option string)
           (field : combination -> string) (c : collection) : Prop :=
  forall p, filter_option = Some p -> p <> EmptyString ->
            exists found,
              regex env p = Some found /\
              forall d, In d c ->
                        found (field d) = contains_ignoring_case p (field d).

(** An exception of [handle] that was raised before its loop: by a read
    of the data files in the generation, or by the server when it
    rejects a pattern of the query. *)
Definition raised_before_the_loop (env : environment) (o : options) (e : exn)
  : Prop :=
  (opt_skip_generation o = false /\ data_files_error env = Some e) \/
  (e = OperationFailure /\
   (rejected env (opt_location o) \/ rejected env (opt_industry o))).

(** What the reset does to one document. *)
Definition reset_relation (d d' : combination) : Prop :=
  (comb_status d = failed -> comb_status d' = pending) /\
  (comb_status d <> failed -> d' = d) /\
  location d' = location d /\
  employee_ranges d' = employee_ranges d /\
  industry_id d' = industry_id d /\
  industry_name d' = industry_name d /\
  results_count d' = results_count d /\
  created_at d' = created_at d.

Definition pending_or_failed (d : combination) : Prop :=
  comb_status d = pending \/ comb_status d = failed.

(** [behaves R Q E m]: from any state, [m] moves the state along [R];
    a value it returns satisfies [Q], an exception it raises [E]. *)
Definition behaves {A} (R : state -> state -> Prop) (Q : A -> Prop)
           (E : exn -> Prop) (m : py A) : Prop :=
  forall st,
    R st (snd (m st)) /\
    match fst (m st) with
    | Returned a => Q a
    | Raised e => E e
    | OutOfFuel => True
    end.

(** The [combinations] collection is not written. *)
Definition same_combinations (st st' : state) : Prop :=
  db_combinations st' = db_combinations st.

(** The exceptions that [except Exception] catches. *)
Definition caught_by_Exception (e : exn) : Prop := is_Exception e = true.

Definition anything {A} (a : A) : Prop := True.

Definition nothing (e : exn) : Prop := False.

(** The write of [update_combination_status] on the collection. *)
Definition marked (k : key) (s : status) (now : timestamp) (rc : option Z)
           (c : collection) : collection :=
  update_one k (set_update_data s now rc) c.

(** The count a page leaves is the count it found plus the size of the
    page. *)
Definition count_grows (total : Z) (locals : page_locals) : Prop :=
  match locals with
  | (_, _, _, total') => (total <= total')%Z
  end.

(** The part of the search between the two status updates. *)
Definition search_body (env : environment) (fuel : nat) (loc ind_id cookies_file headers_file : string)
  : py Z :=
  (load_json_file env cookies_file ;;
   load_json_file env headers_file ;;
   paginate env fuel loc ind_id 1%Z [] 0%Z)%py.

(** The search of one queued combination, as the loop of [handle] calls
    it, and the state the loop calls it in. *)
Definition search_of (env : environment) (fuel : nat)
           (cookies_file headers_file : string) (combo : projected) : py Z :=
  search_apollo_and_save_to_mongodb env fuel (p_location combo)
    (p_employee_ranges combo) (p_industry_id combo) (p_industry_name combo)
    cookies_file headers_file.

Definition announced (pending_count i : Z) (combo : projected) (st : state) : state :=
  log_event (LogProcessing (i + 1) pending_count (projected_key combo)) st.

(** The state after the handler of lines 187-196. *)
Definition after_failure (env : environment) (combo : projected) (e : exn)
           (st : state) : state :=
  snd (update_combination_status env (p_location combo) (p_industry_name combo)
         failed None
         (log_event (LogErrorProcessing (projected_key combo) e) st)).

(** The state after lines 184-205 on success. *)
Definition after_success (pending_count i : Z) (combo : projected) (results : Z)
           (st : state) : state :=
  let st' := log_event (LogCompleted (projected_key combo) results) st in
  if (i + 1 <? pending_count)%Z then log_event Sleep st' else st'.

(** A combination as the generator writes it: pending, without a count. *)
Definition fresh_document (d : combination) : Prop :=
  comb_status d = pending /\ results_count d = None.

(** An operation of the generator: the document to insert has the key of
    the filter, and is fresh. *)
Definition fresh_op (op : upsert_op) : Prop :=
  key_of (op_set_on_insert op) = op_filter op /\
  fresh_document (op_set_on_insert op).

(** Some document of the collection has the key. *)
Definition present (k : key) (c : collection) : Prop :=
  existsb (matches_key k) c = true.

(** [c'] is [c] with fresh documents added at its end: no document of
    [c] is changed or removed, and unique keys stay unique. *)
Definition extended (c c' : collection) : Prop :=
  (exists new, c' = c ++ new /\ Forall fresh_document new) /\
  (unique_keys c -> unique_keys c').

Definition extends_combinations (st st' : state) : Prop :=
  extended (db_combinations st) (db_combinations st').

(** The pair of an item of the product. *)
Definition pair_of (item : string * string * string) : key :=
  match item with
  | (loc, _, industry) => (loc, industry)
  end.

(** The batch of the generation loop holds operations of the generator. *)
Definition batch_is_fresh (locals : loop_locals) : Prop :=
  match locals with
  | (current_batch, _, _) => Forall fresh_op current_batch
  end.

(** The condition under which a first generation cannot be skipped
    wrongly: the count differs from [total_potential], or every pair is
    there already. *)
Definition skip_is_sound (env : environment) (c : collection) : Prop :=
  count_all c <> total_potential env \/
  forall k, In k (enumerated_pairs env) -> present k c.

(** The two directions of the invariant of [results_count], on one
    document. *)
Definition count_if_completed (d : combination) : Prop :=
  comb_status d = completed -> has_results_count d.

Definition count_iff_completed (d : combination) : Prop :=
  has_results_count d <-> comb_status d = completed.

(** The combination of key [k], if there is one, has no [results_count]. *)
Definition no_count_at (k : key) (c : collection) : Prop :=
  forall d, find_one k c = Some d -> results_count d = None.

(** What a loop of the harvest writes to the collection, for the keys of
    its queue in order: each combination is marked in progress, then
    completed with a count, or failed (by the search and, in [handle],
    again by the loop); a search that does not end leaves it in
    progress. *)
Inductive harvested : list key -> collection -> collection -> Prop :=
| harvested_nil (c : collection) :
    harvested [] c c
| harvested_completed (k : key) (ks : list key) (c c' : collection)
                      (t0 t1 : timestamp) (n : Z) :
    harvested ks (marked k completed t1 (Some n) (marked k in_progress t0 None c)) c' ->
    harvested (k :: ks) c c'
| harvested_failed (k : key) (ks : list key) (c c' : collection)
                   (t0 t1 t2 : timestamp) :
    harvested ks
              (marked k failed t2 None
                      (marked k failed t1 None (marked k in_progress t0 None c))) c' ->
    harvested (k :: ks) c c'
| harvested_failed_once (k : key) (ks : list key) (c c' : collection)
                        (t0 t1 : timestamp) :
    harvested ks (marked k failed t1 None (marked k in_progress t0 None c)) c' ->
    harvested (k :: ks) c c'
| harvested_unfinished (k : key) (ks : list key) (c : collection) (t0 : timestamp) :
    harvested (k :: ks) c (marked k in_progress t0 None c).

(** What a whole run writes to the collection: an optional reset, an
    optional generation, then the harvest of the selected queue. *)
Definition reset_step (o : options) (c c' : collection) : Prop :=
  (opt_reset_failed o = false /\ c' = c) \/
  (exists now, c' = reset_failed_store now c).

Definition harvest_step (env : environment) (o : options) (c c' : collection)
  : Prop :=
  c' = c \/
  (exists selected,
      selected_documents env o c = Some selected /\
      harvested (map key_of selected) c c').

Definition run_writes (env : environment) (o : options) (c c' : collection)
  : Prop :=
  exists c1 c2, reset_step o c c1 /\ extended c1 c2 /\ harvest_step env o c2 c'.

(** The invariant of the data model, on a collection with unique keys. *)
Definition well_counted (c : collection) : Prop :=
  unique_keys c /\ Forall count_iff_completed c.

(** The conditional inserts a generation builds for the items of the
    product, when the clock has been read [reads] times: one per item, in
    order, with the two timestamps read for it. *)
Fixpoint generated_ops (env : environment) (tags : list (string * string))
         (items : list (string * string * string)) (reads : nat)
  : list upsert_op :=
  match items with
  | [] => []
  | (loc, size, industry) :: rest =>
      match dict_get tags industry with
      | None => []
      | Some ind_id =>
          mkUpsert (loc, industry)
                   (mkCombination loc size ind_id industry pending None
                                  (clock env reads) (clock env (S reads)))
          :: generated_ops env tags rest (S (S reads))
      end
  end.

(** All conditional inserts of one generation started in state [st]. *)
Definition all_generated_ops (env : environment) (st : state) : list upsert_op :=
  generated_ops env (formatted_industry_tags env)
    (product3 (all_Cities env) employee_ranges_defined (apollo_industries env))
    (clock_reads st).

(** The counts a generation reports are the counts of the collection. *)
Definition reports_counts_of (stats : generation_stats) (c : collection) : Prop :=
  stat_total stats = count_all c /\
  stat_pending stats = count_status pending c /\
  stat_completed stats = count_status completed c /\
  stat_failed stats = count_status failed c /\
  stat_in_progress stats = count_status in_progress c.

(** What saving organizations never touches: everything but the three
    collections they are written to, the clock and the ids issued. *)
Definition outside_save (st : state) :=
  (db_combinations st, search_calls st, details_calls st, bulk_calls st, trace st).

(** Insert-if-absent on a collection of named documents: the documents
    there stay as they are, in place; one document is added for each of
    the names that had none, and only for those. *)
Definition catalog_step (names : list string) (before after : list named_doc)
  : Prop :=
  exists added,
    after = before ++ added /\
    NoDup (map named_name added) /\
    forall n, In n (map named_name added) <->
              In n names /\ ~ In n (map named_name before).

(** The documents with another [apollo_id]. *)
Definition other_organizations (i : string) (c : list organization_doc)
  : list organization_doc :=
  filter (fun d => negb (has_apollo_id i d)) c.

(** The data stored for an organization: the data saved, or, on an
    update, the data saved with a later [updated_at]. *)
Definition stored_as (data stored : organization_data) : Prop :=
  stored = data \/ exists now, stored = set_updated_at now data.

(** The number of entries of ["organizations"] in the answer to one
    search request: none when the request raised or the body is no
    object. *)
Definition hits_of (o : http_outcome search_results) : Z :=
  match o with
  | HttpRaises _ => 0%Z
  | HttpResponse r =>
      match body r with
      | JsonObject b => Z.of_nat (length (sr_organizations b))
      | _ => 0%Z
      end
  end.

(** The entries in the answers to [pages] search requests, from request
    number [first] on. *)
Fixpoint hits_from (env : environment) (first pages : nat) : Z :=
  match pages with
  | O => 0%Z
  | S pages' => (hits_of (search_responses env first) + hits_from env (S first) pages')%Z
  end.

(** The exceptions the handler of a page (line 263) does not catch. *)
Definition passes_page_handler (e : exn) : Prop := is_JSONDecodeError e = false.

(** The ids a page adds to those seen before. *)
Definition page_ids (resp : response search_results) (seen : list string)
  : list string :=
  match body resp with
  | JsonObject b => fst (collect_ids (sr_organizations b) [] seen)
  | _ => []
  end.

(** The answer asks for another page: it is an object with a full page
    of entries that does not say [has_next_page: false]. *)
Definition continues (resp : response search_results) : bool :=
  match body resp with
  | JsonObject b =>
      negb (Z.of_nat (length (sr_organizations b)) <? per_page)%Z
      && match sr_has_next_page b with
         | Some false => false
         | _ => true
         end
  | _ => false
  end.

(** The answers at which the loop over the pages ends. *)
Definition stops (o : http_outcome search_results) : bool :=
  match o with
  | HttpRaises _ => true
  | HttpResponse r => negb (status_code r =? 200)%Z || negb (continues r)
  end.

(** What a page leaves in the locals of the loop. *)
Definition page_result (resp : response search_results) (seen : list string)
           (total : Z) (locals : page_locals) : Prop :=
  match locals with
  | (more, _, seen', total') =>
      total' = (total + hits_of (HttpResponse resp))%Z /\
      seen' = seen ++ page_ids resp seen /\
      more = continues resp
  end.

(** The ids sent to [load_snippets], request after request. *)
Fixpoint details_requested (tr : list event) : list string :=
  match tr with
  | [] => []
  | HttpDetails ids :: tr' => ids ++ details_requested tr'
  | _ :: tr' => details_requested tr'
  end.

(** The same ids have been sent. *)
Definition same_details (a b : state) : Prop :=
  details_requested (trace b) = details_requested (trace a).

(** What identifies a combination and is written once, at its
    generation. *)
Definition identity_of (d : combination)
  : string * string * string * string * timestamp :=
  (location d, employee_ranges d, industry_id d, industry_name d, created_at d).

(** What a loop that came to its end has written for the keys of its
    queue, in order: every combination was marked in progress and then
    completed with a count, or failed (once by the search and, in
    [handle], once more by the loop). *)
Inductive settled : list key -> collection -> collection -> Prop :=
| settled_nil (c : collection) :
    settled [] c c
| settled_completed (k : key) (ks : list key) (c c' : collection)
                    (t0 t1 : timestamp) (n : Z) :
    settled ks (marked k completed t1 (Some n) (marked k in_progress t0 None c)) c' ->
    settled (k :: ks) c c'
| settled_failed (k : key) (ks : list key) (c c' : collection)
                 (t0 t1 t2 : timestamp) :
    settled ks
            (marked k failed t2 None
                    (marked k failed t1 None (marked k in_progress t0 None c))) c' ->
    settled (k :: ks) c c'
| settled_failed_once (k : key) (ks : list key) (c c' : collection)
                      (t0 t1 : timestamp) :
    settled ks (marked k failed t1 None (marked k in_progress t0 None c)) c' ->
    settled (k :: ks) c c'.

(** The default selection: no [--status], no filter, no [--limit]. *)
Definition selects_by_default (o : options) : Prop :=
  opt_status o = None /\ opt_location o = None /\
  opt_industry o = None /\ opt_limit o = None.

(** The organizations with another [_id]. *)
Definition without_oid (i : object_id) (c : list organization_doc)
  : list organization_doc :=
  filter (fun d => negb (Api.has_oid i d)) c.

(** Some document with the key is completed. *)
Definition completed_key (k : key) (c : collection) : Prop :=
  exists d, In d c /\ key_of d = k /\ comb_status d = completed.

(** The set [get_completed_combinations] returns in a state. *)
Definition completed_set (st : state) : list key :=
  match fst (get_completed_combinations st) with
  | Returned s => s
  | _ => []
  end.

(** The combinations whose search was started, in order: those marked
    in progress. *)
Fixpoint started (tr : list event) : list key :=
  match tr with
  | [] => []
  | DbUpdateOne k in_progress _ :: tr' => k :: started tr'
  | _ :: tr' => started tr'
  end.

Definition same_started (a b : state) : Prop :=
  started (trace b) = started (trace a).

(** What identifies a stored organization. *)
Definition org_identity (d : organization_doc) : object_id * string :=
  (fst d, org_apollo_id (snd d)).

(** Nothing saved is lost: the organizations keep their [_id], their
    [apollo_id] and their place, the industries and the keywords stay as
    they are, and new documents come after them. *)
Definition keeps_saved (a b : state) : Prop :=
  (exists added, map org_identity (db_organization b) =
                 map org_identity (db_organization a) ++ added) /\
  (exists added, db_industry b = db_industry a ++ added) /\
  (exists added, db_keyword b = db_keyword a ++ added).

(** A computation that comes to an end, by a result or an exception, in
    every state. *)
Definition ends {A} (m : py A) : Prop :=
  forall st, fst (m st) <> OutOfFuel.

(** What [extract_organization_data] makes of a detail without a hit:
    every field of the hit takes its default. *)
Definition unmatched_data (now : timestamp) (d : org_detail) : organization_data :=
  mkOrganization "" "" "" "" "" ""
                 (det_estimated_num_employees d) (det_industries d)
                 (det_keywords d) (det_raw_address d) now now.

(** The command line with another [--batch-size]. *)
Definition with_batch_size (b : Z) (o : options) : options :=
  mkOptions (opt_location o) (opt_industry o) (opt_limit o)
            (opt_cookies_file o) (opt_headers_file o) (opt_yes o)
            (opt_reset_failed o) (opt_status o) (opt_skip_generation o) b.

(** The batches handed to [bulk_write], in order. *)
Fixpoint bulk_writes (t : list event) : list (list upsert_op) :=
  match t with
  | [] => []
  | DbBulkWrite ops _ :: t' => ops :: bulk_writes t'
  | _ :: t' => bulk_writes t'
  end.

(** ** Concrete runs

    The scenario of the specification: two locations, two industries.
    The first search finds one organization, the second times out, the
    others find nothing. *)
Definition one_hit : search_hit :=
  mkHit (Some "o1") "Org1" "" "" "" "" "".

Definition one_detail : org_detail :=
  mkDetail (Some "o1") 5%Z ["Software"] ["ai"] "1 Main St".

Definition page_of (hits : list search_hit) : http_outcome search_results :=
  HttpResponse (mkResponse 200%Z (JsonObject (mkSearchResults hits None))).

(** The regular expressions of the server of the scenarios, whose texts
    are plain ASCII.  A word of letters, digits and spaces is found where
    it occurs, up to the case of its letters; the pattern [.] is found in
    every text that has a character other than a newline; the pattern
    [(] is rejected (an unmatched parenthesis is no regular expression),
    and so is, by this server, every other pattern: no scenario uses
    one. *)
Definition newline : ascii := ascii_of_nat 10.

Definition to_lower (c : ascii) : ascii :=
  let n := nat_of_ascii c in
  if (65 <=? n)%nat && (n <=? 90)%nat then ascii_of_nat (n + 32) else c.

Definition word_character (c : ascii) : bool :=
  let n := nat_of_ascii c in
  ((65 <=? n)%nat && (n <=? 90)%nat)
  || ((97 <=? n)%nat && (n <=? 122)%nat)
  || ((48 <=? n)%nat && (n <=? 57)%nat)
  || (n =? 32)%nat.

Fixpoint word_at (word text : string) : bool :=
  match word, text with
  | EmptyString, _ => true
  | String p word', String t text' =>
      Ascii.eqb (to_lower p) (to_lower t) && word_at word' text'
  | String _ _, EmptyString => false
  end.

Fixpoint word_found (word text : string) : bool :=
  word_at word text
  || match text with
     | EmptyString => false
     | String _ text' => word_found word text'
     end.

Definition any_character (text : string) : bool :=
  existsb (fun c => negb (Ascii.eqb c newline)) (list_ascii_of_string text).

Definition scenario_regex (pattern : string) : option (string -> bool) :=
  if String.eqb pattern "."
  then Some any_character
  else if forallb word_character (list_ascii_of_string pattern)
       then Some (word_found pattern)
       else None.

Definition scenario : environment :=
  mkEnv (fun _ => FileJson)
        ["NYC"; "LA"]
        [("Tech", "t1"); ("Health", "h1")]
        (fun n => Z.of_nat n)
        (fun n => match n with
                  | 0 => page_of [one_hit]
                  | 1 => HttpRaises "timed out"
                  | _ => page_of []
                  end)
        (fun _ => HttpResponse (mkResponse 200%Z (JsonObject (Some [one_detail]))))
        (fun _ => BulkOk)
        None scenario_regex.

(** [manage.py fetch_apollo_data] without any option. *)
Definition default_options : options :=
  mkOptions None None None "data/cookies.json" "data/headers.json"
            false false None false 5000%Z.

(** The scenario without its cookies file. *)
Definition scenario_without_cookies : environment :=
  mkEnv (fun path => if String.eqb path "data/cookies.json"
                     then FileMissing else FileJson)
        (all_Cities scenario) (formatted_industry_tags scenario)
        (clock scenario) (search_responses scenario)
        (details_responses scenario) (bulk_results scenario)
        None scenario_regex.

(** The scenario without [data/all_Cities.csv]. *)
Definition without_cities : environment :=
  mkEnv (filesystem scenario) (all_Cities scenario) (formatted_industry_tags scenario)
        (clock scenario) (search_responses scenario)
        (details_responses scenario) (bulk_results scenario)
        (Some (FileNotFoundError "data/all_Cities.csv")) scenario_regex.

(** [--skip-generation]. *)
Definition skip_generation : options :=
  mkOptions None None None "data/cookies.json" "data/headers.json"
            false false None true 5000%Z.

(** [--location .] and [--location nyc]. *)
Definition with_location (p : string) (o : options) : options :=
  mkOptions (Some p) (opt_industry o) (opt_limit o)
            (opt_cookies_file o) (opt_headers_file o) (opt_yes o)
            (opt_reset_failed o) (opt_status o) (opt_skip_generation o)
            (opt_batch_size o).

(** The scenario with a vendor that cannot be reached. *)
Definition unreachable_vendor : environment :=
  mkEnv (filesystem scenario) (all_Cities scenario) (formatted_industry_tags scenario)
        (clock scenario) (fun _ => HttpRaises "connection refused")
        (details_responses scenario) (bulk_results scenario)
        None scenario_regex.

Definition queued (loc ind_id ind : string) : projected :=
  mkProjected loc "1-10, 10-20, 20-50, 50-100, 100-200" ind_id ind.

Definition pending_combination (loc ind_id ind : string) : combination :=
  mkCombination loc "1-10, 10-20, 20-50, 50-100, 100-200" ind_id ind
                pending None 0%Z 1%Z.

(** A collection with one document that is not of the product of
    [one_pair] (defined below), as a change of the input files leaves. *)
Definition stray : collection :=
  [pending_combination "LA" "h1" "Health"].

(** One city and one industry; the vendor lists the same organization
    twice on the only page. *)
Definition twice_listed : environment :=
  mkEnv (fun _ => FileJson) ["NYC"] [("Tech", "t1")]
        (fun n => Z.of_nat n) (fun _ => page_of [one_hit; one_hit])
        (fun _ => HttpResponse (mkResponse 200%Z (JsonObject (Some [one_detail]))))
        (fun _ => BulkOk)
        None scenario_regex.

(** An organization as a search saves it, and a store of three. *)
Definition organization_named (name apollo_id : string) : organization_data :=
  mkOrganization name "" "" "" "" apollo_id 5%Z ["Software"] ["ai"] "1 Main St"
                 0%Z 0%Z.

Definition three_organizations : state :=
  with_organization [ (10%N, organization_named "Org1" "o1");
                      (11%N, organization_named "Org2" "o2");
                      (12%N, organization_named "Org3" "o3") ]
                    initial_state.

(** One city and one industry, and a server whose bulk writes raise
    after applying the first operation. *)
Definition failing_writes : environment :=
  mkEnv (fun _ => FileJson) ["NYC"] [("Tech", "t1")]
        (fun n => Z.of_nat n) (fun _ => page_of [])
        (fun _ => HttpResponse (mkResponse 200%Z (JsonObject (Some []))))
        (fun _ => BulkError [true])
        None scenario_regex.

(** One city and one industry, and a collection that holds that pair. *)
Definition one_pair : environment :=
  mkEnv (fun _ => FileJson) ["NYC"] [("Tech", "t1")]
        (fun n => Z.of_nat n) (fun _ => page_of [])
        (fun _ => HttpResponse (mkResponse 200%Z (JsonObject (Some []))))
        (fun _ => BulkOk)
        None scenario_regex.

Definition nyc_tech (s : status) (rc : option Z) : combination :=
  mkCombination "NYC" "1-10, 10-20, 20-50, 50-100, 100-200" "t1" "Tech"
                s rc 0%Z 1%Z.

Definition state_of (c : collection) : state :=
  mkState c [] [] [] 0 0 0 0 0 [].

(** The filters of all operations handed to [bulk_write] so far, in
    order. *)
Definition submitted (st : state) : list key :=
  map op_filter (concat (bulk_writes (trace st))).

(** Three cities and one industry: three combinations to generate. *)
Definition three_cities : environment :=
  mkEnv (fun _ => FileJson) ["NYC"; "LA"; "SF"] [("Tech", "t1")]
        (fun n => Z.of_nat n) (fun _ => page_of [])
        (fun _ => HttpResponse (mkResponse 200%Z (JsonObject (Some []))))
        (fun _ => BulkOk)
        None scenario_regex.

(** One city and one industry; the first search finds one organization,
    every later search fails. *)
Definition found_once : environment :=
  mkEnv (fun _ => FileJson) ["NYC"] [("Tech", "t1")]
        (fun n => Z.of_nat n)
        (fun n => match n with
                  | 0 => page_of [one_hit]
                  | _ => HttpRaises "timed out"
                  end)
        (fun _ => HttpResponse (mkResponse 200%Z (JsonObject (Some [one_detail]))))
        (fun _ => BulkOk)
        None scenario_regex.

(** [--status completed]. *)
Definition status_completed : options :=
  mkOptions None None None "data/cookies.json" "data/headers.json"
            false false (Some completed) false 5000%Z.

(** A first run without options, and a second run on what it left. *)
Definition after_first_run : state :=
  snd (handle found_once 5 default_options initial_state).

Definition after_second_run : state :=
  snd (handle found_once 5 status_completed after_first_run).

(* ===================================================================== *)
(** * 12. Basic facts                                                    *)
(* ===================================================================== *)

Lemma status_eqb_eq (a b : status) : status_eqb a b = true <-> a = b.
Proof. destruct a, b; simpl; split; intro H; try reflexivity; discriminate H. Qed.

Lemma status_eqb_refl (a : status) : status_eqb a a = true.
Proof. destruct a; reflexivity. Qed.

Lemma status_eqb_neq (a b : status) : status_eqb a b = false <-> a <> b.
Proof.
  split.
  - intros H E. subst. rewrite status_eqb_refl in H. discriminate.
  - intros H. destruct (status_eqb a b) eqn:E; [|reflexivity].
    apply status_eqb_eq in E. contradiction.
Qed.

Lemma key_eqb_eq (k1 k2 : key) : key_eqb k1 k2 = true <-> k1 = k2.
Proof.
  destruct k1 as [a b], k2 as [c d]; unfold key_eqb; simpl.
  rewrite andb_true_iff, !String.eqb_eq. split.
  - intros [-> ->]; reflexivity.
  - intros H; inversion H; auto.
Qed.

Lemma key_eqb_refl (k : key) : key_eqb k k = true.
Proof. apply key_eqb_eq; reflexivity. Qed.

Lemma key_eqb_neq (k1 k2 : key) : key_eqb k1 k2 = false <-> k1 <> k2.
Proof.
  split.
  - intros H E. apply key_eqb_eq in E. congruence.
  - intros H. destruct (key_eqb k1 k2) eqn:E; [|reflexivity].
    apply key_eqb_eq in E. contradiction.
Qed.

Lemma matches_key_true (k : key) (d : combination) :
  matches_key k d = true <-> key_of d = k.
Proof. unfold matches_key. apply key_eqb_eq. Qed.

Lemma matches_key_false (k : key) (d : combination) :
  matches_key k d = false <-> key_of d <> k.
Proof. unfold matches_key. apply key_eqb_neq. Qed.

(** An update of [update_combination_status] or of the reset never
    changes the key of a document. *)
Lemma key_of_set_update_data s now rc d :
  key_of (set_update_data s now rc d) = key_of d.
Proof. reflexivity. Qed.

(** Unfolding the monad. *)
Ltac py_unfold :=
  unfold bind, ret, raise, out_of_fuel, try_except, modify, get_state, when in *.

Ltac py_simpl := py_unfold; simpl in *.

(* ===================================================================== *)
(** * 13. The reset of failed combinations                               *)
(* ===================================================================== *)

Lemma reset_failed_store_pointwise (now : timestamp) (c : collection) :
  Forall2 reset_relation c (reset_failed_store now c).
Proof.
  induction c as [|d c IH]; simpl; constructor; auto.
  unfold is_failed. destruct (status_eqb (comb_status d) failed) eqn:E.
  - apply status_eqb_eq in E. unfold reset_relation; simpl.
    repeat split; auto. intros H; contradiction.
  - apply status_eqb_neq in E. unfold reset_relation.
    repeat split; auto. intros H; contradiction.
Qed.

Lemma reset_failed_run (env : environment) (st : state) :
  reset_failed env st =
  (Returned tt,
   log_event (LogReset (reset_modified_count (db_combinations st)))
     (log_event DbUpdateMany
        (with_combinations
           (reset_failed_store (clock env (clock_reads st)) (db_combinations st))
           (tick_clock st)))).
Proof. reflexivity. Qed.

(** C5.  The reset always returns; document by document, in store order,
    a failed combination becomes pending, a combination of any other
    status is left exactly as it is, and on every document the location,
    the employee ranges, the industry id and name, [results_count] and
    [created_at] are the ones it had (only [status] and [updated_at] can
    differ).  No other collection is written. *)
Theorem reset_failed_all_and_only_failed (env : environment) (st : state) :
  fst (reset_failed env st) = Returned tt /\
  Forall2 reset_relation
          (db_combinations st) (db_combinations (snd (reset_failed env st))) /\
  db_organization (snd (reset_failed env st)) = db_organization st /\
  db_industry (snd (reset_failed env st)) = db_industry st /\
  db_keyword (snd (reset_failed env st)) = db_keyword st.
Proof.
  rewrite reset_failed_run. simpl. repeat split.
  apply reset_failed_store_pointwise.
Qed.

(* ===================================================================== *)
(** * 14. The skip of the generation                                     *)
(* ===================================================================== *)

(** C7.  When the collection holds exactly [total_potential] documents,
    [generate_combinations] returns without any effect (the state,
    collection and trace included, is the one it was called in: no write,
    no clock read) and its result gives the counts by status of that
    collection, with [skipped_generation] set. *)
Theorem generation_skipped_when_count_matches (env : environment) (st : state) :
  count_all (db_combinations st) = total_potential env ->
  generate_combinations env st =
  (Returned
     {| stat_total := total_potential env;
        stat_pending := count_status pending (db_combinations st);
        stat_completed := count_status completed (db_combinations st);
        stat_failed := count_status failed (db_combinations st);
        stat_in_progress := count_status in_progress (db_combinations st);
        stat_new_added := None;
        stat_skipped_generation := true |},
   st).
Proof.
  intros H. unfold generate_combinations, bind, get_state.
  rewrite H, Z.eqb_refl. reflexivity.
Qed.

Lemma generation_skipped_witness :
  generate_combinations one_pair (state_of [nyc_tech completed (Some 3%Z)]) =
  (Returned (mkStats 1 0 1 0 0 None true),
   state_of [nyc_tech completed (Some 3%Z)]).
Proof.
  apply (generation_skipped_when_count_matches
           one_pair (state_of [nyc_tech completed (Some 3%Z)])).
  reflexivity.
Defined.

(* ===================================================================== *)
(** * 15. The check of the cookies and headers files                     *)
(* ===================================================================== *)

(** C9.  If the cookies file or the headers file does not exist, [handle]
    returns at once: the only effect is the report of the missing file
    (the first one missing) on stdout; no combination is read, reset,
    generated or updated, no request is made, and the collections are the
    ones the run started with.  If both files exist, the check itself has
    no effect: [handle] is the run, started in the very same state. *)
Theorem missing_file_aborts_the_run (env : environment) (fuel : nat)
        (o : options) (st : state) :
  (os_path_exists env (opt_cookies_file o) = false \/
   os_path_exists env (opt_headers_file o) = false ->
   handle env fuel o st =
   (Returned PreconditionFailed,
    log_event
      (if os_path_exists env (opt_cookies_file o)
       then LogFileNotFound "Headers" (opt_headers_file o)
       else LogFileNotFound "Cookies" (opt_cookies_file o))
      st)) /\
  (os_path_exists env (opt_cookies_file o) = true ->
   os_path_exists env (opt_headers_file o) = true ->
   handle env fuel o st = run env fuel o st).
Proof.
  unfold handle. split.
  - intros [H|H].
    + rewrite H. reflexivity.
    + destruct (os_path_exists env (opt_cookies_file o)); simpl.
      * rewrite H. reflexivity.
      * reflexivity.
  - intros H1 H2. rewrite H1, H2. reflexivity.
Qed.

Lemma missing_file_witness :
  handle scenario_without_cookies 5 default_options initial_state =
  (Returned PreconditionFailed,
   log_event (LogFileNotFound "Cookies" "data/cookies.json") initial_state).
Proof.
  apply (proj1 (missing_file_aborts_the_run
                  scenario_without_cookies 5 default_options initial_state)).
  left. reflexivity.
Defined.

(* ===================================================================== *)
(** * 16. The organization endpoints on an unknown identifier            *)
(* ===================================================================== *)

Section ById.

Variable ObjectId : string -> exn + object_id.

(** The lookup by id returns in every case, and leaves the state alone. *)
Lemma get_by_id_returns (org_id : string) (st : state) :
  Api.get_by_id ObjectId org_id st =
  (Returned match ObjectId org_id with
            | inl _ => None
            | inr i => find (Api.has_oid i) (db_organization st)
            end,
   st).
Proof.
  unfold Api.get_by_id, Api.new_ObjectId. py_unfold.
  destruct (ObjectId org_id); reflexivity.
Qed.

Lemma get_object_returns (org_id : string) (st : state) :
  Api.get_object ObjectId org_id st = Api.get_by_id ObjectId org_id st.
Proof.
  unfold Api.get_object, try_except. rewrite get_by_id_returns. reflexivity.
Qed.

End ById.

(** C10.  Whatever string is given as the identifier, the lookup by id
    returns (it never raises) and changes nothing.  When the string is no
    object id ([ObjectId] raises on it, whatever the exception), or no
    organization has that id, the lookup returns [None] and the detail,
    update and delete endpoints each return the 404 response
    [{'error': 'Organization not found'}], again without raising and
    without any write. *)
Theorem unknown_id_is_not_found (ObjectId : string -> exn + object_id)
        (request_data : option organization_data) (org_id : string) (st : state) :
  (exists found, Api.get_by_id ObjectId org_id st = (Returned found, st)) /\
  ((exists e, ObjectId org_id = inl e) \/
   (exists i, ObjectId org_id = inr i /\
              find (Api.has_oid i) (db_organization st) = None) ->
   Api.get_by_id ObjectId org_id st = (Returned None, st) /\
   Api.detail_get ObjectId org_id st = (Returned Api.not_found, st) /\
   Api.detail_put ObjectId request_data org_id st = (Returned Api.not_found, st) /\
   Api.detail_delete ObjectId org_id st = (Returned Api.not_found, st)).
Proof.
  split.
  - eexists. apply get_by_id_returns.
  - intros H.
    assert (E : Api.get_by_id ObjectId org_id st = (Returned None, st)).
    { rewrite get_by_id_returns.
      destruct H as [[e He] | [i [Hi Hf]]].
      - rewrite He. reflexivity.
      - rewrite Hi, Hf. reflexivity. }
    split; [exact E|].
    unfold Api.detail_get, Api.detail_put, Api.detail_delete, bind.
    rewrite get_object_returns, E. repeat split.
Qed.

Lemma unknown_id_witness :
  Api.get_by_id Api.ObjectId_hex "not-an-object-id" initial_state
  = (Returned None, initial_state) /\
  Api.detail_get Api.ObjectId_hex "not-an-object-id" initial_state
  = (Returned Api.not_found, initial_state) /\
  Api.detail_put Api.ObjectId_hex None "not-an-object-id" initial_state
  = (Returned Api.not_found, initial_state) /\
  Api.detail_delete Api.ObjectId_hex "not-an-object-id" initial_state
  = (Returned Api.not_found, initial_state).
Proof.
  apply (proj2 (unknown_id_is_not_found
                  Api.ObjectId_hex None "not-an-object-id" initial_state)).
  left. exists InvalidId. reflexivity.
Defined.

(* ===================================================================== *)
(** * 17. The work selector                                              *)
(* ===================================================================== *)

Lemma truthy_some (filter_option : option string) (p : string) :
  truthy filter_option = Some p <-> filter_option = Some p /\ p <> EmptyString.
Proof.
  destruct filter_option as [[|a s]|]; simpl; split.
  - intros H. discriminate H.
  - intros [H Hp]. injection H as <-. contradiction.
  - intros H. split; [exact H|]. injection H as <-. intros F. discriminate F.
  - intros [H _]. exact H.
  - intros H. discriminate H.
  - intros [H _]. discriminate H.
Qed.

Lemma truthy_none (filter_option : option string) :
  truthy filter_option = None <->
  filter_option = None \/ filter_option = Some EmptyString.
Proof.
  destruct filter_option as [[|a s]|]; simpl; split; intros H; auto;
    try discriminate H; destruct H as [H|H]; discriminate H.
Qed.

Lemma pattern_rejected (env : environment) (filter_option : option string) :
  pattern_accepted env (truthy filter_option) = false <->
  rejected env filter_option.
Proof.
  unfold rejected, pattern_accepted. split.
  - destruct (truthy filter_option) as [p|] eqn:E; [|discriminate].
    apply truthy_some in E. destruct E as [E Hp].
    destruct (regex env p) eqn:Er; [discriminate|]. intros _.
    exists p. auto.
  - intros [p [E [Hp Er]]].
    assert (Et : truthy filter_option = Some p) by (apply truthy_some; auto).
    rewrite Et, Er. reflexivity.
Qed.

Lemma regex_matches_found (env : environment) (filter_option : option string)
      (text : string) :
  regex_matches env (truthy filter_option) text = true <->
  found_in env filter_option text.
Proof.
  unfold found_in, regex_matches. split.
  - intros H p E Hp.
    assert (Et : truthy filter_option = Some p) by (apply truthy_some; auto).
    rewrite Et in H. destruct (regex env p) as [found|]; [|discriminate].
    exists found. auto.
  - intros H. destruct (truthy filter_option) as [p|] eqn:E; [|reflexivity].
    apply truthy_some in E. destruct E as [E Hp].
    destruct (H p E Hp) as [found [Er Hf]]. rewrite Er. exact Hf.
Qed.

Lemma status_matches_selected (o : options) (d : combination) :
  status_matches (q_status (build_query o)) d = true <->
  status_selected (opt_status o) d.
Proof.
  unfold build_query, status_selected. simpl.
  destruct (opt_status o) as [s|]; simpl.
  - apply status_eqb_eq.
  - destruct (comb_status d); simpl; split; intros H; auto;
      try discriminate H; destruct H as [H|H]; discriminate H.
Qed.

Lemma status_matches_spec (o : options) (d : combination) :
  status_matches (q_status (build_query o)) d = spec_status (opt_status o) d.
Proof.
  unfold build_query, spec_status. simpl.
  destruct (opt_status o) as [s|]; simpl; [reflexivity|].
  destruct (comb_status d); reflexivity.
Qed.

Lemma query_matches_selected (env : environment) (o : options) (d : combination) :
  query_matches env (build_query o) d = true <->
  status_selected (opt_status o) d /\
  found_in env (opt_location o) (location d) /\
  found_in env (opt_industry o) (industry_name d).
Proof.
  unfold query_matches. rewrite !andb_true_iff.
  rewrite status_matches_selected.
  change (q_location (build_query o)) with (truthy (opt_location o)).
  change (q_industry_name (build_query o)) with (truthy (opt_industry o)).
  rewrite !regex_matches_found. tauto.
Qed.

Lemma selected_documents_rejected (env : environment) (o : options)
      (c : collection) :
  selected_documents env o c = None <->
  rejected env (opt_location o) \/ rejected env (opt_industry o).
Proof.
  rewrite <- !pattern_rejected.
  unfold selected_documents, find_query, query_accepted.
  change (q_location (build_query o)) with (truthy (opt_location o)).
  change (q_industry_name (build_query o)) with (truthy (opt_industry o)).
  destruct (pattern_accepted env (truthy (opt_location o)));
    destruct (pattern_accepted env (truthy (opt_industry o))); simpl;
    split; auto; try discriminate; intros [H|H]; discriminate H.
Qed.

Lemma selected_documents_answer (env : environment) (o : options)
      (c : collection) (selected : list combination) :
  selected_documents env o c = Some selected ->
  selected = apply_limit (opt_limit o)
                         (filter (query_matches env (build_query o)) c).
Proof.
  unfold selected_documents, find_query.
  destruct (query_accepted env (build_query o)); [|discriminate].
  intros H. injection H as <-. reflexivity.
Qed.

(** The lower case of the specification is the case folding of the
    scenarios' server. *)
Lemma lower_case_letter_folds (c : ascii) :
  lower_case_letter upper_case_letters lower_case_letters c = to_lower c.
Proof. destruct c as [[] [] [] [] [] [] [] []]; reflexivity. Qed.

Lemma word_at_starts_with (word : string) :
  forall text, word_at word text = starts_with (lower_case word) (lower_case text).
Proof.
  induction word as [|p word IH]; intros text; [reflexivity|].
  destruct text as [|t text]; [reflexivity|].
  cbn [word_at starts_with lower_case].
  rewrite !lower_case_letter_folds, IH. reflexivity.
Qed.

Lemma word_found_is_substring (word : string) :
  forall text, word_found word text = contains_ignoring_case word text.
Proof.
  unfold contains_ignoring_case.
  induction text as [|t text IH]; cbn [word_found is_substring lower_case].
  - rewrite word_at_starts_with. reflexivity.
  - rewrite word_at_starts_with, IH. reflexivity.
Qed.

Lemma empty_is_substring (text : string) :
  contains_ignoring_case EmptyString text = true.
Proof. unfold contains_ignoring_case. destruct text; reflexivity. Qed.

Lemma substring_search_accepted (env : environment)
      (filter_option : option string) (field : combination -> string)
      (c : collection) :
  searched_as_substring env filter_option field c ->
  pattern_accepted env (truthy filter_option) = true.
Proof.
  intros H. unfold pattern_accepted.
  destruct (truthy filter_option) as [p|] eqn:E; [|reflexivity].
  apply truthy_some in E. destruct E as [E Hp].
  destruct (H p E Hp) as [found [Er _]]. rewrite Er. reflexivity.
Qed.

Lemma substring_search_matches (env : environment)
      (filter_option : option string) (field : combination -> string)
      (c : collection) (d : combination) :
  searched_as_substring env filter_option field c -> In d c ->
  regex_matches env (truthy filter_option) (field d)
  = spec_substring filter_option (field d).
Proof.
  intros H Hd. unfold regex_matches, spec_substring.
  destruct (truthy filter_option) as [p|] eqn:E.
  - apply truthy_some in E. destruct E as [E Hp].
    destruct (H p E Hp) as [found [Er Hf]]. rewrite Er, E. apply Hf. exact Hd.
  - apply truthy_none in E. destruct E as [E|E]; rewrite E; [reflexivity|].
    symmetry. apply empty_is_substring.
Qed.

Lemma filter_same_on (f g : combination -> bool) (c : collection) :
  (forall d, In d c -> f d = g d) -> filter f c = filter g c.
Proof.
  induction c as [|d c IH]; intros H; [reflexivity|].
  simpl. rewrite (H d) by (left; reflexivity).
  rewrite IH by (intros x Hx; apply H; right; exact Hx). reflexivity.
Qed.

Lemma substring_search_selects (env : environment) (o : options)
      (c : collection) :
  searched_as_substring env (opt_location o) location c ->
  searched_as_substring env (opt_industry o) industry_name c ->
  selected_documents env o c
  = Some (apply_limit (opt_limit o) (filter (spec_matches o) c)).
Proof.
  intros Hl Hi. unfold selected_documents, find_query, query_accepted.
  change (q_location (build_query o)) with (truthy (opt_location o)).
  change (q_industry_name (build_query o)) with (truthy (opt_industry o)).
  rewrite (substring_search_accepted Hl), (substring_search_accepted Hi). simpl.
  f_equal. f_equal. apply filter_same_on. intros d Hd.
  unfold query_matches, spec_matches.
  change (q_location (build_query o)) with (truthy (opt_location o)).
  change (q_industry_name (build_query o)) with (truthy (opt_industry o)).
  rewrite status_matches_spec.
  rewrite (substring_search_matches d Hl Hd), (substring_search_matches d Hi Hd).
  reflexivity.
Qed.

Lemma Forall_apply_limit {A} (P : A -> Prop) (limit : option Z) (l : list A) :
  Forall P l -> Forall P (apply_limit limit l).
Proof.
  intros H. unfold apply_limit. destruct limit as [n|]; [|exact H].
  destruct (negb (n =? 0)%Z && (n >? 0)%Z && (n <? Z.of_nat (length l))%Z);
    [|exact H].
  apply Forall_forall. intros x Hx. eapply Forall_forall; [exact H|].
  rewrite <- (firstn_skipn (Z.to_nat n) l). apply in_or_app. left. exact Hx.
Qed.

Lemma Forall_filter_query (env : environment) (q : query) (c : collection) :
  Forall (fun d => query_matches env q d = true) (filter (query_matches env q) c).
Proof. apply Forall_forall. intros d Hd. apply filter_In in Hd. apply Hd. Qed.

Lemma apply_limit_map {A B} (f : A -> B) (limit : option Z) (l : list A) :
  apply_limit limit (map f l) = map f (apply_limit limit l).
Proof.
  unfold apply_limit. destruct limit as [n|]; [|reflexivity].
  rewrite length_map.
  destruct (negb (n =? 0)%Z && (n >? 0)%Z && (n <? Z.of_nat (length l))%Z);
    [|reflexivity].
  apply firstn_map.
Qed.

Lemma apply_limit_truncates {A} (n : Z) (l : list A) :
  (0 < n < Z.of_nat (length l))%Z ->
  apply_limit (Some n) l = firstn (Z.to_nat n) l /\
  length (apply_limit (Some n) l) = Z.to_nat n.
Proof.
  intros [H0 H1]. unfold apply_limit.
  assert (E0 : (n =? 0)%Z = false) by (apply Z.eqb_neq; lia).
  assert (E1 : (n >? 0)%Z = true) by (apply Z.gtb_lt; lia).
  assert (E2 : (n <? Z.of_nat (length l))%Z = true) by (apply Z.ltb_lt; lia).
  rewrite E0, E1, E2. simpl. split; [reflexivity|].
  apply firstn_length_le. lia.
Qed.




(* ===================================================================== *)
(** * 18. Reasoning about the monad                                      *)
(* ===================================================================== *)

Section Behaviour.

Variable R : state -> state -> Prop.
Hypothesis R_refl : forall st, R st st.
Hypothesis R_trans : forall a b c, R a b -> R b c -> R a c.

Lemma behaves_ret {A} (Q : A -> Prop) (E : exn -> Prop) (a : A) :
  Q a -> behaves R Q E (ret a).
Proof. intros H st. simpl. auto. Qed.

Lemma behaves_raise {A} (Q : A -> Prop) (E : exn -> Prop) (e : exn) :
  E e -> behaves R Q E (@raise A e).
Proof. intros H st. simpl. auto. Qed.

Lemma behaves_out_of_fuel {A} (Q : A -> Prop) (E : exn -> Prop) :
  behaves R Q E (@out_of_fuel A).
Proof. intros st. simpl. auto. Qed.

Lemma behaves_get_state (Q : state -> Prop) (E : exn -> Prop) :
  (forall st, Q st) -> behaves R Q E get_state.
Proof. intros H st. simpl. auto. Qed.

Lemma behaves_modify (Q : unit -> Prop) (E : exn -> Prop) (f : state -> state) :
  (forall st, R st (f st)) -> Q tt -> behaves R Q E (modify f).
Proof. intros H HQ st. simpl. auto. Qed.

Lemma behaves_bind {A B} (Q1 : A -> Prop) (Q : B -> Prop) (E : exn -> Prop)
      (m : py A) (k : A -> py B) :
  behaves R Q1 E m ->
  (forall a, Q1 a -> behaves R Q E (k a)) ->
  behaves R Q E (bind m k).
Proof.
  intros Hm Hk st. unfold bind. specialize (Hm st).
  destruct (m st) as [[a|e|] st1]; simpl in *; destruct Hm as [HR HQ].
  - specialize (Hk a HQ st1). destruct Hk as [HR2 HQ2].
    split; [eapply R_trans; eassumption | exact HQ2].
  - auto.
  - auto.
Qed.

Lemma behaves_try_except {A} (Q : A -> Prop) (E1 E : exn -> Prop)
      (m : py A) (classes : exn -> bool) (h : exn -> py A) :
  behaves R Q E1 m ->
  (forall e, E1 e -> classes e = true -> behaves R Q E (h e)) ->
  (forall e, E1 e -> classes e = false -> E e) ->
  behaves R Q E (try_except m classes h).
Proof.
  intros Hm Hh Hpass st. unfold try_except. specialize (Hm st).
  destruct (m st) as [[a|e|] st1]; simpl in *; destruct Hm as [HR HQ].
  - auto.
  - destruct (classes e) eqn:Ec.
    + specialize (Hh e HQ Ec st1). destruct Hh as [HR2 HQ2].
      split; [eapply R_trans; eassumption | exact HQ2].
    + simpl. auto.
  - auto.
Qed.

Lemma behaves_weaken {A} (Q Q' : A -> Prop) (E E' : exn -> Prop) (m : py A) :
  behaves R Q E m ->
  (forall a, Q a -> Q' a) -> (forall e, E e -> E' e) ->
  behaves R Q' E' m.
Proof.
  intros Hm HQ HE st. specialize (Hm st). destruct Hm as [HR H].
  split; [exact HR|]. destruct (fst (m st)); auto.
Qed.

Lemma behaves_when (E : exn -> Prop) (b : bool) (m : py unit) :
  behaves R anything E m -> behaves R anything E (when b m).
Proof.
  intros H. unfold when. destruct b; [exact H|].
  apply behaves_ret. exact I.
Qed.

Lemma behaves_for_each {A} (E : exn -> Prop) (xs : list A) (body : A -> py unit) :
  (forall x, behaves R anything E (body x)) ->
  behaves R anything E (for_each xs body).
Proof.
  intros H. induction xs as [|x xs IH]; simpl.
  - apply behaves_ret. exact I.
  - eapply behaves_bind; [apply H|]. intros _ _. exact IH.
Qed.

Lemma behaves_for_each_detail (E : exn -> Prop) (batch_details : details_value)
      (body : org_detail -> py unit) :
  E TypeError ->
  (forall x, behaves R anything E (body x)) ->
  behaves R anything E (for_each_detail batch_details body).
Proof.
  intros HE H. destruct batch_details as [[details|]|[|[|]]]; simpl.
  - apply behaves_for_each. exact H.
  - apply behaves_ret. exact I.
  - apply behaves_raise. exact HE.
  - apply behaves_raise. exact HE.
  - apply behaves_ret. exact I.
Qed.

End Behaviour.

Arguments behaves_ret [R] R_refl {A} [Q E a] _.
Arguments behaves_raise [R] R_refl {A} [Q E e] _.
Arguments behaves_out_of_fuel [R] R_refl {A} [Q E].
Arguments behaves_get_state [R] R_refl [Q E] _.
Arguments behaves_modify [R Q E f] _ _.

Lemma same_combinations_refl (st : state) : same_combinations st st.
Proof. reflexivity. Qed.

Lemma same_combinations_trans (a b c : state) :
  same_combinations a b -> same_combinations b c -> same_combinations a c.
Proof. unfold same_combinations. congruence. Qed.

Create HintDb py.
#[local] Hint Resolve same_combinations_refl same_combinations_trans : py.

(** A computation that leaves the combinations alone and raises, if at
    all, an exception that [except Exception] catches. *)
Abbreviation quiet Q m := (behaves same_combinations Q caught_by_Exception m).

Ltac quiet_bind :=
  eapply (behaves_bind same_combinations_trans).

Ltac quiet_ret :=
  apply (behaves_ret same_combinations_refl); try exact I.

(* ===================================================================== *)
(** * 19. The search collaborator                                        *)
(* ===================================================================== *)

Section Search.

Variable env : environment.

Lemma quiet_timezone_now : quiet anything (timezone_now env).
Proof. intros st. split; [reflexivity | exact I]. Qed.

Lemma quiet_log (e : event) : quiet anything (modify (log_event e)).
Proof. intros st. split; [reflexivity | exact I]. Qed.

Lemma quiet_load_json_file (path : string) :
  quiet anything (load_json_file env path).
Proof.
  intros st. unfold load_json_file.
  destruct (filesystem env path); simpl; split; reflexivity || exact I.
Qed.

Lemma quiet_post_search (loc ind_id : string) (page : Z) :
  quiet anything (post_search env loc ind_id page).
Proof.
  intros st. unfold post_search.
  destruct (search_responses env (search_calls st)); simpl;
    split; reflexivity || exact I.
Qed.

Lemma quiet_post_details (ids : list string) :
  quiet anything (post_details env ids).
Proof.
  intros st. unfold post_details.
  destruct (details_responses env (details_calls st)); simpl;
    split; reflexivity || exact I.
Qed.

(** [sys] is not bound in the module: line 61 raises [NameError]. *)
Lemma sys_exit_raises_NameError {A} (code : Z) :
  @sys_exit A code = raise (NameError "sys").
Proof. reflexivity. Qed.

Lemma quiet_fetch_organization_details (ids : list string) :
  quiet anything (fetch_organization_details env ids).
Proof.
  unfold fetch_organization_details. destruct ids as [|i ids].
  - quiet_ret.
  - eapply (behaves_try_except same_combinations_trans)
      with (E1 := caught_by_Exception).
    + quiet_bind; [apply quiet_post_details|]. intros resp _.
      destruct (status_code resp =? 200)%Z; [|quiet_ret].
      destruct (body resp).
      * apply (behaves_raise same_combinations_refl). reflexivity.
      * quiet_ret.
      * quiet_ret.
    + intros e _ _. rewrite sys_exit_raises_NameError.
      apply (behaves_raise same_combinations_refl). reflexivity.
    + intros e He Hc. unfold caught_by_Exception in He. congruence.
Qed.

Lemma quiet_extract_organization_data (org : option search_hit) (d : org_detail) :
  quiet anything (extract_organization_data env org d).
Proof.
  unfold extract_organization_data.
  quiet_bind; [apply quiet_timezone_now|]. intros t _. quiet_ret.
Qed.

Lemma quiet_save_industry (name : string) : quiet anything (save_industry env name).
Proof.
  unfold save_industry.
  quiet_bind; [apply (behaves_get_state same_combinations_refl) with (Q := anything);
               intros; exact I|].
  intros st _. destruct (existsb (has_name name) (db_industry st)); [quiet_ret|].
  quiet_bind; [apply quiet_timezone_now|]. intros t1 _.
  quiet_bind; [apply quiet_timezone_now|]. intros t2 _.
  apply behaves_modify; [|exact I]. intros st'. reflexivity.
Qed.

Lemma quiet_save_keyword (name : string) : quiet anything (save_keyword env name).
Proof.
  unfold save_keyword.
  quiet_bind; [apply (behaves_get_state same_combinations_refl) with (Q := anything);
               intros; exact I|].
  intros st _. destruct (existsb (has_name name) (db_keyword st)); [quiet_ret|].
  quiet_bind; [apply quiet_timezone_now|]. intros t1 _.
  quiet_bind; [apply quiet_timezone_now|]. intros t2 _.
  apply behaves_modify; [|exact I]. intros st'. reflexivity.
Qed.

Lemma quiet_save_to_mongodb (data : organization_data) :
  quiet anything (save_to_mongodb env data).
Proof.
  unfold save_to_mongodb.
  quiet_bind; [apply (behaves_for_each same_combinations_refl same_combinations_trans);
               apply quiet_save_industry|]. intros _ _.
  quiet_bind; [apply (behaves_for_each same_combinations_refl same_combinations_trans);
               apply quiet_save_keyword|]. intros _ _.
  quiet_bind; [apply (behaves_get_state same_combinations_refl) with (Q := anything);
               intros; exact I|].
  intros st _.
  destruct (find (has_apollo_id (org_apollo_id data)) (db_organization st)).
  - quiet_bind; [apply quiet_timezone_now|]. intros t _.
    quiet_bind; [apply behaves_modify with (Q := anything);
                 [intros st'; reflexivity | exact I]|].
    intros _ _. quiet_ret.
  - quiet_bind; [apply behaves_modify with (Q := anything);
                 [intros st'; reflexivity | exact I]|].
    intros _ _. quiet_ret.
Qed.

Lemma quiet_save_detail (organizations : list search_hit) (d : org_detail) :
  quiet anything (save_detail env organizations d).
Proof.
  unfold save_detail.
  quiet_bind; [apply quiet_extract_organization_data|]. intros data _.
  quiet_bind; [apply quiet_save_to_mongodb|]. intros _ _. quiet_ret.
Qed.

Lemma quiet_process_page (resp : response search_results) (page : Z)
      (ids : list string) (total : Z) :
  quiet (count_grows total) (process_page env resp page ids total).
Proof.
  unfold process_page.
  eapply (behaves_try_except same_combinations_trans)
    with (E1 := caught_by_Exception).
  - quiet_bind.
    { instantiate (1 := anything). destruct (body resp).
      - apply (behaves_raise same_combinations_refl). reflexivity.
      - apply (behaves_raise same_combinations_refl). reflexivity.
      - quiet_ret. }
    intros results _.
    destruct (collect_ids (sr_organizations results) [] ids) as [current all_ids].
    quiet_bind.
    { instantiate (1 := anything).
      destruct (Z.of_nat (length (sr_organizations results)) <? per_page)%Z;
        [quiet_ret|].
      destruct (sr_has_next_page results) as [[|]|].
      - quiet_bind; [apply quiet_log|]. intros _ _. quiet_ret.
      - quiet_ret.
      - quiet_bind; [apply quiet_log|]. intros _ _. quiet_ret. }
    intros [more next_page] _.
    quiet_bind.
    { instantiate (1 := anything). destruct current as [|c current]; [quiet_ret|].
      quiet_bind; [apply quiet_fetch_organization_details|].
      intros batch_details _.
      apply (behaves_for_each_detail same_combinations_refl same_combinations_trans);
        [reflexivity | apply quiet_save_detail]. }
    intros _ _. quiet_ret. simpl. lia.
  - intros e _ _. quiet_ret. simpl. lia.
  - intros e He _. exact He.
Qed.

Lemma quiet_paginate (fuel : nat) (loc ind_id : string) :
  forall (page : Z) (ids : list string) (total : Z),
    quiet (fun n => (total <= n)%Z) (paginate env fuel loc ind_id page ids total).
Proof.
  induction fuel as [|fuel IH]; intros page ids total; simpl.
  - apply (behaves_out_of_fuel same_combinations_refl).
  - quiet_bind; [apply quiet_post_search|]. intros resp _.
    quiet_bind; [apply quiet_process_page|].
    intros [[[more page'] ids'] total'] Hgrow. simpl in Hgrow.
    destruct (if (status_code resp =? 200)%Z then more else false).
    + eapply behaves_weaken; [apply IH | | auto].
      intros n Hn. simpl in Hn. lia.
    + quiet_ret. exact Hgrow.
Qed.

End Search.

Section Harvest.

Variable env : environment.

Lemma update_combination_status_run (loc ind : string) (s : status)
      (rc : option Z) (st : state) :
  update_combination_status env loc ind s rc st =
  (Returned tt,
   log_event (DbUpdateOne (loc, ind) s rc)
     (with_combinations
        (marked (loc, ind) s (clock env (clock_reads st)) rc (db_combinations st))
        (tick_clock st))).
Proof. reflexivity. Qed.

Lemma update_combination_status_after (loc ind : string) (s : status)
      (rc : option Z) (st : state) :
  db_combinations (snd (update_combination_status env loc ind s rc st)) =
  marked (loc, ind) s (clock env (clock_reads st)) rc (db_combinations st).
Proof. reflexivity. Qed.

Lemma quiet_search_body fuel loc ind_id cf hf :
  quiet (fun n => (0 <= n)%Z) (search_body env fuel loc ind_id cf hf).
Proof.
  unfold search_body.
  quiet_bind; [apply quiet_load_json_file|]. intros _ _.
  quiet_bind; [apply quiet_load_json_file|]. intros _ _.
  apply quiet_paginate.
Qed.

Lemma search_unfold fuel loc ranges ind_id ind cf hf st :
  search_apollo_and_save_to_mongodb env fuel loc ranges ind_id ind cf hf st =
  let st1 := snd (update_combination_status env loc ind in_progress None st) in
  match search_body env fuel loc ind_id cf hf st1 with
  | (Returned n, st2) =>
      (Returned n, snd (update_combination_status env loc ind completed (Some n) st2))
  | (Raised e, st2) =>
      if is_Exception e
      then (Raised e, snd (update_combination_status env loc ind failed None st2))
      else (Raised e, st2)
  | (OutOfFuel, st2) => (OutOfFuel, st2)
  end.
Proof.
  unfold search_apollo_and_save_to_mongodb, search_body, update_combination_status,
    bind, try_except, modify, timezone_now, ret, raise.
  cbn [fst snd].
  destruct (load_json_file env cf _) as [[[]|e|] st2]; cbn [fst snd].
  - destruct (load_json_file env hf st2) as [[[]|e|] st3]; cbn [fst snd].
    + destruct (paginate env fuel loc ind_id 1 [] 0 st3) as [[n|e|] st4];
        cbn [fst snd].
      * reflexivity.
      * destruct (is_Exception e); reflexivity.
      * reflexivity.
    + destruct (is_Exception e); reflexivity.
    + reflexivity.
  - destruct (is_Exception e); reflexivity.
  - reflexivity.
Qed.

(** What one search writes to the collection: the combination is marked
    in progress; then completed with the count on return, failed without
    a count on an exception. *)
Lemma search_effect fuel loc ranges ind_id ind cf hf st :
  exists t0 t1,
    let c1 := marked (loc, ind) in_progress t0 None (db_combinations st) in
    let r := search_apollo_and_save_to_mongodb env fuel loc ranges ind_id ind cf hf st in
    match fst r with
    | Returned n =>
        (0 <= n)%Z /\
        db_combinations (snd r) = marked (loc, ind) completed t1 (Some n) c1
    | Raised e =>
        is_Exception e = true /\
        db_combinations (snd r) = marked (loc, ind) failed t1 None c1
    | OutOfFuel => db_combinations (snd r) = c1
    end.
Proof.
  rewrite search_unfold. cbv zeta.
  set (st1 := snd (update_combination_status env loc ind in_progress None st)).
  assert (H1 : db_combinations st1 =
               marked (loc, ind) in_progress (clock env (clock_reads st)) None
                      (db_combinations st)) by reflexivity.
  exists (clock env (clock_reads st)).
  pose proof (quiet_search_body fuel loc ind_id cf hf st1) as [Hsame Hout].
  destruct (search_body env fuel loc ind_id cf hf st1) as [[n|e|] st2];
    cbn [fst snd] in *; unfold same_combinations in Hsame.
  - exists (clock env (clock_reads st2)). split; [exact Hout|].
    rewrite update_combination_status_after, Hsame, H1. reflexivity.
  - unfold caught_by_Exception in Hout. rewrite Hout.
    exists (clock env (clock_reads st2)). cbn [fst snd]. split; [exact Hout|].
    rewrite update_combination_status_after, Hsame, H1. reflexivity.
  - exists 0%Z. rewrite Hsame, H1. reflexivity.
Qed.

End Harvest.

(* ===================================================================== *)
(** * 20. Status updates on the collection                               *)
(* ===================================================================== *)

Lemma matches_key_set_update_data (k : key) s now rc (d : combination) :
  matches_key k (set_update_data s now rc d) = matches_key k d.
Proof. reflexivity. Qed.

Lemma find_one_marked_same (k : key) s now rc (c : collection) :
  find_one k (marked k s now rc c) =
  option_map (set_update_data s now rc) (find_one k c).
Proof.
  unfold find_one, marked. induction c as [|d c IH]; [reflexivity|].
  cbn [update_one find].
  destruct (matches_key k d) eqn:E; cbn [find].
  - rewrite matches_key_set_update_data, E. reflexivity.
  - rewrite E. exact IH.
Qed.

Lemma find_one_marked_other (k k' : key) s now rc (c : collection) :
  k' <> k -> find_one k' (marked k s now rc c) = find_one k' c.
Proof.
  intros Hne. unfold find_one, marked.
  induction c as [|d c IH]; [reflexivity|].
  cbn [update_one find].
  destruct (matches_key k d) eqn:E; cbn [find].
  - rewrite matches_key_set_update_data.
    apply matches_key_true in E.
    assert (E1 : matches_key k' d = false)
      by (apply matches_key_false; congruence).
    rewrite E1. reflexivity.
  - destruct (matches_key k' d); [reflexivity | exact IH].
Qed.

Lemma keys_marked (k : key) s now rc (c : collection) :
  map key_of (marked k s now rc c) = map key_of c.
Proof.
  unfold marked. induction c as [|d c IH]; simpl; [reflexivity|].
  destruct (matches_key k d); simpl; [reflexivity|]. rewrite IH. reflexivity.
Qed.

(** The combination a search is called for, after the search. *)
Lemma search_marks_combination (env : environment) (fuel : nat)
        (loc ranges ind_id ind cookies_file headers_file : string)
        (st : state) (d : combination) :
  find_one (loc, ind) (db_combinations st) = Some d ->
  let r := search_apollo_and_save_to_mongodb
             env fuel loc ranges ind_id ind cookies_file headers_file st in
  match fst r with
  | Returned n =>
      (0 <= n)%Z /\
      exists d', find_one (loc, ind) (db_combinations (snd r)) = Some d' /\
                 comb_status d' = completed /\ results_count d' = Some n
  | Raised e =>
      exists d', find_one (loc, ind) (db_combinations (snd r)) = Some d' /\
                 comb_status d' = failed /\ results_count d' = results_count d
  | OutOfFuel => True
  end.
Proof.
  intros Hd r.
  destruct (search_effect env fuel loc ranges ind_id ind cookies_file headers_file st)
    as [t0 [t1 H]].
  cbv zeta in H. fold r in H.
  destruct (fst r) as [n|e|].
  - destruct H as [Hn Hc]. split; [exact Hn|].
    rewrite Hc, !find_one_marked_same, Hd. simpl.
    eexists. split; [reflexivity|]. split; reflexivity.
  - destruct H as [_ Hc].
    rewrite Hc, !find_one_marked_same, Hd. simpl.
    eexists. split; [reflexivity|]. split; reflexivity.
  - exact I.
Qed.

(** C3.  For a combination that is in the collection: when the search
    returns a count, the count is not negative and the stored combination
    is [completed] with that count as [results_count]; when the search
    raises, the stored combination is [failed] and its [results_count] is
    the one it had before the search (unset if it was unset).  In both
    cases the combinations of every other key are the ones they were. *)
Theorem harvest_postcondition (env : environment) (fuel : nat)
        (loc ranges ind_id ind cookies_file headers_file : string)
        (st : state) (d : combination) :
  find_one (loc, ind) (db_combinations st) = Some d ->
  let r := search_apollo_and_save_to_mongodb
             env fuel loc ranges ind_id ind cookies_file headers_file st in
  match fst r with
  | Returned n =>
      (0 <= n)%Z /\
      (exists d', find_one (loc, ind) (db_combinations (snd r)) = Some d' /\
                  comb_status d' = completed /\ results_count d' = Some n) /\
      (forall k, k <> (loc, ind) ->
                 find_one k (db_combinations (snd r)) = find_one k (db_combinations st))
  | Raised e =>
      (exists d', find_one (loc, ind) (db_combinations (snd r)) = Some d' /\
                  comb_status d' = failed /\ results_count d' = results_count d) /\
      (forall k, k <> (loc, ind) ->
                 find_one k (db_combinations (snd r)) = find_one k (db_combinations st))
  | OutOfFuel => True
  end.
Proof.
  intros Hd r.
  destruct (search_effect env fuel loc ranges ind_id ind cookies_file headers_file st)
    as [t0 [t1 H]].
  cbv zeta in H. fold r in H.
  destruct (fst r) as [n|e|].
  - destruct H as [Hn Hc]. split; [exact Hn|]. rewrite Hc. split.
    + rewrite !find_one_marked_same, Hd. simpl.
      eexists. split; [reflexivity|]. split; reflexivity.
    + intros k Hk. rewrite !find_one_marked_other by exact Hk. reflexivity.
  - destruct H as [_ Hc]. rewrite Hc. split.
    + rewrite !find_one_marked_same, Hd. simpl.
      eexists. split; [reflexivity|]. split; reflexivity.
    + intros k Hk. rewrite !find_one_marked_other by exact Hk. reflexivity.
  - exact I.
Qed.

Lemma harvest_postcondition_witness :
  let r := search_apollo_and_save_to_mongodb
             scenario 5 "NYC" "1-10, 10-20, 20-50, 50-100, 100-200" "t1" "Tech"
             "data/cookies.json" "data/headers.json"
             (state_of [nyc_tech pending None]) in
  fst r = Returned 1%Z /\
  exists d', find_one ("NYC", "Tech") (db_combinations (snd r)) = Some d' /\
             comb_status d' = completed /\ results_count d' = Some 1%Z.
Proof.
  cbv zeta.
  pose proof (harvest_postcondition
                scenario 5 "NYC" "1-10, 10-20, 20-50, 50-100, 100-200" "t1" "Tech"
                "data/cookies.json" "data/headers.json"
                (state_of [nyc_tech pending None]) (d := nyc_tech pending None)
                eq_refl) as H.
  vm_compute in H.
  split; [reflexivity|].
  exact (proj1 (proj2 H)).
Defined.

(* ===================================================================== *)
(** * 21. The loop of the harvest                                        *)
(* ===================================================================== *)

Section Driver.

Variable env : environment.
Variable fuel : nat.
Variables cookies_file headers_file : string.
Variable pending_count : Z.

Local Abbreviation process :=
  (process_combinations env fuel cookies_file headers_file pending_count).

(** One turn of the loop. *)
Lemma process_step (combo : projected) (rest : list projected)
      (i completed_in_run : Z) (st : state) :
  process i completed_in_run (combo :: rest) st =
  match search_of env fuel cookies_file headers_file combo
                  (announced pending_count i combo st) with
  | (Returned results, st1) =>
      process (i + 1)%Z (completed_in_run + 1)%Z rest
              (after_success pending_count i combo results st1)
  | (Raised e, st1) =>
      if is_Exception e
      then process (i + 1)%Z completed_in_run rest (after_failure env combo e st1)
      else (Raised e, st1)
  | (OutOfFuel, st1) => (OutOfFuel, st1)
  end.
Proof.
  unfold search_of, announced, after_failure, after_success.
  cbn [process_combinations].
  unfold bind at 1. unfold modify at 1. cbn [fst snd].
  unfold bind at 1. unfold try_except at 1. unfold bind at 1.
  destruct (search_apollo_and_save_to_mongodb _ _ _ _ _ _ _ _ _)
    as [[results|e|] st1]; cbn [fst snd].
  - unfold bind at 1. unfold modify at 1. cbn [fst snd].
    unfold ret at 1. cbn [fst snd].
    unfold bind at 1. unfold when.
    destruct (i + 1 <? pending_count)%Z; reflexivity.
  - destruct (is_Exception e); [|reflexivity].
    unfold bind at 1. unfold modify at 1. cbn [fst snd].
    unfold bind at 1. rewrite update_combination_status_run. cbn [fst snd].
    unfold ret at 1. reflexivity.
  - reflexivity.
Qed.

(** The exceptions of a search are all caught by [except Exception]. *)
Lemma search_of_raises_Exception (combo : projected) (st st1 : state) (e : exn) :
  search_of env fuel cookies_file headers_file combo st = (Raised e, st1) ->
  is_Exception e = true.
Proof.
  intros H. unfold search_of in H.
  destruct (search_effect env fuel (p_location combo) (p_employee_ranges combo)
                          (p_industry_id combo) (p_industry_name combo)
                          cookies_file headers_file st) as [t0 [t1 Heff]].
  cbv zeta in Heff. rewrite H in Heff. cbn [fst snd] in Heff. apply Heff.
Qed.

(** No exception leaves the loop. *)
Lemma process_never_raises (queue : list projected) :
  forall i c st e, fst (process i c queue st) <> Raised e.
Proof.
  induction queue as [|combo rest IH]; intros i c st e.
  - simpl. discriminate.
  - rewrite process_step.
    destruct (search_of env fuel cookies_file headers_file combo
                        (announced pending_count i combo st))
      as [[results|e'|] st1] eqn:E.
    + apply IH.
    + rewrite (search_of_raises_Exception _ _ E). apply IH.
    + simpl. discriminate.
Qed.

(** The loop over a queue in two parts. *)
Lemma process_app (pre post : list projected) :
  forall i c st c1 st1,
    process i c pre st = (Returned c1, st1) ->
    process i c (pre ++ post) st =
    process (i + Z.of_nat (length pre))%Z c1 post st1.
Proof.
  induction pre as [|combo pre IH]; intros i c st c1 st1 H.
  - simpl in H. injection H as <- <-.
    simpl. rewrite Z.add_0_r. reflexivity.
  - rewrite process_step in H. cbn [app]. rewrite process_step.
    destruct (search_of env fuel cookies_file headers_file combo
                        (announced pending_count i combo st))
      as [[results|e'|] st2] eqn:E.
    + rewrite (IH _ _ _ _ _ H). f_equal. cbn [length]. lia.
    + destruct (is_Exception e'); [|discriminate].
      rewrite (IH _ _ _ _ _ H). f_equal. cbn [length]. lia.
    + discriminate.
Qed.

End Driver.

(* ===================================================================== *)
(** * 22. Conditional inserts                                            *)
(* ===================================================================== *)

Lemma present_iff (k : key) (c : collection) :
  present k c <-> In k (map key_of c).
Proof.
  unfold present. rewrite existsb_exists. split.
  - intros [d [Hd Hk]]. apply matches_key_true in Hk. subst k.
    apply in_map. exact Hd.
  - intros H. apply in_map_iff in H. destruct H as [d [Hk Hd]].
    exists d. split; [exact Hd|]. apply matches_key_true. exact Hk.
Qed.

Lemma not_present_iff (k : key) (c : collection) :
  existsb (matches_key k) c = false <-> ~ In k (map key_of c).
Proof.
  rewrite <- present_iff. unfold present.
  destruct (existsb (matches_key k) c); split; intros H;
    try discriminate; try reflexivity; try (intros H'; discriminate).
  exfalso. apply H. reflexivity.
Qed.

Lemma extended_refl (c : collection) : extended c c.
Proof.
  split; [|auto]. exists []. rewrite app_nil_r. split; [reflexivity|constructor].
Qed.

Lemma extended_trans (a b c : collection) :
  extended a b -> extended b c -> extended a c.
Proof.
  intros [[n1 [E1 F1]] U1] [[n2 [E2 F2]] U2]. split; [|auto].
  exists (n1 ++ n2). subst. rewrite app_assoc. split; [reflexivity|].
  apply Forall_app. split; assumption.
Qed.

Lemma extended_present (k : key) (c c' : collection) :
  extended c c' -> present k c -> present k c'.
Proof.
  intros [[new [E _]] _] H. subst c'. apply present_iff.
  rewrite map_app. apply in_or_app. left. apply present_iff. exact H.
Qed.

Lemma apply_upsert_extended (c : collection) (op : upsert_op) :
  fresh_op op -> extended c (fst (apply_upsert c op)).
Proof.
  intros [Hkey Hfresh]. unfold apply_upsert.
  destruct (existsb (matches_key (op_filter op)) c) eqn:E; simpl.
  - apply extended_refl.
  - split.
    + exists [op_set_on_insert op]. split; [reflexivity|].
      constructor; [exact Hfresh|constructor].
    + unfold unique_keys. intros Hu. rewrite map_app. simpl.
      apply NoDup_app; [exact Hu | constructor; [intros []|constructor] |].
      intros k Hk [Hk'|[]]. subst k. rewrite Hkey in Hk.
      apply not_present_iff in E. contradiction.
Qed.

Lemma apply_upsert_present (c : collection) (op : upsert_op) :
  fresh_op op -> present (op_filter op) (fst (apply_upsert c op)).
Proof.
  intros [Hkey _]. unfold apply_upsert.
  destruct (existsb (matches_key (op_filter op)) c) eqn:E; simpl.
  - exact E.
  - apply present_iff. rewrite map_app. apply in_or_app. right.
    simpl. left. exact Hkey.
Qed.

Lemma apply_ops_cons (c : collection) (op : upsert_op) (ops : list upsert_op) :
  fst (apply_ops c (op :: ops)) = fst (apply_ops (fst (apply_upsert c op)) ops).
Proof.
  simpl. destruct (apply_upsert c op) as [c1 ins]. simpl.
  destruct (apply_ops c1 ops). reflexivity.
Qed.

Lemma apply_ops_extended (ops : list upsert_op) :
  forall c, Forall fresh_op ops -> extended c (fst (apply_ops c ops)).
Proof.
  induction ops as [|op ops IH]; intros c H.
  - simpl. apply extended_refl.
  - rewrite apply_ops_cons. inversion H; subst.
    apply extended_trans with (b := fst (apply_upsert c op));
      [apply apply_upsert_extended; assumption|].
    apply IH. assumption.
Qed.

Lemma apply_ops_present (ops : list upsert_op) :
  forall c k, Forall fresh_op ops -> In k (map op_filter ops) ->
              present k (fst (apply_ops c ops)).
Proof.
  induction ops as [|op ops IH]; intros c k H Hk; [contradiction|].
  rewrite apply_ops_cons. inversion H; subst. destruct Hk as [Hk|Hk].
  - subst k. eapply extended_present; [apply apply_ops_extended; assumption|].
    apply apply_upsert_present. assumption.
  - apply IH; assumption.
Qed.

Lemma select_applied_fresh (mask : list bool) :
  forall ops, Forall fresh_op ops -> Forall fresh_op (select_applied mask ops).
Proof.
  induction mask as [|b mask IH]; intros ops H; [constructor|].
  destruct ops as [|op ops]; [constructor|]. inversion H; subst. simpl.
  destruct b; [constructor; [assumption|]|]; apply IH; assumption.
Qed.

(** With unique keys, a key that is present has exactly one document. *)
Lemma unique_present_one (k : key) (c : collection) :
  unique_keys c -> present k c -> length (documents_of k c) = 1.
Proof.
  unfold unique_keys, present, documents_of.
  induction c as [|d c IH]; simpl; intros Hu Hp; [discriminate|].
  inversion Hu as [|? ? Hnotin Hu']; subst.
  destruct (matches_key k d) eqn:E; simpl.
  - apply matches_key_true in E. subst k.
    assert (Hnone : filter (matches_key (key_of d)) c = []).
    { destruct (filter (matches_key (key_of d)) c) as [|x l] eqn:F; [reflexivity|].
      exfalso. apply Hnotin.
      assert (Hx : In x (filter (matches_key (key_of d)) c))
        by (rewrite F; left; reflexivity).
      apply filter_In in Hx. destruct Hx as [Hx Hm].
      apply matches_key_true in Hm. rewrite <- Hm. apply in_map. exact Hx. }
    rewrite Hnone. reflexivity.
  - apply IH; assumption.
Qed.

(* ===================================================================== *)
(** * 23. The generation, under any environment                          *)
(* ===================================================================== *)

Lemma extends_refl (st : state) : extends_combinations st st.
Proof. apply extended_refl. Qed.

Lemma extends_trans (a b c : state) :
  extends_combinations a b -> extends_combinations b c -> extends_combinations a c.
Proof. apply extended_trans. Qed.

Lemma behaves_relax {A} (R1 R2 : state -> state -> Prop) (Q : A -> Prop)
      (E : exn -> Prop) (m : py A) :
  (forall st st', R1 st st' -> R2 st st') ->
  behaves R1 Q E m -> behaves R2 Q E m.
Proof. intros HR H st. destruct (H st) as [H1 H2]. split; auto. Qed.

Lemma same_extends (st st' : state) :
  same_combinations st st' -> extends_combinations st st'.
Proof.
  unfold same_combinations, extends_combinations. intros ->. apply extended_refl.
Qed.

Ltac extends_bind := eapply (behaves_bind extends_trans).
Ltac extends_ret := apply (behaves_ret extends_refl); try exact I.

Section Generation.

Variable env : environment.

Lemma bulk_write_extends (ops : list upsert_op) :
  Forall fresh_op ops ->
  behaves extends_combinations anything caught_by_Exception (bulk_write env ops).
Proof.
  intros H st. unfold bulk_write, extends_combinations.
  destruct (bulk_results env (bulk_calls st)) as [|mask].
  - pose proof (apply_ops_extended (db_combinations st) H) as Hext.
    destruct (apply_ops (db_combinations st) ops) as [c n]. simpl in *.
    split; [exact Hext | exact I].
  - pose proof (apply_ops_extended (db_combinations st)
                                   (select_applied_fresh mask H)) as Hext.
    destruct (apply_ops (db_combinations st) (select_applied mask ops)) as [c n].
    simpl in *. split; [exact Hext | reflexivity].
Qed.

Lemma flush_batch_extends (batch : list upsert_op) (p n : Z) :
  Forall fresh_op batch ->
  behaves extends_combinations batch_is_fresh nothing (flush_batch env batch p n).
Proof.
  intros H. unfold flush_batch.
  eapply (behaves_try_except extends_trans) with (E1 := caught_by_Exception).
  - extends_bind; [apply bulk_write_extends; exact H|].
    intros m _. extends_ret. simpl. constructor.
  - intros e _ _. extends_ret. simpl. constructor.
  - intros e He Hc. unfold caught_by_Exception in He. congruence.
Qed.

Lemma timezone_now_extends (E : exn -> Prop) :
  behaves extends_combinations anything E (timezone_now env).
Proof. intros st. split; [apply extended_refl | exact I]. Qed.

Lemma generate_loop_extends (tags : list (string * string))
      (items : list (string * string * string)) :
  forall locals,
    batch_is_fresh locals ->
    behaves extends_combinations (fun r => batch_is_fresh (fst r)) nothing
            (generate_loop env tags items locals).
Proof.
  induction items as [|[[loc size] industry] items IH];
    intros [[batch p] n] Hfresh; cbn [generate_loop].
  - extends_ret. exact Hfresh.
  - destruct (dict_get tags industry) as [ind_id|]; [|extends_ret; exact Hfresh].
    extends_bind; [apply timezone_now_extends|]. intros created _.
    extends_bind; [apply timezone_now_extends|]. intros updated _.
    assert (Hfresh' : Forall fresh_op
              (batch ++ [mkUpsert (loc, industry)
                           (mkCombination loc size ind_id industry pending None
                                          created updated)])).
    { apply Forall_app. split; [exact Hfresh|].
      constructor; [|constructor]. repeat split. }
    extends_bind.
    { instantiate (1 := batch_is_fresh).
      match goal with |- context [if ?b then _ else _] => destruct b end.
      - apply flush_batch_extends. exact Hfresh'.
      - extends_ret. exact Hfresh'. }
    intros locals' Hl. apply IH. exact Hl.
Qed.

Lemma flush_final_extends (batch : list upsert_op) (n : Z) :
  Forall fresh_op batch ->
  behaves extends_combinations anything nothing (flush_final env batch n).
Proof.
  intros H. unfold flush_final. destruct batch as [|op batch]; [extends_ret|].
  eapply (behaves_try_except extends_trans) with (E1 := caught_by_Exception).
  - extends_bind; [apply bulk_write_extends; exact H|].
    intros m _. extends_ret.
  - intros e _ _. extends_ret.
  - intros e He Hc. unfold caught_by_Exception in He. congruence.
Qed.

Lemma status_counts_extends (total : Z) (new_added : option Z) (skipped : bool) :
  behaves extends_combinations anything nothing
          (status_counts total new_added skipped).
Proof. intros st. split; [apply extended_refl | exact I]. Qed.

(** Whatever the environment does, a generation whose files are read
    only adds fresh documents at the end of the collection, and it never
    raises. *)
Lemma generate_combinations_extends :
  behaves extends_combinations anything nothing (generate_combinations env).
Proof.
  unfold generate_combinations. cbv zeta.
  extends_bind; [apply (behaves_get_state extends_refl) with (Q := anything);
                 intros; exact I|].
  intros st0 _.
  destruct (count_all (db_combinations st0) =? total_potential env)%Z.
  - apply status_counts_extends.
  - extends_bind.
    { apply generate_loop_extends. simpl. constructor. }
    intros [[[batch p] n] uncaught] Hfresh. simpl in Hfresh.
    extends_bind.
    { instantiate (1 := anything). destruct uncaught; [extends_ret|].
      apply flush_final_extends. exact Hfresh. }
    intros n' _.
    extends_bind; [apply (behaves_get_state extends_refl) with (Q := anything);
                   intros; exact I|].
    intros st1 _. apply status_counts_extends.
Qed.

(** The reads come first: when one raises, nothing else has happened. *)
Lemma generate_combinations_from_files_run (st : state) :
  generate_combinations_from_files env st
  = match data_files_error env with
    | Some e => (Raised e, st)
    | None => generate_combinations env st
    end.
Proof.
  unfold generate_combinations_from_files, read_data_files, bind.
  destruct (data_files_error env); reflexivity.
Qed.

Lemma generate_combinations_from_files_extends :
  behaves extends_combinations anything
          (fun e => data_files_error env = Some e)
          (generate_combinations_from_files env).
Proof.
  intros st. rewrite generate_combinations_from_files_run.
  destruct (data_files_error env) as [e|] eqn:E.
  - split; [apply extends_refl | reflexivity].
  - pose proof (generate_combinations_extends st) as [Hext Hout].
    split; [exact Hext|].
    destruct (fst (generate_combinations env st)); [exact I | destruct Hout | exact I].
Qed.

Lemma generate_times_extends (n : nat) :
  behaves extends_combinations anything nothing (generate_times env n).
Proof.
  induction n as [|n IH]; simpl.
  - extends_ret.
  - extends_bind; [apply generate_combinations_extends|]. intros _ _. exact IH.
Qed.

End Generation.

(* ===================================================================== *)
(** * 24. The generation, when every bulk write succeeds                 *)
(* ===================================================================== *)

Lemma dict_get_keys (tags : list (string * string)) (k : string) :
  In k (map fst tags) -> exists v, dict_get tags k = Some v.
Proof.
  induction tags as [|[k' v'] tags IH]; simpl; intros H; [contradiction|].
  destruct (String.eqb k' k) eqn:E; [eexists; reflexivity|].
  destruct H as [H|H]; [|apply IH; exact H].
  apply String.eqb_neq in E. contradiction.
Qed.

Lemma in_product3 {A B C} (xs : list A) (ys : list B) (zs : list C) x y z :
  In (x, y, z) (product3 xs ys zs) <-> In x xs /\ In y ys /\ In z zs.
Proof.
  unfold product3. rewrite in_flat_map. split.
  - intros [x' [Hx H]]. apply in_flat_map in H. destruct H as [y' [Hy H]].
    apply in_map_iff in H. destruct H as [z' [E Hz]].
    inversion E; subst. auto.
  - intros [Hx [Hy Hz]]. exists x. split; [exact Hx|].
    apply in_flat_map. exists y. split; [exact Hy|].
    apply in_map. exact Hz.
Qed.

Section GenerationSucceeds.

Variable env : environment.
Hypothesis writes_succeed : forall m, bulk_results env m = BulkOk.

Lemma bulk_write_ok (ops : list upsert_op) (st : state) :
  exists st',
    bulk_write env ops st = (Returned (snd (apply_ops (db_combinations st) ops)), st') /\
    db_combinations st' = fst (apply_ops (db_combinations st) ops).
Proof.
  unfold bulk_write. rewrite writes_succeed.
  destruct (apply_ops (db_combinations st) ops) as [c n].
  eexists. split; reflexivity.
Qed.

Lemma flush_batch_ok (batch : list upsert_op) (p n : Z) (st : state) :
  exists n' st',
    flush_batch env batch p n st = (Returned ([], p, n'), st') /\
    db_combinations st' = fst (apply_ops (db_combinations st) batch).
Proof.
  unfold flush_batch, try_except, bind.
  destruct (bulk_write_ok batch st) as [st' [E Hdb]]. rewrite E.
  eexists. eexists. split; [reflexivity | exact Hdb].
Qed.

Lemma flush_final_ok (batch : list upsert_op) (n : Z) (st : state) :
  exists n' st',
    flush_final env batch n st = (Returned n', st') /\
    db_combinations st' = fst (apply_ops (db_combinations st) batch).
Proof.
  unfold flush_final. destruct batch as [|op batch].
  - eexists. eexists. split; reflexivity.
  - unfold try_except, bind.
    destruct (bulk_write_ok (op :: batch) st) as [st' [E Hdb]]. rewrite E.
    eexists. eexists. split; [reflexivity | exact Hdb].
Qed.

Lemma generate_loop_step (tags : list (string * string)) loc size industry ind_id
      (rest : list (string * string * string)) batch p n (st : state) :
  dict_get tags industry = Some ind_id ->
  generate_loop env tags ((loc, size, industry) :: rest) (batch, p, n) st =
  let created := clock env (clock_reads st) in
  let updated := clock env (S (clock_reads st)) in
  let batch1 :=
    batch ++ [mkUpsert (loc, industry)
                (mkCombination loc size ind_id industry pending None created updated)] in
  bind (if (Z.of_nat (length batch1) >=? batch_size)%Z
        then flush_batch env batch1 (p + 1)%Z n
        else ret (batch1, (p + 1)%Z, n))
       (generate_loop env tags rest)
       (tick_clock (tick_clock st)).
Proof. intros H. cbn [generate_loop]. rewrite H. reflexivity. Qed.

Lemma generate_loop_ok (tags : list (string * string))
      (items : list (string * string * string)) :
  forall batch p n st,
    Forall fresh_op batch ->
    (forall item, In item items -> In (snd item) (map fst tags)) ->
    exists batch' p' n' st',
      generate_loop env tags items (batch, p, n) st =
      (Returned ((batch', p', n'), None), st') /\
      Forall fresh_op batch' /\
      (forall k, present k (db_combinations st) \/ In k (map op_filter batch)
                 \/ In k (map pair_of items) ->
                 present k (db_combinations st') \/ In k (map op_filter batch')).
Proof.
  induction items as [|[[loc size] industry] items IH];
    intros batch p n st Hfresh Hkeys.
  - exists batch, p, n, st. split; [reflexivity|]. split; [exact Hfresh|].
    intros k [H|[H|[]]]; auto.
  - destruct (dict_get_keys tags industry) as [ind_id Hget].
    { apply (Hkeys (loc, size, industry)). left. reflexivity. }
    rewrite generate_loop_step with (ind_id := ind_id) by exact Hget. cbv zeta.
    set (op := mkUpsert (loc, industry) _).
    assert (Hfresh1 : Forall fresh_op (batch ++ [op])).
    { apply Forall_app. split; [exact Hfresh|].
      constructor; [|constructor]. repeat split. }
    assert (Hrest : forall item, In item items -> In (snd item) (map fst tags)).
    { intros item Hi. apply Hkeys. right. exact Hi. }
    unfold bind at 1.
    destruct (Z.of_nat (length (batch ++ [op])) >=? batch_size)%Z.
    + destruct (flush_batch_ok (batch ++ [op]) (p + 1)%Z n (tick_clock (tick_clock st)))
        as [n1 [st1 [E Hdb]]].
      rewrite E.
      destruct (IH [] (p + 1)%Z n1 st1 (Forall_nil _) Hrest)
        as [batch' [p' [n' [st' [E' [Hf' Hcov]]]]]].
      exists batch', p', n', st'. split; [exact E'|]. split; [exact Hf'|].
      intros k Hk. apply Hcov.
      assert (Hext : extended (db_combinations st) (db_combinations st1)).
      { rewrite Hdb. apply (apply_ops_extended (db_combinations st) Hfresh1). }
      destruct Hk as [Hk|[Hk|[Hk|Hk]]].
      * left. eapply extended_present; eassumption.
      * left. rewrite Hdb. apply apply_ops_present; [exact Hfresh1|].
        rewrite map_app. apply in_or_app. left. exact Hk.
      * left. rewrite Hdb. apply apply_ops_present; [exact Hfresh1|].
        rewrite map_app. apply in_or_app. right. left. exact Hk.
      * right. right. exact Hk.
    + unfold ret at 1.
      destruct (IH (batch ++ [op]) (p + 1)%Z n (tick_clock (tick_clock st))
                   Hfresh1 Hrest)
        as [batch' [p' [n' [st' [E' [Hf' Hcov]]]]]].
      exists batch', p', n', st'. split; [exact E'|]. split; [exact Hf'|].
      intros k Hk. apply Hcov.
      destruct Hk as [Hk|[Hk|[Hk|Hk]]].
      * left. exact Hk.
      * right. left. rewrite map_app. apply in_or_app. left. exact Hk.
      * right. left. rewrite map_app. apply in_or_app. right. left. exact Hk.
      * right. right. exact Hk.
Qed.

Lemma product_industries_are_keys (item : string * string * string) :
  In item (product3 (all_Cities env) employee_ranges_defined (apollo_industries env)) ->
  In (snd item) (map fst (formatted_industry_tags env)).
Proof.
  destruct item as [[loc size] industry]. intros H.
  apply in_product3 in H. apply H.
Qed.

(** With every bulk write succeeding, a generation returns; skipped, it
    leaves the state as it is; not skipped, it leaves every enumerated
    pair present. *)
Lemma generate_combinations_ok (st : state) :
  exists stats st',
    generate_combinations env st = (Returned stats, st') /\
    (count_all (db_combinations st) = total_potential env -> st' = st) /\
    (count_all (db_combinations st) <> total_potential env ->
     forall k, In k (enumerated_pairs env) -> present k (db_combinations st')).
Proof.
  unfold generate_combinations. cbv zeta. unfold bind at 1, get_state at 1.
  destruct (count_all (db_combinations st) =? total_potential env)%Z eqn:E.
  - eexists. eexists. split; [reflexivity|]. split; [reflexivity|].
    apply Z.eqb_eq in E. intros H. contradiction.
  - destruct (generate_loop_ok (formatted_industry_tags env)
                (product3 (all_Cities env) employee_ranges_defined (apollo_industries env))
                0%Z 0%Z st (Forall_nil _) product_industries_are_keys)
      as [batch [p [n [st1 [E1 [Hfresh Hcov]]]]]].
    unfold bind at 1. rewrite E1.
    destruct (flush_final_ok batch n st1) as [n' [st2 [E2 Hdb]]].
    unfold bind at 1. rewrite E2.
    eexists. eexists. split; [reflexivity|].
    split; [intros H; apply Z.eqb_neq in E; contradiction|].
    intros _ k Hk.
    destruct (Hcov k) as [Hp|Hb].
    { right. right. exact Hk. }
    + rewrite Hdb. eapply extended_present; [|exact Hp].
      apply apply_ops_extended. exact Hfresh.
    + rewrite Hdb. apply apply_ops_present; assumption.
Qed.

Lemma generate_times_ok (n : nat) :
  forall st,
    skip_is_sound env (db_combinations st) ->
    forall k, In k (enumerated_pairs env) ->
              present k (combinations_after (generate_times env (S n)) st).
Proof.
  unfold combinations_after.
  induction n as [|n IH]; intros st Hsound k Hk.
  - cbn [generate_times]. unfold bind.
    destruct (generate_combinations_ok st) as [stats [st' [E [Hskip Hgen]]]].
    rewrite E. simpl.
    destruct (Z.eq_dec (count_all (db_combinations st)) (total_potential env)) as [Heq|Hne].
    + rewrite (Hskip Heq). destruct Hsound as [Hs|Hs]; [contradiction|].
      apply Hs. exact Hk.
    + apply Hgen; assumption.
  - cbn [generate_times]. unfold bind at 1.
    destruct (generate_combinations_ok st) as [stats [st' [E [Hskip Hgen]]]].
    rewrite E. apply IH; [|exact Hk].
    destruct (Z.eq_dec (count_all (db_combinations st)) (total_potential env)) as [Heq|Hne].
    + rewrite (Hskip Heq). exact Hsound.
    + right. apply Hgen. exact Hne.
Qed.

End GenerationSucceeds.

(* ===================================================================== *)
(** * 25. Idempotence of the generation                                  *)
(* ===================================================================== *)

Lemma skipped_on_stray (n : nat) :
  generate_times one_pair n (state_of stray) = (Returned tt, state_of stray).
Proof.
  induction n as [|n IH]; [reflexivity|].
  cbn [generate_times]. unfold bind at 1.
  replace (generate_combinations one_pair (state_of stray))
    with (Returned (mkStats 1 1 0 0 0 None true), state_of stray)
    by reflexivity.
  exact IH.
Qed.

(** C1, as stated, fails: the product of one city and one industry has
    the pair (NYC, Tech); on a collection whose only document is another
    combination the count equals [total_potential], every generation is
    skipped, and after any number of runs no document has that pair. *)
Lemma skipped_generation_leaves_pair_missing :
  In ("NYC", "Tech") (enumerated_pairs one_pair) /\
  unique_keys stray /\
  (forall n,
      documents_of ("NYC", "Tech")
                   (combinations_after (generate_times one_pair n) (state_of stray))
      = []).
Proof.
  split; [left; reflexivity|]. split.
  - unfold unique_keys, stray. simpl. constructor; [intros []|constructor].
  - intros n. unfold combinations_after. rewrite skipped_on_stray. reflexivity.
Qed.

(** C1, amended.  Whatever the environment does (failed batches, skipped
    runs) and however often the generation runs, the collection after it
    is the collection before it with fresh (pending, no count) documents
    added at its end: no existing document is changed, and unique keys
    stay unique.  If the keys are unique, every bulk write succeeds and
    the first run is not skipped on a collection that lacks a pair (its
    count differs from [total_potential], or every pair is present), then
    after one or more runs every enumerated pair has exactly one
    document. *)
Theorem generation_idempotent (env : environment) (n : nat) (st : state) :
  extended (db_combinations st) (combinations_after (generate_times env n) st) /\
  (unique_keys (db_combinations st) ->
   (forall m, bulk_results env m = BulkOk) ->
   skip_is_sound env (db_combinations st) ->
   (1 <= n)%nat ->
   forall k, In k (enumerated_pairs env) ->
             length (documents_of k (combinations_after (generate_times env n) st)) = 1).
Proof.
  pose proof (generate_times_extends env n st) as [Hext _].
  split; [exact Hext|].
  intros Hu Hok Hsound Hn k Hk.
  apply unique_present_one.
  - apply Hext. exact Hu.
  - destruct n as [|n]; [lia|].
    apply generate_times_ok; assumption.
Qed.

Lemma generation_idempotent_witness :
  length (documents_of ("NYC", "Tech")
            (combinations_after (generate_times scenario 2) initial_state)) = 1.
Proof.
  apply (proj2 (generation_idempotent scenario 2 initial_state)).
  - constructor.
  - intros m. reflexivity.
  - left. vm_compute. discriminate.
  - lia.
  - left. reflexivity.
Defined.

(* ===================================================================== *)
(** * 26. The batches of the generation                                  *)
(* ===================================================================== *)

Lemma bulk_writes_app (t1 t2 : list event) :
  bulk_writes (t1 ++ t2) = bulk_writes t1 ++ bulk_writes t2.
Proof.
  induction t1 as [|e t1 IH]; [reflexivity|].
  destruct e; simpl; rewrite IH; reflexivity.
Qed.

Lemma submitted_tick_clock (st : state) : submitted (tick_clock st) = submitted st.
Proof. reflexivity. Qed.

Section Batches.

Variable env : environment.

Lemma bulk_write_submits (ops : list upsert_op) (st : state) :
  submitted (snd (bulk_write env ops st)) = submitted st ++ map op_filter ops.
Proof.
  unfold bulk_write, submitted.
  destruct (bulk_results env (bulk_calls st)) as [|mask];
    destruct (apply_ops _ _) as [c n]; cbn [snd log_event trace];
    rewrite bulk_writes_app, concat_app, map_app; simpl;
    rewrite app_nil_r; reflexivity.
Qed.

(** A flush hands the batch to [bulk_write] once and ends with an empty
    batch, whether the write fails or not. *)
Lemma flush_batch_submits (batch : list upsert_op) (p n : Z) (st : state) :
  exists n' st',
    flush_batch env batch p n st = (Returned ([], p, n'), st') /\
    submitted st' = submitted st ++ map op_filter batch.
Proof.
  pose proof (bulk_write_submits batch st) as Hs.
  unfold flush_batch, try_except, bind.
  destruct (bulk_write env batch st) as [[m|e|] st'] eqn:E; cbn [snd] in Hs.
  - eexists. eexists. split; [reflexivity | exact Hs].
  - assert (He : e = BulkWriteError).
    { unfold bulk_write in E.
      destruct (bulk_results env (bulk_calls st));
        destruct (apply_ops _ _); inversion E; reflexivity. }
    subst e. eexists. eexists. split; [reflexivity | exact Hs].
  - unfold bulk_write in E.
    destruct (bulk_results env (bulk_calls st));
      destruct (apply_ops _ _); discriminate E.
Qed.

Lemma flush_final_submits (batch : list upsert_op) (n : Z) (st : state) :
  exists n' st',
    flush_final env batch n st = (Returned n', st') /\
    submitted st' = submitted st ++ map op_filter batch.
Proof.
  unfold flush_final. destruct batch as [|op batch].
  - eexists. eexists. split; [reflexivity|]. simpl. rewrite app_nil_r. reflexivity.
  - pose proof (bulk_write_submits (op :: batch) st) as Hs.
    unfold try_except, bind.
    destruct (bulk_write env (op :: batch) st) as [[m|e|] st'] eqn:E; cbn [snd] in Hs.
    + eexists. eexists. split; [reflexivity | exact Hs].
    + assert (He : e = BulkWriteError).
      { unfold bulk_write in E.
        destruct (bulk_results env (bulk_calls st));
          destruct (apply_ops _ _); inversion E; reflexivity. }
      subst e. eexists. eexists. split; [reflexivity | exact Hs].
    + unfold bulk_write in E.
      destruct (bulk_results env (bulk_calls st));
        destruct (apply_ops _ _); discriminate E.
Qed.

Lemma generate_loop_submits (tags : list (string * string))
      (items : list (string * string * string)) :
  forall batch p n st,
    (forall item, In item items -> In (snd item) (map fst tags)) ->
    exists batch' p' n' st',
      generate_loop env tags items (batch, p, n) st =
      (Returned ((batch', p', n'), None), st') /\
      submitted st' ++ map op_filter batch' =
      submitted st ++ map op_filter batch ++ map pair_of items.
Proof.
  induction items as [|[[loc size] industry] items IH]; intros batch p n st Hkeys.
  - exists batch, p, n, st. split; [reflexivity|]. simpl.
    rewrite app_nil_r. reflexivity.
  - destruct (dict_get_keys tags industry) as [ind_id Hget].
    { apply (Hkeys (loc, size, industry)). left. reflexivity. }
    rewrite generate_loop_step with (ind_id := ind_id) by exact Hget. cbv zeta.
    set (op := mkUpsert (loc, industry) _).
    assert (Hrest : forall item, In item items -> In (snd item) (map fst tags)).
    { intros item Hi. apply Hkeys. right. exact Hi. }
    unfold bind at 1.
    destruct (Z.of_nat (length (batch ++ [op])) >=? batch_size)%Z.
    + destruct (flush_batch_submits (batch ++ [op]) (p + 1)%Z n
                                    (tick_clock (tick_clock st)))
        as [n1 [st1 [E Hs]]].
      rewrite E.
      destruct (IH [] (p + 1)%Z n1 st1 Hrest) as [batch' [p' [n' [st' [E' Hs']]]]].
      exists batch', p', n', st'. split; [exact E'|].
      rewrite Hs', Hs, !submitted_tick_clock, map_app. simpl.
      rewrite <- !app_assoc. reflexivity.
    + unfold ret at 1.
      destruct (IH (batch ++ [op]) (p + 1)%Z n (tick_clock (tick_clock st)) Hrest)
        as [batch' [p' [n' [st' [E' Hs']]]]].
      exists batch', p', n', st'. split; [exact E'|].
      rewrite Hs', !submitted_tick_clock, map_app. simpl.
      rewrite <- !app_assoc. reflexivity.
Qed.

(** A generation that is not skipped hands the operation of every pair of
    the product to [bulk_write] exactly once, in the order of the product:
    a batch whose write failed is not handed over again, and the batches
    after it are. *)
Lemma generate_combinations_submits (st : state) :
  count_all (db_combinations st) <> total_potential env ->
  exists stats st',
    generate_combinations env st = (Returned stats, st') /\
    submitted st' = submitted st ++ enumerated_pairs env.
Proof.
  intros Hne. unfold generate_combinations. cbv zeta.
  unfold bind at 1, get_state at 1.
  apply Z.eqb_neq in Hne. rewrite Hne.
  destruct (generate_loop_submits (formatted_industry_tags env)
              (product3 (all_Cities env) employee_ranges_defined (apollo_industries env))
              [] 0%Z 0%Z st (product_industries_are_keys env))
    as [batch [p [n [st1 [E1 Hs1]]]]].
  unfold bind at 1. rewrite E1.
  destruct (flush_final_submits batch n st1) as [n' [st2 [E2 Hs2]]].
  unfold bind at 1. rewrite E2.
  eexists. eexists. split; [reflexivity|].
  cbn [snd get_state]. rewrite Hs2, Hs1. reflexivity.
Qed.

End Batches.

(** C8 (the code against the claim).  The [--batch-size] option has no
    effect on a run: [handle] with any other batch size does exactly the
    same.  With [--batch-size 2] and three combinations to generate, the
    run hands one batch of three operations to [bulk_write] (the batch
    size of the generation is the constant 100000), where batches of two
    would be two writes.  What holds whatever the writes do: a generation
    that is not skipped hands every pair of the product to [bulk_write]
    exactly once, in order (no retry of a failed batch, and the later
    batches are still written). *)
Theorem batch_size_option_is_ignored :
  (forall env fuel o b st,
      handle env fuel (with_batch_size b o) st = handle env fuel o st) /\
  map (map op_filter)
      (bulk_writes
         (trace (snd (handle three_cities 5 (with_batch_size 2 default_options)
                             initial_state))))
  = [[("NYC", "Tech"); ("LA", "Tech"); ("SF", "Tech")]] /\
  (forall env st,
      count_all (db_combinations st) <> total_potential env ->
      exists stats st',
        generate_combinations env st = (Returned stats, st') /\
        submitted st' = submitted st ++ enumerated_pairs env).
Proof.
  split; [|split].
  - intros env fuel o b st. reflexivity.
  - vm_compute. reflexivity.
  - intros env st. apply generate_combinations_submits.
Qed.

(* ===================================================================== *)
(** * 27. What a run writes to the collection                            *)
(* ===================================================================== *)

Section RunWrites.

Variable env : environment.
Variable fuel : nat.
Variables cookies_file headers_file : string.
Variable pending_count : Z.

Local Abbreviation process :=
  (process_combinations env fuel cookies_file headers_file pending_count).

Lemma after_success_combinations i combo results st :
  db_combinations (after_success pending_count i combo results st) = db_combinations st.
Proof.
  unfold after_success. cbv zeta. destruct (i + 1 <? pending_count)%Z; reflexivity.
Qed.

Lemma after_failure_combinations combo e st :
  db_combinations (after_failure env combo e st) =
  marked (projected_key combo) failed
         (clock env (clock_reads st)) None (db_combinations st).
Proof. reflexivity. Qed.

Lemma process_harvested (queue : list projected) :
  forall i c st,
    harvested (map projected_key queue) (db_combinations st)
              (db_combinations (snd (process i c queue st))).
Proof.
  induction queue as [|combo rest IH]; intros i c st.
  - simpl. constructor.
  - rewrite process_step. cbn [map].
    destruct (search_effect env fuel (p_location combo) (p_employee_ranges combo)
                (p_industry_id combo) (p_industry_name combo)
                cookies_file headers_file (announced pending_count i combo st))
      as [t0 [t1 Heff]].
    cbv zeta in Heff. fold (search_of env fuel cookies_file headers_file combo) in Heff.
    change (db_combinations (announced pending_count i combo st))
      with (db_combinations st) in Heff.
    fold (projected_key combo) in Heff.
    destruct (search_of env fuel cookies_file headers_file combo
                        (announced pending_count i combo st))
      as [[results|e|] st1]; cbn [fst snd] in Heff.
    + destruct Heff as [_ Hdb].
      eapply harvested_completed.
      rewrite <- Hdb, <- (after_success_combinations i combo results st1).
      apply IH.
    + destruct Heff as [HE Hdb]. rewrite HE.
      eapply harvested_failed.
      rewrite <- Hdb, <- (after_failure_combinations combo e st1).
      apply IH.
    + cbn [snd]. rewrite Heff. apply harvested_unfinished.
Qed.

End RunWrites.

Lemma queue_keys (selected : list combination) :
  map projected_key (map project selected) = map key_of selected.
Proof. rewrite map_map. reflexivity. Qed.

Lemma filtered_of_selected (env : environment) (o : options) (c : collection) :
  filtered_combinations env o c
  = option_map (map project) (selected_documents env o c).
Proof.
  unfold filtered_combinations, selected_documents.
  destruct (find_query env (build_query o) c); [|reflexivity].
  simpl. rewrite apply_limit_map. reflexivity.
Qed.

Section HandleWrites.

Variable env : environment.
Variable fuel : nat.
Variable o : options.

(** The generation step of a run only adds documents; what it raises is
    what a read of the data files raises. *)
Lemma generation_step_extends (st : state) :
  let r := when (negb (opt_skip_generation o))
                (bind (generate_combinations_from_files env) (fun _ => ret tt)) st in
  extended (db_combinations st) (db_combinations (snd r)) /\
  (forall e, fst r = Raised e ->
             opt_skip_generation o = false /\ data_files_error env = Some e).
Proof.
  cbv zeta. unfold when. destruct (opt_skip_generation o); cbn [negb].
  - simpl. split; [apply extended_refl|]. intros e H. discriminate H.
  - unfold bind.
    pose proof (generate_combinations_from_files_extends env st) as [Hext Hout].
    destruct (generate_combinations_from_files env st) as [[stats|e|] st1];
      cbn [fst snd] in *.
    + split; [exact Hext|]. intros e H. discriminate H.
    + split; [exact Hext|]. intros e' H. injection H as <-. auto.
    + split; [exact Hext|]. intros e H. discriminate H.
Qed.

Lemma harvest_step_run (st : state) :
  let r := match filtered_combinations env o (db_combinations st) with
           | None => raise OperationFailure
           | Some queue =>
               let pending_count := Z.of_nat (length queue) in
               if (pending_count =? 0)%Z
               then bind (modify (log_event LogNothingToDo)) (fun _ => ret NothingToDo)
               else bind (process_combinations env fuel (opt_cookies_file o)
                            (opt_headers_file o) pending_count 0%Z 0%Z queue)
                         (fun _ => ret AllProcessed)
           end st in
  harvest_step env o (db_combinations st) (db_combinations (snd r)).
Proof.
  cbv zeta. rewrite filtered_of_selected.
  destruct (selected_documents env o (db_combinations st)) as [selected|] eqn:E;
    cbn [option_map].
  - destruct (Z.of_nat (length (map project selected)) =? 0)%Z.
    + left. reflexivity.
    + right. exists selected. split; [exact E|].
      rewrite <- queue_keys.
      pose proof (process_harvested env fuel (opt_cookies_file o) (opt_headers_file o)
                    (Z.of_nat (length (map project selected)))
                    (map project selected) 0%Z 0%Z st) as H.
      unfold bind.
      destruct (process_combinations _ _ _ _ _ _ _ _ _) as [[c|e|] st1];
        exact H.
  - left. reflexivity.
Qed.

Lemma run_writes_of_run (st : state) :
  run_writes env o (db_combinations st) (db_combinations (snd (run env fuel o st))).
Proof.
  unfold run, run_writes.
  set (gen := when (negb (opt_skip_generation o)) _).
  (* the reset *)
  assert (Hreset : exists st1,
             when (opt_reset_failed o) (reset_failed env) st = (Returned tt, st1) /\
             reset_step o (db_combinations st) (db_combinations st1)).
  { unfold when, reset_step. destruct (opt_reset_failed o).
    - rewrite reset_failed_run. eexists. split; [reflexivity|].
      right. eexists. reflexivity.
    - exists st. split; [reflexivity|]. left. split; reflexivity. }
  destruct Hreset as [st1 [E1 Hr]].
  unfold bind at 1. rewrite E1.
  (* the generation *)
  pose proof (generation_step_extends st1) as [Hext _]. fold gen in Hext.
  unfold bind at 1.
  destruct (gen st1) as [[[]|e|] st2] eqn:E2; cbn [fst snd] in *.
  - exists (db_combinations st1), (db_combinations st2).
    split; [exact Hr|]. split; [exact Hext|].
    unfold bind at 1, get_state at 1.
    apply (harvest_step_run st2).
  - exists (db_combinations st1), (db_combinations st2).
    split; [exact Hr|]. split; [exact Hext|]. left. reflexivity.
  - exists (db_combinations st1), (db_combinations st2).
    split; [exact Hr|]. split; [exact Hext|]. left. reflexivity.
Qed.

(** The collection after [handle] is the one before it, or the result of
    the writes of a run. *)
Lemma handle_writes (st : state) :
  db_combinations (snd (handle env fuel o st)) = db_combinations st \/
  run_writes env o (db_combinations st)
             (db_combinations (snd (handle env fuel o st))).
Proof.
  unfold handle. cbv zeta.
  destruct (negb (os_path_exists env (opt_cookies_file o))); [left; reflexivity|].
  destruct (negb (os_path_exists env (opt_headers_file o))); [left; reflexivity|].
  right. apply run_writes_of_run.
Qed.

End HandleWrites.

Section MainWrites.

Variable env : environment.
Variable fuel : nat.

Lemma main_loop_harvested (pending_count : Z) (queue : list projected) :
  forall processed st,
    harvested (map projected_key queue) (db_combinations st)
              (db_combinations (snd (main_loop env fuel pending_count processed queue st))).
Proof.
  induction queue as [|combo rest IH]; intros processed st.
  - simpl. constructor.
  - cbn [main_loop map]. unfold bind at 1, try_except at 1, bind at 1.
    destruct (search_effect env fuel (p_location combo) (p_employee_ranges combo)
                (p_industry_id combo) (p_industry_name combo)
                "data/cookies.json" "data/headers.json" st)
      as [t0 [t1 Heff]].
    cbv zeta in Heff. fold (projected_key combo) in Heff.
    destruct (search_apollo_and_save_to_mongodb _ _ _ _ _ _ _ _ _)
      as [[results|e|] st1]; cbn [fst snd] in Heff.
    + destruct Heff as [_ Hdb]. unfold ret at 1.
      eapply harvested_completed. rewrite <- Hdb.
      unfold when.
      destruct (processed + 1 <? pending_count)%Z;
        [exact (IH _ (log_event Sleep st1)) | exact (IH _ st1)].
    + destruct Heff as [HE Hdb]. rewrite HE. unfold ret at 1.
      eapply harvested_failed_once. rewrite <- Hdb. apply IH.
    + cbn [snd]. rewrite Heff. apply harvested_unfinished.
Qed.

(** [main] writes what a run of the command without options writes. *)
Lemma main_writes (st : state) :
  run_writes env default_options (db_combinations st)
             (db_combinations (snd (main env fuel st))).
Proof.
  unfold main, run_writes.
  exists (db_combinations st).
  pose proof (generate_combinations_from_files_extends env st) as [Hext _].
  unfold bind at 1.
  destruct (generate_combinations_from_files env st) as [[stats|e|] st1];
    cbn [fst snd] in *.
  - exists (db_combinations st1).
    split; [left; split; reflexivity|]. split; [exact Hext|].
    unfold bind at 1, get_state at 1. cbv zeta.
    destruct (Z.of_nat (length (map project
                (filter (query_matches env pending_query)
                        (db_combinations st1)))) =? 0)%Z.
    + left. reflexivity.
    + right.
      exists (filter (query_matches env pending_query) (db_combinations st1)).
      split; [reflexivity|].
      rewrite <- queue_keys. apply main_loop_harvested.
  - exists (db_combinations st1).
    split; [left; split; reflexivity|]. split; [exact Hext|]. left. reflexivity.
  - exists (db_combinations st1).
    split; [left; split; reflexivity|]. split; [exact Hext|]. left. reflexivity.
Qed.

End MainWrites.

(* ===================================================================== *)
(** * 28. The invariant of [results_count]                               *)
(* ===================================================================== *)

Lemma Forall_update_one (P : combination -> Prop) (k : key)
      (f : combination -> combination) (c : collection) :
  Forall P c ->
  (forall d, find_one k c = Some d -> P (f d)) ->
  Forall P (update_one k f c).
Proof.
  unfold find_one. induction c as [|d c IH]; intros H Hf; [constructor|].
  inversion H; subst. cbn [update_one find] in *.
  destruct (matches_key k d).
  - constructor; [apply Hf; reflexivity | assumption].
  - constructor; [assumption | apply IH; assumption].
Qed.

Lemma unique_keys_marked (k : key) s now rc (c : collection) :
  unique_keys c -> unique_keys (marked k s now rc c).
Proof. unfold unique_keys. rewrite keys_marked. auto. Qed.

(** A status update keeps "completed implies a count": it sets a count
    whenever it sets [completed]. *)
Lemma marked_count_if_completed (k : key) s now rc (c : collection) :
  (s = completed -> rc <> None) ->
  Forall count_if_completed c ->
  Forall count_if_completed (marked k s now rc c).
Proof.
  intros Hs H. apply Forall_update_one; [exact H|].
  intros d _. unfold count_if_completed, has_results_count. simpl.
  intros E. specialize (Hs E). destruct rc; [discriminate | contradiction].
Qed.

Lemma reset_count_if_completed (now : timestamp) (c : collection) :
  Forall count_if_completed c ->
  Forall count_if_completed (reset_failed_store now c).
Proof.
  unfold reset_failed_store, update_many. intros H.
  apply Forall_map. eapply Forall_impl; [|exact H].
  intros d Hd. unfold is_failed.
  destruct (status_eqb (comb_status d) failed); [|exact Hd].
  unfold count_if_completed. simpl. discriminate.
Qed.

Lemma fresh_count_iff_completed (d : combination) :
  fresh_document d -> count_iff_completed d.
Proof.
  intros [Hs Hrc]. unfold count_iff_completed, has_results_count.
  rewrite Hs, Hrc. split; [intros H; contradiction | discriminate].
Qed.

Lemma count_iff_if (d : combination) :
  count_iff_completed d -> count_if_completed d.
Proof. intros H E. apply (proj2 H). exact E. Qed.

Lemma extended_count_if_completed (c c' : collection) :
  extended c c' ->
  Forall count_if_completed c -> Forall count_if_completed c'.
Proof.
  intros [[new [-> Hnew]] _] H. apply Forall_app. split; [exact H|].
  eapply Forall_impl; [|exact Hnew].
  intros d Hd. apply count_iff_if, fresh_count_iff_completed, Hd.
Qed.

Lemma harvested_count_if_completed (ks : list key) (c c' : collection) :
  harvested ks c c' ->
  Forall count_if_completed c -> Forall count_if_completed c'.
Proof.
  induction 1; intros Hc.
  - exact Hc.
  - apply IHharvested.
    apply marked_count_if_completed; [discriminate|].
    apply marked_count_if_completed; [discriminate|]. exact Hc.
  - apply IHharvested.
    apply marked_count_if_completed; [discriminate|].
    apply marked_count_if_completed; [discriminate|].
    apply marked_count_if_completed; [discriminate|]. exact Hc.
  - apply IHharvested.
    apply marked_count_if_completed; [discriminate|].
    apply marked_count_if_completed; [discriminate|]. exact Hc.
  - apply marked_count_if_completed; [discriminate|]. exact Hc.
Qed.

Lemma run_writes_count_if_completed (env : environment) (o : options) (c c' : collection) :
  run_writes env o c c' ->
  Forall count_if_completed c -> Forall count_if_completed c'.
Proof.
  intros [c1 [c2 [Hr [He Hh]]]] H.
  assert (H1 : Forall count_if_completed c1).
  { destruct Hr as [[_ ->]|[now ->]]; [exact H|].
    apply reset_count_if_completed. exact H. }
  assert (H2 : Forall count_if_completed c2)
    by (eapply extended_count_if_completed; eassumption).
  destruct Hh as [->|[selected [_ Hh]]]; [exact H2|].
  eapply harvested_count_if_completed; eassumption.
Qed.

(** Every collection that runs of the command reach keeps "completed
    implies a count". *)
Lemma reachable_count_if_completed (c : collection) :
  reachable any_options c -> Forall count_if_completed c.
Proof.
  induction 1 as [|env fuel o st _ _ IH|env fuel st _ IH]; [constructor| |].
  - destruct (handle_writes env fuel o st) as [E|Hw].
    + rewrite E. exact IH.
    + eapply run_writes_count_if_completed; eassumption.
  - eapply run_writes_count_if_completed; [apply main_writes | exact IH].
Qed.

Lemma no_count_not_counted (d : combination) :
  count_iff_completed d -> comb_status d <> completed -> results_count d = None.
Proof.
  intros H Hs. destruct (results_count d) as [n|] eqn:E; [|reflexivity].
  exfalso. apply Hs. apply H. unfold has_results_count. rewrite E. discriminate.
Qed.

Lemma marked_uncounted (k : key) s now (c : collection) :
  s <> completed ->
  no_count_at k c ->
  Forall count_iff_completed c ->
  Forall count_iff_completed (marked k s now None c).
Proof.
  intros Hs Hk H. apply Forall_update_one; [exact H|].
  intros d Hd. unfold count_iff_completed, has_results_count. simpl.
  rewrite (Hk d Hd). split; [intros F; contradiction | intros F; contradiction].
Qed.

Lemma marked_completed_counted (k : key) now n (c : collection) :
  Forall count_iff_completed c ->
  Forall count_iff_completed (marked k completed now (Some n) c).
Proof.
  intros H. apply Forall_update_one; [exact H|].
  intros d _. unfold count_iff_completed, has_results_count. simpl.
  split; [reflexivity | discriminate].
Qed.

Lemma no_count_at_marked_same (k : key) s now (c : collection) :
  no_count_at k c -> no_count_at k (marked k s now None c).
Proof.
  unfold no_count_at. intros H d Hd.
  rewrite find_one_marked_same in Hd.
  destruct (find_one k c) as [d0|] eqn:E; [|discriminate].
  simpl in Hd. injection Hd as <-. simpl. apply H. reflexivity.
Qed.

Lemma no_count_at_marked_other (k k' : key) s now rc (c : collection) :
  k' <> k -> no_count_at k' c -> no_count_at k' (marked k s now rc c).
Proof.
  unfold no_count_at. intros Hne H d Hd.
  rewrite find_one_marked_other in Hd by exact Hne. apply H. exact Hd.
Qed.

Lemma harvested_keys (ks : list key) (c c' : collection) :
  harvested ks c c' -> map key_of c' = map key_of c.
Proof.
  induction 1.
  - reflexivity.
  - rewrite IHharvested, !keys_marked. reflexivity.
  - rewrite IHharvested, !keys_marked. reflexivity.
  - rewrite IHharvested, !keys_marked. reflexivity.
  - apply keys_marked.
Qed.

(** The harvest of combinations without a count keeps the invariant. *)
Lemma harvested_count_iff_completed (ks : list key) (c c' : collection) :
  harvested ks c c' ->
  NoDup ks ->
  (forall k, In k ks -> no_count_at k c) ->
  Forall count_iff_completed c ->
  Forall count_iff_completed c'.
Proof.
  induction 1 as [c | k ks c c' t0 t1 n _ IH | k ks c c' t0 t1 t2 _ IH
                  | k ks c c' t0 t1 _ IH | k ks c t0];
    intros Hnd Hno Hc.
  - exact Hc.
  - inversion Hnd as [|? ? Hnotin Hnd']; subst.
    apply IH; [exact Hnd' | |].
    + intros k' Hk'.
      assert (Hne : k' <> k) by (intros ->; contradiction).
      apply no_count_at_marked_other; [exact Hne|].
      apply no_count_at_marked_other; [exact Hne|].
      apply Hno. right. exact Hk'.
    + apply marked_completed_counted.
      apply marked_uncounted; [discriminate | apply Hno; left; reflexivity | exact Hc].
  - inversion Hnd as [|? ? Hnotin Hnd']; subst.
    assert (H0 : no_count_at k c) by (apply Hno; left; reflexivity).
    apply IH; [exact Hnd' | |].
    + intros k' Hk'.
      assert (Hne : k' <> k) by (intros ->; contradiction).
      do 3 (apply no_count_at_marked_other; [exact Hne|]).
      apply Hno. right. exact Hk'.
    + apply marked_uncounted; [discriminate | |].
      { do 2 apply no_count_at_marked_same. exact H0. }
      apply marked_uncounted; [discriminate | |].
      { apply no_count_at_marked_same. exact H0. }
      apply marked_uncounted; [discriminate | exact H0 | exact Hc].
  - inversion Hnd as [|? ? Hnotin Hnd']; subst.
    assert (H0 : no_count_at k c) by (apply Hno; left; reflexivity).
    apply IH; [exact Hnd' | |].
    + intros k' Hk'.
      assert (Hne : k' <> k) by (intros ->; contradiction).
      do 2 (apply no_count_at_marked_other; [exact Hne|]).
      apply Hno. right. exact Hk'.
    + apply marked_uncounted; [discriminate | |].
      { apply no_count_at_marked_same. exact H0. }
      apply marked_uncounted; [discriminate | exact H0 | exact Hc].
  - apply marked_uncounted; [discriminate | apply Hno; left; reflexivity | exact Hc].
Qed.

Lemma reset_keys (now : timestamp) (c : collection) :
  map key_of (reset_failed_store now c) = map key_of c.
Proof.
  unfold reset_failed_store, update_many. rewrite map_map.
  apply map_ext. intros d. destruct (is_failed d); reflexivity.
Qed.

Lemma reset_well_counted (now : timestamp) (c : collection) :
  well_counted c -> well_counted (reset_failed_store now c).
Proof.
  intros [Hu Hc]. split.
  - unfold unique_keys. rewrite reset_keys. exact Hu.
  - unfold reset_failed_store, update_many. apply Forall_map.
    eapply Forall_impl; [|exact Hc]. intros d Hd.
    unfold is_failed. destruct (status_eqb (comb_status d) failed) eqn:E; [|exact Hd].
    apply status_eqb_eq in E.
    assert (Hrc : results_count d = None).
    { apply no_count_not_counted; [exact Hd|]. rewrite E. discriminate. }
    unfold count_iff_completed, has_results_count. simpl. rewrite Hrc.
    split; [intros F; contradiction | discriminate].
Qed.

Lemma extended_well_counted (c c' : collection) :
  extended c c' -> well_counted c -> well_counted c'.
Proof.
  intros [[new [E Hnew]] Hu'] [Hu Hc]. split; [apply Hu'; exact Hu|].
  subst c'. apply Forall_app. split; [exact Hc|].
  eapply Forall_impl; [|exact Hnew].
  intros d Hd. apply fresh_count_iff_completed, Hd.
Qed.

Lemma find_one_unique (c : collection) (d : combination) :
  unique_keys c -> In d c -> find_one (key_of d) c = Some d.
Proof.
  unfold unique_keys, find_one.
  induction c as [|x c IH]; intros Hu Hin; [contradiction|].
  simpl in Hu. inversion Hu as [|? ? Hnotin Hu']; subst.
  cbn [find]. destruct (matches_key (key_of d) x) eqn:E.
  - destruct Hin as [->|Hin]; [reflexivity|].
    apply matches_key_true in E. exfalso. apply Hnotin.
    rewrite E. apply in_map. exact Hin.
  - destruct Hin as [->|Hin].
    + unfold matches_key in E. rewrite key_eqb_refl in E. discriminate.
    + apply IH; assumption.
Qed.

(** Selecting documents keeps their keys unique. *)
Lemma unique_keys_filter (p : combination -> bool) (c : collection) :
  unique_keys c -> unique_keys (filter p c).
Proof.
  unfold unique_keys. induction c as [|d c IH]; intros Hu; [constructor|].
  cbn [map] in Hu. inversion Hu as [|? ? Hfresh Hrest]; subst.
  cbn [filter]. destruct (p d); [|exact (IH Hrest)].
  cbn [map]. constructor; [|exact (IH Hrest)].
  intros Hin. apply Hfresh. apply in_map_iff in Hin.
  destruct Hin as [d' [Hkey Hd']]. apply filter_In in Hd'.
  rewrite <- Hkey. apply in_map. exact (proj1 Hd').
Qed.

Lemma unique_keys_apply_limit (limit : option Z) (c : collection) :
  unique_keys c -> unique_keys (apply_limit limit c).
Proof.
  unfold unique_keys, apply_limit. intros Hu.
  destruct limit as [n|]; [|exact Hu].
  destruct (negb (n =? 0)%Z && (n >? 0)%Z && (n <? Z.of_nat (length c))%Z);
    [|exact Hu].
  rewrite <- (firstn_skipn (Z.to_nat n) c), map_app in Hu.
  exact (NoDup_app_remove_r _ _ Hu).
Qed.

Lemma In_apply_limit {A} (limit : option Z) (l : list A) (x : A) :
  In x (apply_limit limit l) -> In x l.
Proof.
  intros H.
  assert (Hall : Forall (fun y => In y l) l) by (apply Forall_forall; auto).
  pose proof (@Forall_apply_limit A (fun y => In y l) limit l Hall) as HF.
  rewrite Forall_forall in HF. apply HF. exact H.
Qed.

(** Without [--status completed], the selected combinations have unique
    keys and none of them has a count. *)
Lemma selected_without_count (env : environment) (o : options) (c : collection)
      (selected : list combination) :
  not_reharvesting o ->
  well_counted c ->
  selected_documents env o c = Some selected ->
  NoDup (map key_of selected) /\
  (forall k, In k (map key_of selected) -> no_count_at k c).
Proof.
  intros Hopt [Hu Hc] Hsel. apply selected_documents_answer in Hsel.
  subst selected. split.
  - apply unique_keys_apply_limit, unique_keys_filter. exact Hu.
  - intros k Hk. apply in_map_iff in Hk. destruct Hk as [d [<- Hd]].
    apply In_apply_limit in Hd. apply filter_In in Hd. destruct Hd as [Hin Hq].
    intros d' Hd'. rewrite (@find_one_unique c d Hu Hin) in Hd'. injection Hd' as <-.
    apply no_count_not_counted.
    + rewrite Forall_forall in Hc. apply Hc. exact Hin.
    + unfold query_matches, build_query in Hq. simpl in Hq.
      apply andb_true_iff in Hq. destruct Hq as [Hq _].
      apply andb_true_iff in Hq. destruct Hq as [Hq _].
      unfold not_reharvesting in Hopt.
      destruct (opt_status o) as [s|]; simpl in Hq.
      * apply status_eqb_eq in Hq. rewrite Hq. intros ->. apply Hopt. reflexivity.
      * destruct (comb_status d); simpl in Hq; discriminate.
Qed.

Lemma run_writes_well_counted (env : environment) (o : options)
      (c c' : collection) :
  not_reharvesting o ->
  run_writes env o c c' ->
  well_counted c -> well_counted c'.
Proof.
  intros Hopt [c1 [c2 [Hr [He Hh]]]] H.
  assert (H1 : well_counted c1).
  { destruct Hr as [[_ ->]|[now ->]]; [exact H|].
    apply reset_well_counted. exact H. }
  assert (H2 : well_counted c2)
    by (eapply extended_well_counted; eassumption).
  destruct Hh as [->|[selected [Hsel Hh]]]; [exact H2|].
  destruct (@selected_without_count env o c2 selected Hopt H2 Hsel) as [Hnd Hno].
  destruct H2 as [Hu2 Hc2]. split.
  - unfold unique_keys. rewrite (harvested_keys Hh). exact Hu2.
  - eapply harvested_count_iff_completed; eassumption.
Qed.

(** Runs that never select completed combinations keep the invariant. *)
Lemma reachable_well_counted (c : collection) :
  reachable not_reharvesting c -> well_counted c.
Proof.
  induction 1 as [|env fuel o st Hopt _ IH|env fuel st _ IH].
  - split; constructor.
  - destruct (handle_writes env fuel o st) as [E|Hw].
    + rewrite E. exact IH.
    + eapply run_writes_well_counted; eassumption.
  - eapply run_writes_well_counted; [|apply main_writes | exact IH].
    unfold not_reharvesting. discriminate.
Qed.

Lemma after_first_run_reachable (allowed : options -> Prop) :
  allowed default_options ->
  reachable allowed (db_combinations after_first_run).
Proof.
  intros H. unfold after_first_run.
  apply reachable_handle; [exact H|]. apply reachable_empty.
Qed.

(** C2, as stated, fails: a first run completes the combination of NYC
    and Tech with a count of 1; a second run with [--status completed]
    selects it again, its search fails, and the collection then holds a
    [failed] combination that has a [results_count]. *)
Lemma failed_combination_with_count :
  reachable any_options (db_combinations after_second_run) /\
  exists d, In d (db_combinations after_second_run) /\
            comb_status d = failed /\
            results_count d = Some 1%Z /\
            ~ (has_results_count d <-> comb_status d = completed).
Proof.
  split.
  - unfold after_second_run. apply reachable_handle; [exact I|].
    apply after_first_run_reachable. exact I.
  - vm_compute. eexists. split; [left; reflexivity|].
    split; [reflexivity|]. split; [reflexivity|].
    intros [H _]. assert (F : failed = completed) by (apply H; discriminate).
    discriminate F.
Qed.

(** C2, amended.  In every collection that runs of the command and of
    the script produce, a completed combination has a [results_count].  The converse holds as
    long as no run selects completed combinations (no run is given
    [--status completed]): then [results_count] is present if and only if
    the status is [completed].  ([results_count] is written on completion
    and never removed, so a completed combination that is harvested again
    keeps it while it is in progress, failed or reset to pending.) *)
Theorem results_count_invariant :
  (forall c d,
      reachable any_options c -> In d c ->
      comb_status d = completed -> has_results_count d) /\
  (forall c d,
      reachable not_reharvesting c -> In d c ->
      (has_results_count d <-> comb_status d = completed)).
Proof.
  split.
  - intros c d Hr Hd. pose proof (reachable_count_if_completed Hr) as H.
    rewrite Forall_forall in H. apply H. exact Hd.
  - intros c d Hr Hd. destruct (reachable_well_counted Hr) as [_ H].
    rewrite Forall_forall in H. apply H. exact Hd.
Qed.

Lemma results_count_invariant_witness :
  Forall (fun d => has_results_count d <-> comb_status d = completed)
         (db_combinations after_first_run).
Proof.
  apply Forall_forall. intros d Hd.
  apply (proj2 results_count_invariant (db_combinations after_first_run) d).
  - apply after_first_run_reachable. unfold not_reharvesting. discriminate.
  - exact Hd.
Defined.

(* ===================================================================== *)
(** * 29. Failures stay with their item                                  *)
(* ===================================================================== *)

Lemma run_raises_before_the_loop (env : environment) (fuel : nat) (o : options)
      (st : state) (e : exn) :
  fst (run env fuel o st) = Raised e -> raised_before_the_loop env o e.
Proof.
  unfold run.
  set (gen := when (negb (opt_skip_generation o)) _).
  assert (Hreset : exists st1,
             when (opt_reset_failed o) (reset_failed env) st = (Returned tt, st1)).
  { unfold when. destruct (opt_reset_failed o).
    - rewrite reset_failed_run. eexists. reflexivity.
    - exists st. reflexivity. }
  destruct Hreset as [st1 E1]. unfold bind at 1. rewrite E1.
  pose proof (generation_step_extends env o st1) as [_ Hgen]. fold gen in Hgen.
  unfold bind at 1.
  destruct (gen st1) as [[[]|e'|] st2] eqn:E2; cbn [fst snd] in *.
  - unfold bind at 1, get_state at 1.
    destruct (filtered_combinations env o (db_combinations st2)) as [queue|] eqn:Eq.
    + cbv zeta. destruct (Z.of_nat (length queue) =? 0)%Z;
        [intros H; discriminate H|].
      unfold bind.
      destruct (process_combinations env fuel (opt_cookies_file o) (opt_headers_file o)
                  (Z.of_nat (length queue)) 0%Z 0%Z queue st2)
        as [[c|e''|] st3] eqn:Ep; cbn [fst]; intros H; try discriminate H.
      exfalso. eapply process_never_raises. rewrite Ep. reflexivity.
    + intros H. injection H as <-. right. split; [reflexivity|].
      apply (selected_documents_rejected env o (db_combinations st2)).
      rewrite filtered_of_selected in Eq.
      destruct (selected_documents env o (db_combinations st2));
        [discriminate Eq | reflexivity].
  - intros H. injection H as <-. left. apply Hgen. reflexivity.
  - intros H. discriminate H.
Qed.

Lemma handle_raises_before_the_loop (env : environment) (fuel : nat)
      (o : options) (st : state) (e : exn) :
  fst (handle env fuel o st) = Raised e -> raised_before_the_loop env o e.
Proof.
  unfold handle. cbv zeta.
  destruct (negb (os_path_exists env (opt_cookies_file o)));
    [intros H; discriminate H|].
  destruct (negb (os_path_exists env (opt_headers_file o)));
    [intros H; discriminate H|].
  apply run_raises_before_the_loop.
Qed.

(** C4.  No exception ever leaves the loop of [handle] over any queue
    (it returns, unless a search never ends), and an exception that
    leaves [handle] was raised before the loop: it is what a read of the
    data files raises in a generation that is not skipped, or the
    [OperationFailure] of a query with a filter whose pattern the server
    rejects.  When the processing of an item raises, whatever the
    exception of the search or of the detail request, the loop reports
    the error, marks the combination [failed] (it is failed in the
    collection when the handler is done, if the combination is in the
    collection) and goes on with the rest of the queue, exactly as it
    would from that state.  The same holds for an item anywhere in the
    queue: once the items before it are done the loop is at that item. *)
Theorem failure_is_isolated (env : environment) (fuel : nat)
        (cookies_file headers_file : string) (pending_count : Z) :
  let process := process_combinations env fuel cookies_file headers_file pending_count in
  (forall o st e, fst (handle env fuel o st) = Raised e ->
                  raised_before_the_loop env o e) /\
  (forall queue i c st e, fst (process i c queue st) <> Raised e) /\
  (forall combo rest i c st e st1,
      search_of env fuel cookies_file headers_file combo
                (announced pending_count i combo st) = (Raised e, st1) ->
      process i c (combo :: rest) st =
      process (i + 1)%Z c rest (after_failure env combo e st1) /\
      In (LogErrorProcessing (projected_key combo) e)
         (trace (after_failure env combo e st1)) /\
      (forall d,
          find_one (projected_key combo) (db_combinations st) = Some d ->
          exists d',
            find_one (projected_key combo)
                     (db_combinations (after_failure env combo e st1)) = Some d' /\
            comb_status d' = failed /\
            results_count d' = results_count d)) /\
  (forall pre post i c st c1 st1,
      process i c pre st = (Returned c1, st1) ->
      process i c (pre ++ post) st =
      process (i + Z.of_nat (length pre))%Z c1 post st1).
Proof.
  cbv zeta. split; [|split; [|split]].
  - intros o. apply handle_raises_before_the_loop.
  - intros queue. apply process_never_raises.
  - intros combo rest i c st e st1 H.
    split; [|split].
    + assert (HE : is_Exception e = true)
        by (eapply search_of_raises_Exception; exact H).
      rewrite process_step, H, HE. reflexivity.
    + unfold after_failure. rewrite update_combination_status_run.
      cbn [snd log_event trace with_combinations tick_clock].
      apply in_or_app. left. apply in_or_app. right. left. reflexivity.
    + intros d Hd.
      pose proof (search_marks_combination env fuel (p_location combo)
                    (p_employee_ranges combo) (p_industry_id combo)
                    (p_industry_name combo) cookies_file headers_file
                    (announced pending_count i combo st) (d := d) Hd) as Hpost.
      cbv zeta in Hpost. unfold search_of in H. rewrite H in Hpost.
      cbn [fst snd] in Hpost. destruct Hpost as [d1 [Hf [Hs Hrc]]].
      unfold after_failure. rewrite update_combination_status_after.
      cbn [db_combinations log_event].
      unfold projected_key in *. rewrite find_one_marked_same, Hf. simpl.
      eexists. split; [reflexivity|]. split; [reflexivity|]. exact Hrc.
  - apply process_app.
Qed.

Lemma failure_is_isolated_witness :
  let first := queued "NYC" "t1" "Tech" in
  let second := queued "LA" "h1" "Health" in
  let st := state_of [pending_combination "NYC" "t1" "Tech";
                      pending_combination "LA" "h1" "Health"] in
  let e := RequestException "connection refused" in
  let st1 := snd (search_of unreachable_vendor 5 "c.json" "h.json" first
                            (announced 2 0 first st)) in
  process_combinations unreachable_vendor 5 "c.json" "h.json" 2 0 0 [first; second] st
  = process_combinations unreachable_vendor 5 "c.json" "h.json" 2 1 0 [second]
                         (after_failure unreachable_vendor first e st1).
Proof.
  cbv zeta.
  apply (proj1 (proj2 (proj2
           (failure_is_isolated unreachable_vendor 5 "c.json" "h.json" 2)))).
  vm_compute. reflexivity.
Defined.


(* ===================================================================== *)
(** * 30. The fuel of the pagination                                     *)
(* ===================================================================== *)

(** The fuel only bounds the number of pages the model follows: a call
    that ends with some fuel ends in the same way with more. *)

Section Fuel.

Variable env : environment.

Lemma paginate_S (fuel : nat) (loc ind_id : string) (page : Z)
      (ids : list string) (total : Z) :
  paginate env (S fuel) loc ind_id page ids total =
  bind (post_search env loc ind_id page)
       (fun resp =>
          bind (process_page env resp page ids total)
               (fun locals =>
                  match locals with
                  | (more, page', ids', total') =>
                      if (if (status_code resp =? 200)%Z then more else false)
                      then paginate env fuel loc ind_id page' ids' total'
                      else ret total'
                  end)).
Proof. reflexivity. Qed.

Lemma paginate_more_fuel (fuel : nat) (loc ind_id : string) :
  forall page ids total st r st',
    paginate env fuel loc ind_id page ids total st = (r, st') ->
    r <> OutOfFuel ->
    paginate env (S fuel) loc ind_id page ids total st = (r, st').
Proof.
  induction fuel as [|fuel IH]; intros page ids total st r st' H Hr.
  - simpl in H. injection H as <- <-. contradiction.
  - rewrite paginate_S in H. rewrite paginate_S. unfold bind in *.
    destruct (post_search env loc ind_id page st) as [[resp|e|] st1]; [|exact H|exact H].
    destruct (process_page env resp page ids total st1)
      as [[[[[more page'] ids'] total']|e|] st2]; [|exact H|exact H].
    destruct (if (status_code resp =? 200)%Z then more else false); [|exact H].
    apply IH; assumption.
Qed.

Lemma search_body_more_fuel (fuel : nat) loc ind_id cf hf st r st' :
  search_body env fuel loc ind_id cf hf st = (r, st') ->
  r <> OutOfFuel ->
  search_body env (S fuel) loc ind_id cf hf st = (r, st').
Proof.
  unfold search_body, bind. intros H Hr.
  destruct (load_json_file env cf st) as [[[]|e|] st1]; [|exact H|exact H].
  destruct (load_json_file env hf st1) as [[[]|e|] st2]; [|exact H|exact H].
  apply paginate_more_fuel; assumption.
Qed.

Lemma search_more_fuel (fuel : nat) loc ranges ind_id ind cf hf st r st' :
  search_apollo_and_save_to_mongodb env fuel loc ranges ind_id ind cf hf st = (r, st') ->
  r <> OutOfFuel ->
  search_apollo_and_save_to_mongodb env (S fuel) loc ranges ind_id ind cf hf st = (r, st').
Proof.
  rewrite !search_unfold. cbv zeta. intros H Hr.
  destruct (search_body env fuel loc ind_id cf hf
              (snd (update_combination_status env loc ind in_progress None st)))
    as [r0 st0] eqn:E.
  assert (Hr0 : r0 <> OutOfFuel).
  { intros ->. injection H as <- _. apply Hr. reflexivity. }
  rewrite search_body_more_fuel with (r := r0) (st' := st0) by assumption.
  exact H.
Qed.

Lemma search_of_more_fuel (fuel : nat) cf hf combo st r st' :
  search_of env fuel cf hf combo st = (r, st') ->
  r <> OutOfFuel ->
  search_of env (S fuel) cf hf combo st = (r, st').
Proof. unfold search_of. apply search_more_fuel. Qed.

Lemma process_more_fuel (fuel : nat) (cf hf : string) (pending_count : Z)
      (queue : list projected) :
  forall i c st r st',
    process_combinations env fuel cf hf pending_count i c queue st = (r, st') ->
    r <> OutOfFuel ->
    process_combinations env (S fuel) cf hf pending_count i c queue st = (r, st').
Proof.
  induction queue as [|combo rest IH]; intros i c st r st' H Hr; [exact H|].
  rewrite process_step in H. rewrite process_step.
  destruct (search_of env fuel cf hf combo (announced pending_count i combo st))
    as [r0 st0] eqn:E.
  assert (Hr0 : r0 <> OutOfFuel).
  { intros ->. injection H as <- _. apply Hr. reflexivity. }
  rewrite search_of_more_fuel with (r := r0) (st' := st0) by assumption.
  destruct r0 as [results|e|].
  - apply IH; assumption.
  - destruct (is_Exception e); [apply IH; assumption | exact H].
  - contradiction.
Qed.

Lemma handle_more_fuel (fuel : nat) (o : options) (st : state) r st' :
  handle env fuel o st = (r, st') ->
  r <> OutOfFuel ->
  handle env (S fuel) o st = (r, st').
Proof.
  unfold handle. cbv zeta.
  destruct (negb (os_path_exists env (opt_cookies_file o))); [auto|].
  destruct (negb (os_path_exists env (opt_headers_file o))); [auto|].
  unfold run.
  set (gen := when (negb (opt_skip_generation o)) _).
  unfold bind at 1 6.
  destruct (when (opt_reset_failed o) (reset_failed env) st) as [[[]|e|] st1];
    [|auto|auto].
  unfold bind at 1 5.
  destruct (gen st1) as [[[]|e|] st2]; [|auto|auto].
  unfold bind at 1 4, get_state.
  destruct (filtered_combinations env o (db_combinations st2)) as [queue|]; [|auto].
  cbv zeta. destruct (Z.of_nat (length queue) =? 0)%Z; [auto|].
  unfold bind. intros H Hr.
  destruct (process_combinations env fuel (opt_cookies_file o) (opt_headers_file o)
              (Z.of_nat (length queue)) 0%Z 0%Z queue st2) as [r0 st0] eqn:E.
  assert (Hr0 : r0 <> OutOfFuel).
  { intros ->. injection H as <- _. apply Hr. reflexivity. }
  rewrite process_more_fuel with (r := r0) (st' := st0) by assumption.
  exact H.
Qed.

End Fuel.

(* ===================================================================== *)
(** * 31. The scenario of the specification                              *)
(* ===================================================================== *)

(** Two locations and two industries give four combinations; the run
    completes the first with its count, marks the second (whose search
    times out) failed, and still processes the other two. *)
Example scenario_run :
  let r := handle scenario 5 default_options initial_state in
  fst r = Returned AllProcessed /\
  map (fun d => (key_of d, comb_status d, results_count d))
      (db_combinations (snd r))
  = [ (("NYC", "Tech"), completed, Some 1%Z);
      (("NYC", "Health"), failed, None);
      (("LA", "Tech"), completed, Some 0%Z);
      (("LA", "Health"), completed, Some 0%Z) ].
Proof. vm_compute. split; reflexivity. Qed.

(** Generating again after that run is skipped, reports a total of four
    and leaves the collection as it is. *)
Example scenario_generation_again :
  let st := snd (handle scenario 5 default_options initial_state) in
  let r := generate_combinations scenario st in
  fst r = Returned (mkStats 4 0 3 1 0 None true) /\
  db_combinations (snd r) = db_combinations st.
Proof. vm_compute. split; reflexivity. Qed.

(* ===================================================================== *)
(** * 32. Status updates: a combination that is not stored               *)
(* ===================================================================== *)

Lemma marked_absent (k : key) s now rc (c : collection) :
  find_one k c = None -> marked k s now rc c = c.
Proof.
  unfold find_one, marked. induction c as [|d c IH]; [reflexivity|].
  cbn [find update_one]. destruct (matches_key k d); [discriminate|].
  intros H. rewrite (IH H). reflexivity.
Qed.

(** X1.  [update_combination_status] does not upsert: for a pair that no
    document of the collection has, it returns and the collection is
    exactly the one it was.  So a search for such a pair, whatever the
    vendor answers and however the search ends, records nothing in the
    collection: no status, no count. *)
Theorem status_of_unknown_combination_is_not_recorded
        (env : environment) (fuel : nat)
        (loc ranges ind_id ind cookies_file headers_file : string)
        (s : status) (rc : option Z) (st : state) :
  find_one (loc, ind) (db_combinations st) = None ->
  fst (update_combination_status env loc ind s rc st) = Returned tt /\
  db_combinations (snd (update_combination_status env loc ind s rc st))
  = db_combinations st /\
  db_combinations
    (snd (search_apollo_and_save_to_mongodb
            env fuel loc ranges ind_id ind cookies_file headers_file st))
  = db_combinations st.
Proof.
  intros Hnone. split; [reflexivity|]. split.
  - rewrite update_combination_status_after. apply marked_absent, Hnone.
  - destruct (search_effect env fuel loc ranges ind_id ind cookies_file headers_file st)
      as [t0 [t1 H]].
    cbv zeta in H.
    assert (H1 : marked (loc, ind) in_progress t0 None (db_combinations st)
                 = db_combinations st) by (apply marked_absent, Hnone).
    rewrite H1 in H.
    destruct (fst (search_apollo_and_save_to_mongodb
                     env fuel loc ranges ind_id ind cookies_file headers_file st))
      as [n|e|].
    + destruct H as [_ ->]. apply marked_absent, Hnone.
    + destruct H as [_ ->]. apply marked_absent, Hnone.
    + exact H.
Qed.

Lemma unknown_combination_witness :
  let r := search_apollo_and_save_to_mongodb
             scenario 5 "Paris" "1-10" "t1" "Tech"
             "data/cookies.json" "data/headers.json"
             (state_of [nyc_tech pending None]) in
  fst r = Returned 1%Z /\ db_combinations (snd r) = [nyc_tech pending None].
Proof.
  cbv zeta. split; [reflexivity|].
  apply (proj2 (proj2 (status_of_unknown_combination_is_not_recorded
                         scenario 5 "Paris" "1-10" "t1" "Tech"
                         "data/cookies.json" "data/headers.json"
                         pending None (state_of [nyc_tech pending None]) eq_refl))).
Defined.

(* ===================================================================== *)
(** * 33. The reset, in numbers                                          *)
(* ===================================================================== *)

Lemma count_status_cons (s : status) (d : combination) (c : collection) :
  count_status s (d :: c) =
  ((if status_eqb (comb_status d) s then 1 else 0) + count_status s c)%Z.
Proof.
  unfold count_status. cbn [filter].
  destruct (status_eqb (comb_status d) s); cbn [length]; lia.
Qed.

Lemma count_status_nonneg (s : status) (c : collection) :
  (0 <= count_status s c)%Z.
Proof. unfold count_status. lia. Qed.

Lemma reset_counts (now : timestamp) (c : collection) :
  count_status failed (reset_failed_store now c) = 0%Z /\
  count_status pending (reset_failed_store now c)
  = (count_status pending c + count_status failed c)%Z /\
  count_status completed (reset_failed_store now c) = count_status completed c /\
  count_status in_progress (reset_failed_store now c) = count_status in_progress c.
Proof.
  induction c as [|d c [IHf [IHp [IHc IHi]]]]; [repeat split|].
  change (reset_failed_store now (d :: c))
    with ((if is_failed d then set_pending now d else d) :: reset_failed_store now c).
  rewrite !count_status_cons, IHf, IHp, IHc, IHi. unfold is_failed.
  destruct (comb_status d) eqn:E;
    cbn [status_eqb comb_status set_pending set_update_data];
    rewrite ?E; cbn [status_eqb]; repeat split; lia.
Qed.

Lemma reset_without_failed (now : timestamp) (c : collection) :
  count_status failed c = 0%Z -> reset_failed_store now c = c.
Proof.
  induction c as [|d c IH]; [reflexivity|].
  rewrite count_status_cons. intros H.
  pose proof (count_status_nonneg failed c) as Hn.
  change (reset_failed_store now (d :: c))
    with ((if is_failed d then set_pending now d else d) :: reset_failed_store now c).
  unfold is_failed. destruct (status_eqb (comb_status d) failed); [lia|].
  rewrite IH by lia. reflexivity.
Qed.

(** X2.  After [--reset-failed] no combination is failed; the pending
    ones are the former pending and failed ones together; the numbers of
    completed and in-progress combinations and the size of the collection
    are unchanged; the number reported ("Reset n failed combinations") is
    the number of combinations that were failed.  A second reset right
    after changes no document at all, not even an [updated_at]. *)
Theorem reset_failed_counts (env : environment) (st : state) :
  let c := db_combinations st in
  let st' := snd (reset_failed env st) in
  let c' := db_combinations st' in
  count_status failed c' = 0%Z /\
  count_status pending c' = (count_status pending c + count_status failed c)%Z /\
  count_status completed c' = count_status completed c /\
  count_status in_progress c' = count_status in_progress c /\
  count_all c' = count_all c /\
  In (LogReset (count_status failed c)) (trace st') /\
  db_combinations (snd (reset_failed env st')) = c'.
Proof.
  cbv zeta. rewrite !reset_failed_run. cbn [snd].
  cbn [db_combinations log_event with_combinations tick_clock trace clock_reads].
  destruct (reset_counts (clock env (clock_reads st)) (db_combinations st))
    as [Hf [Hp [Hc Hi]]].
  repeat split; try assumption.
  - unfold count_all, reset_failed_store, update_many. rewrite length_map. reflexivity.
  - apply in_or_app. right. left. reflexivity.
  - apply reset_without_failed. exact Hf.
Qed.

(* ===================================================================== *)
(** * 34. What a generation returns                                      *)
(* ===================================================================== *)

(** The four statuses partition a collection. *)
Lemma counts_partition (c : collection) :
  count_all c =
  (count_status pending c + count_status completed c
   + count_status failed c + count_status in_progress c)%Z.
Proof.
  induction c as [|d c IH]; [reflexivity|].
  rewrite !count_status_cons.
  replace (count_all (d :: c)) with (1 + count_all c)%Z
    by (unfold count_all; cbn [length]; lia).
  rewrite IH. destruct (comb_status d); cbn [status_eqb]; lia.
Qed.

Lemma generate_combinations_returns (env : environment) (st : state) :
  exists stats st',
    generate_combinations env st = (Returned stats, st') /\
    reports_counts_of stats (db_combinations st') /\
    (stat_skipped_generation stats = true <->
     count_all (db_combinations st) = total_potential env) /\
    (stat_skipped_generation stats = true -> st' = st /\ stat_new_added stats = None).
Proof.
  unfold generate_combinations. cbv zeta.
  unfold bind at 1, get_state at 1.
  destruct (count_all (db_combinations st) =? total_potential env)%Z eqn:E.
  - apply Z.eqb_eq in E.
    eexists. eexists. split; [reflexivity|]. cbn [stat_skipped_generation].
    split; [|split].
    + unfold reports_counts_of. cbn. rewrite E. repeat split.
    + split; auto.
    + intros _. split; reflexivity.
  - apply Z.eqb_neq in E.
    destruct (generate_loop_submits env (formatted_industry_tags env)
                (product3 (all_Cities env) employee_ranges_defined (apollo_industries env))
                [] 0%Z 0%Z st (product_industries_are_keys env))
      as [batch [p [n [st1 [E1 _]]]]].
    unfold bind at 1. rewrite E1.
    destruct (flush_final_submits env batch n st1) as [n' [st2 [E2 _]]].
    unfold bind at 1. rewrite E2.
    eexists. eexists. split; [reflexivity|]. cbn [stat_skipped_generation].
    split; [|split].
    + unfold reports_counts_of. cbn. repeat split.
    + split; [discriminate | intros H; contradiction].
    + discriminate.
Qed.

(** X3.  [generate_combinations()] raises nothing but what a read of its
    two data files raises, and raises it before it writes anything.  Once
    the files are read it returns its dictionary: no failed bulk write
    and no other exception reaches the caller.  The counts it reports are
    those of the collection as the call leaves it: [total] is the number
    of documents and equals pending + completed + failed + in_progress.
    [skipped_generation] is set exactly when the collection held
    [total_potential] documents at the call, and then the state is
    untouched and the dictionary has no [new_added]. *)
Theorem generation_reports_the_collection (env : environment) (st : state) :
  match data_files_error env with
  | Some e => generate_combinations_from_files env st = (Raised e, st)
  | None =>
      exists stats st',
        generate_combinations_from_files env st = (Returned stats, st') /\
        reports_counts_of stats (db_combinations st') /\
        stat_total stats =
        (stat_pending stats + stat_completed stats
         + stat_failed stats + stat_in_progress stats)%Z /\
        (stat_skipped_generation stats = true <->
         count_all (db_combinations st) = total_potential env) /\
        (stat_skipped_generation stats = true ->
         st' = st /\ stat_new_added stats = None)
  end.
Proof.
  pose proof (generate_combinations_from_files_run env st) as Hread.
  destruct (data_files_error env) as [e|]; [exact Hread|].
  rewrite Hread.
  destruct (generate_combinations_returns env st)
    as [stats [st' [E [Hc [Hs Hsk]]]]].
  exists stats, st'. split; [exact E|]. split; [exact Hc|].
  split; [|split; assumption].
  destruct Hc as [Ht [Hp [Hco [Hf Hi]]]].
  rewrite Ht, Hp, Hco, Hf, Hi. apply counts_partition.
Qed.

(** X3, without the file of the cities: the call raises what [open]
    raises and leaves the state as it is. *)
Lemma generation_reports_the_collection_witness :
  generate_combinations_from_files without_cities (state_of stray)
  = (Raised (FileNotFoundError "data/all_Cities.csv"), state_of stray).
Proof.
  exact (generation_reports_the_collection without_cities (state_of stray)).
Defined.

(** The command and the script that run the generation without that
    file raise the same, and [--skip-generation] runs without the
    file. *)
Example generation_without_its_file :
  handle without_cities 5 default_options initial_state
  = (Raised (FileNotFoundError "data/all_Cities.csv"), initial_state) /\
  fst (handle without_cities 5 skip_generation initial_state)
  = Returned NothingToDo /\
  main without_cities 5 initial_state
  = (Raised (FileNotFoundError "data/all_Cities.csv"), initial_state).
Proof. vm_compute. repeat split. Qed.

(* ===================================================================== *)
(** * 35. A generation over a collection that holds every pair           *)
(* ===================================================================== *)

Lemma apply_ops_all_present (c : collection) (ops : list upsert_op) :
  Forall (fun op => present (op_filter op) c) ops -> apply_ops c ops = (c, 0%Z).
Proof.
  induction 1 as [|op ops Hop _ IH]; [reflexivity|].
  cbn [apply_ops]. unfold apply_upsert. unfold present in Hop. rewrite Hop.
  rewrite IH. reflexivity.
Qed.

Lemma select_applied_present (c : collection) (mask : list bool) :
  forall ops,
    Forall (fun op => present (op_filter op) c) ops ->
    Forall (fun op => present (op_filter op) c) (select_applied mask ops).
Proof.
  induction mask as [|b mask IH]; intros ops H; [constructor|].
  destruct H as [|op ops Hop H]; [constructor|].
  cbn [select_applied]. destruct b; [constructor; [exact Hop|]|]; apply IH; exact H.
Qed.

Section EveryPairPresent.

Variable env : environment.

Lemma flush_batch_all_present (batch : list upsert_op) (p n : Z) (st : state) :
  Forall (fun op => present (op_filter op) (db_combinations st)) batch ->
  exists st',
    flush_batch env batch p n st = (Returned ([], p, n), st') /\
    db_combinations st' = db_combinations st.
Proof.
  intros H. unfold flush_batch, try_except, bind, bulk_write.
  destruct (bulk_results env (bulk_calls st)) as [|mask].
  - rewrite (apply_ops_all_present H). unfold ret. rewrite Z.add_0_r.
    eexists. split; reflexivity.
  - rewrite (apply_ops_all_present (select_applied_present mask H)).
    cbn [is_Exception]. eexists. split; reflexivity.
Qed.

Lemma flush_final_all_present (batch : list upsert_op) (n : Z) (st : state) :
  Forall (fun op => present (op_filter op) (db_combinations st)) batch ->
  exists st',
    flush_final env batch n st = (Returned n, st') /\
    db_combinations st' = db_combinations st.
Proof.
  intros H. unfold flush_final. destruct batch as [|op batch].
  - eexists. split; reflexivity.
  - unfold try_except, bind, bulk_write.
    destruct (bulk_results env (bulk_calls st)) as [|mask].
    + rewrite (apply_ops_all_present H). unfold ret. rewrite Z.add_0_r.
      eexists. split; reflexivity.
    + rewrite (apply_ops_all_present (select_applied_present mask H)).
      cbn [is_Exception]. eexists. split; reflexivity.
Qed.

Lemma generate_loop_all_present (tags : list (string * string))
      (items : list (string * string * string)) :
  forall batch p n st,
    Forall (fun op => present (op_filter op) (db_combinations st)) batch ->
    (forall item, In item items -> In (snd item) (map fst tags)) ->
    (forall item, In item items -> present (pair_of item) (db_combinations st)) ->
    exists batch' p' st',
      generate_loop env tags items (batch, p, n) st =
      (Returned ((batch', p', n), None), st') /\
      db_combinations st' = db_combinations st /\
      Forall (fun op => present (op_filter op) (db_combinations st)) batch'.
Proof.
  induction items as [|[[loc size] industry] items IH];
    intros batch p n st Hb Hkeys Hpres.
  - exists batch, p, st. repeat split. exact Hb.
  - destruct (dict_get_keys tags industry) as [ind_id Hget].
    { apply (Hkeys (loc, size, industry)). left. reflexivity. }
    rewrite generate_loop_step with (ind_id := ind_id) by exact Hget. cbv zeta.
    set (op := mkUpsert (loc, industry) _).
    set (st0 := tick_clock (tick_clock st)).
    assert (Hb1 : Forall (fun o => present (op_filter o) (db_combinations st0))
                         (batch ++ [op])).
    { apply Forall_app. split; [exact Hb|]. constructor; [|constructor].
      apply (Hpres (loc, size, industry)). left. reflexivity. }
    assert (Hkeys' : forall item, In item items -> In (snd item) (map fst tags)).
    { intros item Hi. apply Hkeys. right. exact Hi. }
    assert (Hpres' : forall item, In item items ->
                                  present (pair_of item) (db_combinations st0)).
    { intros item Hi. apply Hpres. right. exact Hi. }
    unfold bind at 1.
    destruct (Z.of_nat (length (batch ++ [op])) >=? batch_size)%Z.
    + destruct (@flush_batch_all_present (batch ++ [op]) (p + 1)%Z n st0 Hb1)
        as [st1 [E Hdb]].
      rewrite E.
      destruct (IH [] (p + 1)%Z n st1) as [batch' [p' [st' [E' [Hdb' Hb']]]]].
      * constructor.
      * exact Hkeys'.
      * rewrite Hdb. exact Hpres'.
      * exists batch', p', st'. split; [exact E'|].
        rewrite Hdb', Hdb. split; [reflexivity|].
        rewrite Hdb in Hb'. exact Hb'.
    + unfold ret at 1.
      destruct (IH (batch ++ [op]) (p + 1)%Z n st0 Hb1 Hkeys' Hpres')
        as [batch' [p' [st' [E' [Hdb' Hb']]]]].
      exists batch', p', st'. split; [exact E'|]. split; [exact Hdb'|exact Hb'].
Qed.

End EveryPairPresent.

(** X4.  When the collection already holds every pair of the product,
    [generate_combinations] leaves the collection exactly as it is,
    whatever the bulk writes answer (success or [BulkWriteError]): no
    document is added, changed or reordered.  The dictionary it returns
    reports the size of the collection as [total], and [new_added] is 0
    (or absent, on the skipped path). *)
Theorem generation_over_complete_collection (env : environment) (st : state) :
  (forall k, In k (enumerated_pairs env) -> present k (db_combinations st)) ->
  exists stats st',
    generate_combinations env st = (Returned stats, st') /\
    db_combinations st' = db_combinations st /\
    stat_total stats = count_all (db_combinations st) /\
    (stat_new_added stats = None \/ stat_new_added stats = Some 0%Z).
Proof.
  intros Hall. unfold generate_combinations. cbv zeta.
  unfold bind at 1, get_state at 1.
  destruct (count_all (db_combinations st) =? total_potential env)%Z eqn:E.
  - apply Z.eqb_eq in E. eexists. eexists. split; [reflexivity|].
    cbn. split; [reflexivity|]. split; [symmetry; exact E | left; reflexivity].
  - destruct (@generate_loop_all_present env (formatted_industry_tags env)
                (product3 (all_Cities env) employee_ranges_defined (apollo_industries env))
                [] 0%Z 0%Z st)
      as [batch [p [st1 [E1 [Hdb1 Hb]]]]].
    + constructor.
    + apply product_industries_are_keys.
    + intros item Hi. apply Hall. unfold enumerated_pairs.
      apply (in_map pair_of) in Hi. exact Hi.
    + unfold bind at 1. rewrite E1.
      rewrite <- Hdb1 in Hb.
      destruct (@flush_final_all_present env batch 0%Z st1 Hb) as [st2 [E2 Hdb2]].
      unfold bind at 1. rewrite E2.
      eexists. eexists. split; [reflexivity|]. cbn.
      rewrite Hdb2, Hdb1. split; [reflexivity|]. split; [reflexivity|].
      right. reflexivity.
Qed.

(** X4, on the collection of [one_pair] with its pair already harvested
    and one stray document more: the count differs from
    [total_potential], the loop runs, and nothing changes. *)
Lemma generation_over_complete_collection_witness :
  exists stats st',
    generate_combinations one_pair
      (state_of (nyc_tech completed (Some 3%Z) :: stray)) = (Returned stats, st') /\
    db_combinations st' = nyc_tech completed (Some 3%Z) :: stray /\
    stat_total stats = 2%Z /\
    (stat_new_added stats = None \/ stat_new_added stats = Some 0%Z).
Proof.
  apply (@generation_over_complete_collection one_pair
           (state_of (nyc_tech completed (Some 3%Z) :: stray))).
  intros k [Hk|[]]. subst k. reflexivity.
Defined.

(* ===================================================================== *)
(** * 36. The batches, and the one sequence of conditional inserts       *)
(* ===================================================================== *)

Lemma apply_ops_app (a b : list upsert_op) :
  forall c,
    fst (apply_ops c (a ++ b)) = fst (apply_ops (fst (apply_ops c a)) b) /\
    snd (apply_ops c (a ++ b)) =
    (snd (apply_ops c a) + snd (apply_ops (fst (apply_ops c a)) b))%Z.
Proof.
  induction a as [|op a IH]; intros c.
  - cbn. split; [reflexivity|]. destruct (snd (apply_ops c b)); reflexivity.
  - cbn [app apply_ops]. destruct (apply_upsert c op) as [c1 ins].
    specialize (IH c1).
    destruct (apply_ops c1 (a ++ b)) as [c2 n2].
    destruct (apply_ops c1 a) as [c3 n3]. cbn [fst snd] in *.
    destruct IH as [IH1 IH2]. split; [exact IH1|]. rewrite IH2. lia.
Qed.

Lemma apply_ops_grows (ops : list upsert_op) :
  forall c,
    count_all (fst (apply_ops c ops)) = (count_all c + snd (apply_ops c ops))%Z /\
    (0 <= snd (apply_ops c ops))%Z.
Proof.
  induction ops as [|op ops IH]; intros c.
  - cbn. lia.
  - cbn [apply_ops]. unfold apply_upsert.
    destruct (existsb (matches_key (op_filter op)) c).
    + specialize (IH c). destruct (apply_ops c ops) as [c2 n]. cbn [fst snd] in *. lia.
    + specialize (IH (c ++ [op_set_on_insert op])).
      destruct (apply_ops (c ++ [op_set_on_insert op]) ops) as [c2 n].
      cbn [fst snd] in *. unfold count_all in *. rewrite length_app in IH.
      cbn [length] in IH. lia.
Qed.

Lemma generated_ops_filters (env : environment) (tags : list (string * string))
      (items : list (string * string * string)) :
  (forall item, In item items -> In (snd item) (map fst tags)) ->
  forall reads, map op_filter (generated_ops env tags items reads) = map pair_of items.
Proof.
  induction items as [|[[loc size] industry] items IH]; intros Hkeys reads;
    [reflexivity|].
  destruct (dict_get_keys tags industry) as [ind_id Hget].
  { apply (Hkeys (loc, size, industry)). left. reflexivity. }
  cbn [generated_ops]. rewrite Hget. cbn [map op_filter pair_of]. f_equal.
  apply IH. intros item Hi. apply Hkeys. right. exact Hi.
Qed.

Lemma generated_ops_fresh (env : environment) (tags : list (string * string))
      (items : list (string * string * string)) :
  forall reads, Forall fresh_op (generated_ops env tags items reads).
Proof.
  induction items as [|[[loc size] industry] items IH]; intros reads;
    [constructor|].
  cbn [generated_ops]. destruct (dict_get tags industry); [|constructor].
  constructor; [repeat split | apply IH].
Qed.

Section OneSequence.

Variable env : environment.
Hypothesis writes_succeed : forall m, bulk_results env m = BulkOk.

Lemma flush_batch_exact (batch : list upsert_op) (p n : Z) (st : state) :
  exists st',
    flush_batch env batch p n st =
    (Returned ([], p, (n + snd (apply_ops (db_combinations st) batch))%Z), st') /\
    db_combinations st' = fst (apply_ops (db_combinations st) batch) /\
    clock_reads st' = clock_reads st.
Proof.
  unfold flush_batch, try_except, bind, bulk_write. rewrite writes_succeed.
  destruct (apply_ops (db_combinations st) batch) as [c m].
  eexists. repeat split.
Qed.

Lemma flush_final_exact (batch : list upsert_op) (n : Z) (st : state) :
  exists st',
    flush_final env batch n st =
    (Returned (n + snd (apply_ops (db_combinations st) batch))%Z, st') /\
    db_combinations st' = fst (apply_ops (db_combinations st) batch).
Proof.
  unfold flush_final. destruct batch as [|op batch].
  - cbn [apply_ops snd fst]. rewrite Z.add_0_r. eexists. split; reflexivity.
  - unfold try_except, bind, bulk_write. rewrite writes_succeed.
    destruct (apply_ops (db_combinations st) (op :: batch)) as [c m].
    eexists. repeat split.
Qed.

(** The invariant of the loop: the batches written so far, then the batch
    in hand, amount to the inserts of the items seen, applied in order. *)
Lemma generate_loop_exact (tags : list (string * string))
      (items : list (string * string * string)) :
  forall batch p n st,
    (forall item, In item items -> In (snd item) (map fst tags)) ->
    exists batch' p' n' st',
      generate_loop env tags items (batch, p, n) st =
      (Returned ((batch', p', n'), None), st') /\
      fst (apply_ops (db_combinations st') batch') =
      fst (apply_ops (db_combinations st)
                     (batch ++ generated_ops env tags items (clock_reads st))) /\
      (n' + snd (apply_ops (db_combinations st') batch'))%Z =
      (n + snd (apply_ops (db_combinations st)
                          (batch ++ generated_ops env tags items (clock_reads st))))%Z.
Proof.
  induction items as [|[[loc size] industry] items IH]; intros batch p n st Hkeys.
  - exists batch, p, n, st. cbn [generated_ops]. rewrite app_nil_r. repeat split.
  - destruct (dict_get_keys tags industry) as [ind_id Hget].
    { apply (Hkeys (loc, size, industry)). left. reflexivity. }
    rewrite generate_loop_step with (ind_id := ind_id) by exact Hget. cbv zeta.
    cbn [generated_ops]. rewrite Hget.
    set (op := mkUpsert (loc, industry) _).
    set (st0 := tick_clock (tick_clock st)).
    assert (Hkeys' : forall item, In item items -> In (snd item) (map fst tags)).
    { intros item Hi. apply Hkeys. right. exact Hi. }
    replace (batch ++ op :: generated_ops env tags items (S (S (clock_reads st))))
      with ((batch ++ [op]) ++ generated_ops env tags items (clock_reads st0))
      by (rewrite <- app_assoc; reflexivity).
    unfold bind at 1.
    destruct (Z.of_nat (length (batch ++ [op])) >=? batch_size)%Z.
    + destruct (flush_batch_exact (batch ++ [op]) (p + 1)%Z n st0)
        as [st1 [E [Hdb Hclock]]].
      rewrite E.
      destruct (IH [] (p + 1)%Z
                   (n + snd (apply_ops (db_combinations st0) (batch ++ [op])))%Z
                   st1 Hkeys')
        as [batch' [p' [n' [st' [E' [H1 H2]]]]]].
      exists batch', p', n', st'. split; [exact E'|].
      cbn [app] in H1, H2. rewrite Hdb, Hclock in H1, H2.
      destruct (apply_ops_app (batch ++ [op])
                  (generated_ops env tags items (clock_reads st0))
                  (db_combinations st0)) as [A1 A2].
      change (db_combinations st0) with (db_combinations st) in *.
      rewrite A1, A2. split; [exact H1 | rewrite H2; lia].
    + unfold ret at 1.
      destruct (IH (batch ++ [op]) (p + 1)%Z n st0 Hkeys')
        as [batch' [p' [n' [st' [E' [H1 H2]]]]]].
      exists batch', p', n', st'. split; [exact E'|].
      split; [exact H1 | exact H2].
Qed.

End OneSequence.

Lemma generate_combinations_exact (env : environment) (st : state) :
  (forall m, bulk_results env m = BulkOk) ->
  count_all (db_combinations st) <> total_potential env ->
  exists stats st',
    generate_combinations env st = (Returned stats, st') /\
    map op_filter (all_generated_ops env st) = enumerated_pairs env /\
    db_combinations st' =
    fst (apply_ops (db_combinations st) (all_generated_ops env st)) /\
    stat_new_added stats =
    Some (snd (apply_ops (db_combinations st) (all_generated_ops env st))) /\
    reports_counts_of stats (db_combinations st').
Proof.
  intros Hok Hne. unfold generate_combinations. cbv zeta.
  unfold bind at 1, get_state at 1.
  destruct (count_all (db_combinations st) =? total_potential env)%Z eqn:E.
  { apply Z.eqb_eq in E. contradiction. }
  destruct (@generate_loop_exact env Hok (formatted_industry_tags env)
              (product3 (all_Cities env) employee_ranges_defined (apollo_industries env))
              [] 0%Z 0%Z st (@product_industries_are_keys env))
    as [batch [p [n [st1 [E1 [H1 H2]]]]]].
  unfold bind at 1. rewrite E1.
  destruct (@flush_final_exact env Hok batch n st1) as [st2 [E2 Hdb2]].
  unfold bind at 1. rewrite E2.
  cbn [app] in H1, H2. fold (all_generated_ops env st) in H1, H2.
  eexists. eexists. split; [reflexivity|]. cbn.
  split; [|split; [|split]].
  - apply generated_ops_filters. apply product_industries_are_keys.
  - rewrite Hdb2. exact H1.
  - rewrite H2. reflexivity.
  - repeat split.
Qed.

(** X5.  The batches do not change what a generation writes.  When every
    bulk write succeeds and the generation is not skipped, the collection
    it leaves is the one obtained by applying, one after the other and in
    the order of the product, one conditional insert per enumerated pair
    to the collection it found; [new_added] is the number of those inserts
    that inserted, and [total] is the size found plus [new_added]. *)
Theorem generation_is_one_sequence_of_upserts (env : environment) (st : state) :
  (forall m, bulk_results env m = BulkOk) ->
  count_all (db_combinations st) <> total_potential env ->
  let ops := all_generated_ops env st in
  exists stats st',
    generate_combinations env st = (Returned stats, st') /\
    map op_filter ops = enumerated_pairs env /\
    db_combinations st' = fst (apply_ops (db_combinations st) ops) /\
    stat_new_added stats = Some (snd (apply_ops (db_combinations st) ops)) /\
    stat_total stats =
    (count_all (db_combinations st) + snd (apply_ops (db_combinations st) ops))%Z.
Proof.
  intros Hok Hne ops.
  destruct (@generate_combinations_exact env st Hok Hne)
    as [stats [st' [Eg [Hf [Hdb [Hn [Ht _]]]]]]].
  exists stats, st'. repeat (split; [assumption|]).
  rewrite Ht, Hdb. apply apply_ops_grows.
Qed.

(** X5, on three cities and one industry with the second city stored
    already: two of the three inserts insert. *)
Lemma generation_is_one_sequence_of_upserts_witness :
  exists stats st',
    generate_combinations three_cities (state_of [pending_combination "LA" "t1" "Tech"]) = (Returned stats, st') /\
    map op_filter (all_generated_ops three_cities (state_of [pending_combination "LA" "t1" "Tech"])) =
    enumerated_pairs three_cities /\
    db_combinations st' =
    fst (apply_ops [pending_combination "LA" "t1" "Tech"] (all_generated_ops three_cities (state_of [pending_combination "LA" "t1" "Tech"]))) /\
    stat_new_added stats =
    Some (snd (apply_ops [pending_combination "LA" "t1" "Tech"] (all_generated_ops three_cities (state_of [pending_combination "LA" "t1" "Tech"])))) /\
    stat_total stats =
    (1 + snd (apply_ops [pending_combination "LA" "t1" "Tech"] (all_generated_ops three_cities (state_of [pending_combination "LA" "t1" "Tech"]))))%Z.
Proof.
  apply (@generation_is_one_sequence_of_upserts three_cities (state_of [pending_combination "LA" "t1" "Tech"])).
  - intros m. reflexivity.
  - vm_compute. discriminate.
Defined.

(* ===================================================================== *)
(** * 37. The first generation                                           *)
(* ===================================================================== *)

Lemma apply_ops_all_absent (ops : list upsert_op) :
  forall c,
    Forall fresh_op ops ->
    NoDup (map op_filter ops) ->
    (forall k, In k (map op_filter ops) -> ~ In k (map key_of c)) ->
    apply_ops c ops = (c ++ map op_set_on_insert ops, Z.of_nat (length ops)).
Proof.
  induction ops as [|op ops IH]; intros c Hf Hnd Habs.
  - cbn. rewrite app_nil_r. reflexivity.
  - inversion Hf as [|? ? [Hkey _] Hf']; subst.
    inversion Hnd as [|? ? Hnotin Hnd']; subst.
    cbn [apply_ops]. unfold apply_upsert.
    assert (E : existsb (matches_key (op_filter op)) c = false).
    { apply not_present_iff. apply Habs. left. reflexivity. }
    rewrite E. rewrite (IH (c ++ [op_set_on_insert op]) Hf' Hnd').
    + rewrite <- app_assoc. cbn [map app length]. rewrite Nat2Z.inj_succ.
      f_equal. lia.
    + intros k Hk. rewrite map_app. intros Hin. apply in_app_or in Hin.
      destruct Hin as [Hin|[Hin|[]]].
      * apply (Habs k); [right; exact Hk | exact Hin].
      * rewrite Hkey in Hin. subst k. contradiction.
Qed.

Lemma enumerated_pairs_distinct (env : environment) :
  NoDup (all_Cities env) ->
  NoDup (map fst (formatted_industry_tags env)) ->
  NoDup (enumerated_pairs env).
Proof.
  unfold enumerated_pairs, product3, apollo_industries, employee_ranges_defined.
  generalize (map fst (formatted_industry_tags env)) as inds.
  intros inds Hc Hi. induction Hc as [|city cities Hnotin _ IH]; [constructor|].
  cbn [flat_map]. rewrite app_nil_r, map_app, map_map. cbn beta iota.
  apply NoDup_app.
  - clear - Hi. induction Hi as [|i inds Hn _ IHi]; [constructor|].
    cbn [map]. constructor; [|exact IHi].
    intros H. apply in_map_iff in H. destruct H as [j [Ej Hj]].
    inversion Ej; subst. contradiction.
  - exact IH.
  - intros k H1 H2. apply in_map_iff in H1. destruct H1 as [j [Ej _]]. subst k.
    apply in_map_iff in H2. destruct H2 as [[[loc size] ind] [Ek Hin]].
    inversion Ek; subst. 
    change (In (city, size, j) (product3 cities
              ["1-10, 10-20, 20-50, 50-100, 100-200"] inds)) in Hin.
    apply in_product3 in Hin. destruct Hin as [Hin _]. contradiction.
Qed.

Lemma enumerated_pairs_length (env : environment) :
  Z.of_nat (length (enumerated_pairs env)) = total_potential env.
Proof.
  unfold enumerated_pairs, total_potential, product3, employee_ranges_defined.
  rewrite length_map. generalize (apollo_industries env) as inds. intros inds.
  induction (all_Cities env) as [|city cities IH]; [reflexivity|].
  cbn [flat_map app]. rewrite app_nil_r, length_app, length_map.
  rewrite Nat2Z.inj_add. cbn [flat_map app] in IH. rewrite IH. cbn [length].
  rewrite Nat2Z.inj_succ.
  change (Z.of_nat 0) with 0%Z. rewrite Nat2Z.inj_succ. ring.
Qed.

Lemma all_pending_count (c : collection) :
  Forall fresh_document c -> count_status pending c = count_all c.
Proof.
  induction 1 as [|d c [Hd _] _ IH]; [reflexivity|].
  rewrite count_status_cons, IH, Hd. unfold count_all. cbn [status_eqb length]. lia.
Qed.

(** X6.  The first generation.  On an empty collection, with every bulk
    write succeeding and no city or industry listed twice,
    [generate_combinations] stores exactly one document per pair of the
    product, in the order of the product, each pending and without
    [results_count]; it reports [total = pending = total_potential].  A
    second call on what it left is skipped and changes nothing. *)
Theorem first_generation (env : environment) (st : state) :
  (forall m, bulk_results env m = BulkOk) ->
  db_combinations st = [] ->
  NoDup (all_Cities env) ->
  NoDup (map fst (formatted_industry_tags env)) ->
  exists stats st',
    generate_combinations env st = (Returned stats, st') /\
    map key_of (db_combinations st') = enumerated_pairs env /\
    Forall fresh_document (db_combinations st') /\
    stat_total stats = total_potential env /\
    stat_pending stats = total_potential env /\
    exists stats2,
      generate_combinations env st' = (Returned stats2, st') /\
      stat_skipped_generation stats2 = true.
Proof.
  intros Hok Hempty Hc Hi.
  assert (Hskip : forall st1,
             count_all (db_combinations st1) = total_potential env ->
             exists stats2, generate_combinations env st1 = (Returned stats2, st1) /\
                            stat_skipped_generation stats2 = true).
  { intros st1 H1. unfold generate_combinations. cbv zeta.
    unfold bind at 1, get_state at 1. apply Z.eqb_eq in H1. rewrite H1.
    eexists. split; reflexivity. }
  destruct (Z.eq_dec (count_all (db_combinations st)) (total_potential env)) as [E|E].
  - destruct (generate_combinations_returns env st)
      as [stats [st' [Eg [[Ht [Hp _]] [Hs Hsk]]]]].
    destruct (Hsk (proj2 Hs E)) as [Hst _]. subst st'.
    exists stats, st. split; [exact Eg|].
    rewrite Ht, Hp, Hempty. rewrite Hempty in E.
    assert (Hnil : enumerated_pairs env = []).
    { pose proof (enumerated_pairs_length env) as Hl. rewrite <- E in Hl.
      destruct (enumerated_pairs env); [reflexivity | discriminate]. }
    rewrite Hnil. split; [reflexivity|]. split; [constructor|].
    split; [exact E|]. split; [exact E|].
    apply Hskip. rewrite Hempty. exact E.
  - destruct (@generate_combinations_exact env st Hok E)
      as [stats [st' [Eg [Hf [Hdb [_ [Ht [Hp _]]]]]]]].
    exists stats, st'. split; [exact Eg|].
    rewrite Hempty in Hdb. rewrite Hdb in *.
    assert (Hall : apply_ops [] (all_generated_ops env st) =
                   (map op_set_on_insert (all_generated_ops env st),
                    Z.of_nat (length (all_generated_ops env st)))).
    { apply (@apply_ops_all_absent (all_generated_ops env st) []).
      - apply generated_ops_fresh.
      - rewrite Hf. apply enumerated_pairs_distinct; assumption.
      - intros k _ []. }
    rewrite Hall in *. cbn [fst snd] in *.
    assert (Hfresh : Forall fresh_document
                            (map op_set_on_insert (all_generated_ops env st))).
    { apply Forall_map. eapply Forall_impl; [|apply generated_ops_fresh].
      intros op [_ H]. exact H. }
    assert (Hkeys : map key_of (map op_set_on_insert (all_generated_ops env st)) =
                    enumerated_pairs env).
    { rewrite <- Hf. rewrite map_map. apply map_ext_in. intros op Hop.
      pose proof (generated_ops_fresh env (formatted_industry_tags env)
                    (product3 (all_Cities env) employee_ranges_defined
                              (apollo_industries env)) (clock_reads st)) as Hfo.
      rewrite Forall_forall in Hfo. apply (Hfo op Hop). }
    assert (Hlen : count_all (map op_set_on_insert (all_generated_ops env st)) =
                   total_potential env).
    { rewrite <- enumerated_pairs_length, <- Hkeys. unfold count_all.
      rewrite !length_map. reflexivity. }
    split; [exact Hkeys|]. split; [exact Hfresh|].
    split; [rewrite Ht; exact Hlen|].
    split; [rewrite Hp, all_pending_count by exact Hfresh; exact Hlen|].
    apply Hskip. rewrite Hdb. exact Hlen.
Qed.

(** X6, on three cities and one industry. *)
Lemma first_generation_witness :
  exists stats st',
    generate_combinations three_cities initial_state = (Returned stats, st') /\
    map key_of (db_combinations st') = enumerated_pairs three_cities /\
    Forall fresh_document (db_combinations st') /\
    stat_total stats = total_potential three_cities /\
    stat_pending stats = total_potential three_cities /\
    exists stats2,
      generate_combinations three_cities st' = (Returned stats2, st') /\
      stat_skipped_generation stats2 = true.
Proof.
  apply (@first_generation three_cities initial_state).
  - intros m. reflexivity.
  - reflexivity.
  - repeat constructor; cbn; intuition discriminate.
  - repeat constructor; cbn; intuition discriminate.
Defined.

(* ===================================================================== *)
(** * 38. Saving an organization                                         *)
(* ===================================================================== *)

Lemma has_name_iff (n : string) (c : list named_doc) :
  existsb (has_name n) c = true <-> In n (map named_name c).
Proof.
  rewrite existsb_exists, in_map_iff. unfold has_name.
  split; intros [d [H1 H2]]; exists d.
  - apply String.eqb_eq in H2. auto.
  - split; [exact H2 | apply String.eqb_eq; exact H1].
Qed.

Lemma catalog_step_present (n : string) (rest : list string)
      (before after : list named_doc) :
  In n (map named_name before) ->
  catalog_step rest before after -> catalog_step (n :: rest) before after.
Proof.
  intros Hn [added [E [Hnd Hiff]]]. exists added.
  split; [exact E|]. split; [exact Hnd|].
  intros m. rewrite Hiff. split.
  - intros [H1 H2]. split; [right; exact H1 | exact H2].
  - intros [[H1|H1] H2]; [subst m; contradiction | auto].
Qed.

Lemma catalog_step_absent (n : string) (rest : list string) (doc : named_doc)
      (before after : list named_doc) :
  named_name doc = n ->
  ~ In n (map named_name before) ->
  catalog_step rest (before ++ [doc]) after -> catalog_step (n :: rest) before after.
Proof.
  intros Hdoc Hn [added [E [Hnd Hiff]]]. exists (doc :: added).
  split; [rewrite E, <- app_assoc; reflexivity|].
  assert (Hin : forall m, In m (map named_name (before ++ [doc])) <->
                          In m (map named_name before) \/ m = n).
  { intros m. rewrite map_app, in_app_iff. cbn [map In]. rewrite Hdoc.
    intuition auto. }
  split.
  - cbn [map]. rewrite Hdoc. constructor; [|exact Hnd].
    intros H. apply Hiff in H. destruct H as [_ H]. apply H. apply Hin.
    right. reflexivity.
  - intros m. cbn [map In]. rewrite Hdoc, Hiff, Hin. split.
    + intros [H|[H1 H2]].
      * subst m. split; [left; reflexivity | exact Hn].
      * split; [right; exact H1 | intros H; apply H2; left; exact H].
    + intros [[H1|H1] H2]; [left; exact H1|].
      destruct (String.eqb n m) eqn:Enm.
      * apply String.eqb_eq in Enm. left. exact Enm.
      * apply String.eqb_neq in Enm. right. split; [exact H1|].
        intros [H|H]; [contradiction | congruence].
Qed.

Section Saving.

Variable env : environment.

Lemma save_industries_run (names : list string) :
  forall st,
    exists st',
      for_each names (save_industry env) st = (Returned tt, st') /\
      outside_save st' = outside_save st /\
      db_organization st' = db_organization st /\
      ids_issued st' = ids_issued st /\
      db_keyword st' = db_keyword st /\
      catalog_step names (db_industry st) (db_industry st').
Proof.
  induction names as [|n names IH]; intros st.
  - exists st. repeat split. exists []. rewrite app_nil_r.
    repeat split; try constructor; cbn; tauto.
  - cbn [for_each]. unfold bind at 1, save_industry at 1, bind at 1, get_state at 1.
    destruct (existsb (has_name n) (db_industry st)) eqn:E.
    + destruct (IH st) as [st' [E' [H1 [H2 [H3 [H4 H5]]]]]].
      unfold ret at 1. exists st'. rewrite E'. repeat split; try assumption.
      apply catalog_step_present; [apply has_name_iff; exact E | exact H5].
    + set (doc := mkNamed n (clock env (clock_reads st)) (clock env (S (clock_reads st)))).
      set (st1 := with_industry (db_industry st ++ [doc]) (tick_clock (tick_clock st))).
      destruct (IH st1) as [st' [E' [H1 [H2 [H3 [H4 H5]]]]]].
      exists st'. split; [exact E'|]. repeat split; try assumption.
      apply catalog_step_absent with (doc := doc); [reflexivity | | exact H5].
      intros H. apply has_name_iff in H. congruence.
Qed.

Lemma save_keywords_run (names : list string) :
  forall st,
    exists st',
      for_each names (save_keyword env) st = (Returned tt, st') /\
      outside_save st' = outside_save st /\
      db_organization st' = db_organization st /\
      ids_issued st' = ids_issued st /\
      db_industry st' = db_industry st /\
      catalog_step names (db_keyword st) (db_keyword st').
Proof.
  induction names as [|n names IH]; intros st.
  - exists st. repeat split. exists []. rewrite app_nil_r.
    repeat split; try constructor; cbn; tauto.
  - cbn [for_each]. unfold bind at 1, save_keyword at 1, bind at 1, get_state at 1.
    destruct (existsb (has_name n) (db_keyword st)) eqn:E.
    + destruct (IH st) as [st' [E' [H1 [H2 [H3 [H4 H5]]]]]].
      unfold ret at 1. exists st'. rewrite E'. repeat split; try assumption.
      apply catalog_step_present; [apply has_name_iff; exact E | exact H5].
    + set (doc := mkNamed n (clock env (clock_reads st)) (clock env (S (clock_reads st)))).
      set (st1 := with_keyword (db_keyword st ++ [doc]) (tick_clock (tick_clock st))).
      destruct (IH st1) as [st' [E' [H1 [H2 [H3 [H4 H5]]]]]].
      exists st'. split; [exact E'|]. repeat split; try assumption.
      apply catalog_step_absent with (doc := doc); [reflexivity | | exact H5].
      intros H. apply has_name_iff in H. congruence.
Qed.

(** [save_to_mongodb], run: the two catalogs first, then the
    organization, updated in place or added at the end. *)
Lemma save_to_mongodb_run (data : organization_data) (st : state) :
  exists st1 : state,
    outside_save st1 = outside_save st /\
    catalog_step (org_industry data) (db_industry st) (db_industry st1) /\
    catalog_step (org_keywords data) (db_keyword st) (db_keyword st1) /\
    save_to_mongodb env data st =
    match find (has_apollo_id (org_apollo_id data)) (db_organization st) with
    | Some existing_org =>
        (Returned (fst existing_org),
         with_organization
           (set_organization (org_apollo_id data)
              (set_updated_at (clock env (clock_reads st1)) data)
              (db_organization st))
           (tick_clock st1))
    | None =>
        (Returned (N.of_nat (ids_issued st)),
         tick_ids (with_organization
                     (db_organization st ++ [(N.of_nat (ids_issued st), data)]) st1))
    end.
Proof.
  destruct (save_industries_run (org_industry data) st)
    as [sti [Ei [Oi [Orgi [Idi [Kwi Ci]]]]]].
  destruct (save_keywords_run (org_keywords data) sti)
    as [st1 [Ek [Ok [Orgk [Idk [Indk Ck]]]]]].
  exists st1. split; [congruence|].
  split; [rewrite Indk; exact Ci|]. split; [rewrite <- Kwi; exact Ck|].
  unfold save_to_mongodb. unfold bind at 1. rewrite Ei.
  unfold bind at 1. rewrite Ek. unfold bind at 1, get_state at 1.
  rewrite Orgk, Orgi.
  destruct (find (has_apollo_id (org_apollo_id data)) (db_organization st)).
  - cbn. rewrite Orgk, Orgi. reflexivity.
  - cbn. rewrite Orgk, Orgi, Idk, Idi. reflexivity.
Qed.

End Saving.

Lemma find_set_organization (i : string) (data : organization_data)
      (c : list organization_doc) (old : organization_doc) :
  org_apollo_id data = i ->
  find (has_apollo_id i) c = Some old ->
  find (has_apollo_id i) (set_organization i data c) = Some (fst old, data) /\
  map fst (set_organization i data c) = map fst c /\
  other_organizations i (set_organization i data c) = other_organizations i c.
Proof.
  intros Hi. induction c as [|d c IH]; [discriminate|].
  cbn [find set_organization]. destruct (has_apollo_id i d) eqn:E.
  - intros H. inversion H; subst old.
    assert (Hnew : has_apollo_id i (fst d, data) = true).
    { unfold has_apollo_id. cbn [snd]. rewrite Hi. apply String.eqb_refl. }
    cbn [find map fst other_organizations filter].
    rewrite Hnew, E. cbn [negb fst]. repeat split.
  - intros H. destruct (IH H) as [H1 [H2 H3]].
    cbn [find map other_organizations filter]. rewrite E. cbn [negb].
    split; [exact H1|]. split; [rewrite H2; reflexivity|].
    unfold other_organizations in H3. rewrite H3. reflexivity.
Qed.

Lemma find_absent_others (i : string) (c : list organization_doc) :
  find (has_apollo_id i) c = None -> other_organizations i c = c.
Proof.
  induction c as [|d c IH]; [reflexivity|]. cbn [find other_organizations filter].
  destruct (has_apollo_id i d); [discriminate|]. intros H. cbn [negb].
  unfold other_organizations in IH. rewrite (IH H). reflexivity.
Qed.

Lemma find_added_last (i : string) (c : list organization_doc)
      (d : organization_doc) :
  find (has_apollo_id i) c = None -> has_apollo_id i d = true ->
  find (has_apollo_id i) (c ++ [d]) = Some d.
Proof.
  intros Hc Hd. induction c as [|x c IH].
  - cbn. rewrite Hd. reflexivity.
  - cbn [find app] in *. destruct (has_apollo_id i x); [discriminate|].
    apply IH. exact Hc.
Qed.

(** X7.  [save_to_mongodb] always returns an [_id], and afterwards the
    lookup by the [apollo_id] saved finds the document of that [_id],
    holding the data saved (on an update with a later [updated_at]; the
    [created_at] stored before is overwritten too).  An organization
    stored under that [apollo_id] keeps its [_id] and its place, and no
    document is added; otherwise exactly one document is added, at the
    end.  Documents with another [apollo_id] are untouched, and so are
    the combinations. *)
Theorem save_to_mongodb_upserts_by_apollo_id
        (env : environment) (data : organization_data) (st : state) :
  let i := org_apollo_id data in
  let before := db_organization st in
  exists oid st' stored,
    save_to_mongodb env data st = (Returned oid, st') /\
    find (has_apollo_id i) (db_organization st') = Some (oid, stored) /\
    stored_as data stored /\
    other_organizations i (db_organization st') = other_organizations i before /\
    map fst (db_organization st') =
    match find (has_apollo_id i) before with
    | Some existing_org => map fst before
    | None => map fst before ++ [oid]
    end /\
    (forall existing_org,
        find (has_apollo_id i) before = Some existing_org -> oid = fst existing_org) /\
    db_combinations st' = db_combinations st.
Proof.
  cbv zeta. destruct (save_to_mongodb_run env data st) as [st1 [O [_ [_ E]]]].
  assert (Hc : db_combinations st1 = db_combinations st).
  { unfold outside_save in O. congruence. }
  destruct (find (has_apollo_id (org_apollo_id data)) (db_organization st))
    as [old|] eqn:F.
  - set (data' := set_updated_at (clock env (clock_reads st1)) data) in *.
    destruct (@find_set_organization (org_apollo_id data) data'
                (db_organization st) old eq_refl F) as [H1 [H2 H3]].
    eexists. eexists. exists data'. split; [exact E|]. cbn.
    split; [exact H1|]. split; [right; eexists; reflexivity|].
    split; [exact H3|]. split; [exact H2|].
    split; [intros x Hx; inversion Hx; reflexivity | exact Hc].
  - eexists. eexists. exists data. split; [exact E|]. cbn.
    split.
    { apply find_added_last; [exact F|]. unfold has_apollo_id. cbn.
      apply String.eqb_refl. }
    split; [left; reflexivity|].
    split.
    { unfold other_organizations. rewrite filter_app. cbn [filter].
      unfold has_apollo_id at 2. cbn [snd]. rewrite String.eqb_refl. cbn [negb].
      rewrite app_nil_r. reflexivity. }
    split; [rewrite map_app; reflexivity|].
    split; [intros x Hx; discriminate | exact Hc].
Qed.

(** X8.  [save_to_mongodb] inserts the industries and the keywords of an
    organization only if absent: the documents of both collections stay
    as they are and in place, every name of the organization has a
    document afterwards, and a document is added once for each name that
    had none, also when the organization lists a name twice. *)
Theorem save_to_mongodb_fills_the_catalogs
        (env : environment) (data : organization_data) (st : state) :
  let st' := snd (save_to_mongodb env data st) in
  catalog_step (org_industry data) (db_industry st) (db_industry st') /\
  catalog_step (org_keywords data) (db_keyword st) (db_keyword st') /\
  (forall n, In n (org_industry data) -> In n (map named_name (db_industry st'))) /\
  (forall n, In n (org_keywords data) -> In n (map named_name (db_keyword st'))) /\
  (NoDup (map named_name (db_industry st)) ->
   NoDup (map named_name (db_industry st'))) /\
  (NoDup (map named_name (db_keyword st)) ->
   NoDup (map named_name (db_keyword st'))).
Proof.
  cbv zeta. destruct (save_to_mongodb_run env data st) as [st1 [_ [Ci [Ck E]]]].
  assert (Hi : db_industry (snd (save_to_mongodb env data st)) = db_industry st1).
  { rewrite E. destruct (find _ _); reflexivity. }
  assert (Hk : db_keyword (snd (save_to_mongodb env data st)) = db_keyword st1).
  { rewrite E. destruct (find _ _); reflexivity. }
  rewrite Hi, Hk. clear E Hi Hk.
  assert (Hall : forall names before after,
             catalog_step names before after ->
             (forall n, In n names -> In n (map named_name after)) /\
             (NoDup (map named_name before) -> NoDup (map named_name after))).
  { intros names before after [added [Ea [Hnd Hiff]]]. subst after. split.
    - intros n Hn. rewrite map_app, in_app_iff.
      destruct (existsb (has_name n) before) eqn:Eb.
      + left. apply has_name_iff. exact Eb.
      + right. apply Hiff. split; [exact Hn|]. intros H.
        apply has_name_iff in H. congruence.
    - intros Hb. rewrite map_app. apply NoDup_app; [exact Hb | exact Hnd |].
      intros n H1 H2. apply Hiff in H2. destruct H2 as [_ H2]. contradiction. }
  destruct (Hall _ _ _ Ci) as [Hi1 Hi2]. destruct (Hall _ _ _ Ck) as [Hk1 Hk2].
  repeat split; assumption.
Qed.

(* ===================================================================== *)
(** * 39. What a page leaves alone                                       *)
(* ===================================================================== *)

Lemma collect_ids_adds (organizations : list search_hit) :
  forall current seen,
    exists new,
      collect_ids organizations current seen = (current ++ new, seen ++ new) /\
      (NoDup seen -> NoDup (seen ++ new)) /\
      ~ In EmptyString new.
Proof.
  induction organizations as [|org rest IH]; intros current seen.
  - exists []. rewrite !app_nil_r. repeat split; auto.
  - cbn [collect_ids]. destruct (hit_id org) as [i|]; [|apply IH].
    destruct (negb (String.eqb i "") && negb (existsb (String.eqb i) seen)) eqn:E;
      [|apply IH].
    apply andb_true_iff in E. destruct E as [E1 E2].
    destruct (IH (current ++ [i]) (seen ++ [i])) as [new [Ec [Hnd Hne]]].
    exists (i :: new). rewrite Ec, <- !app_assoc. split; [reflexivity|]. split.
    + intros Hs. change (seen ++ i :: new) with (seen ++ [i] ++ new).
      rewrite app_assoc. apply Hnd. apply NoDup_app; [exact Hs | | ].
      * constructor; [intros []|constructor].
      * intros x Hx [Hi|[]]. subst x.
        apply negb_true_iff in E2.
        assert (Hex : existsb (String.eqb i) seen = true).
        { apply existsb_exists. exists i. split; [exact Hx | apply String.eqb_refl]. }
        congruence.
    + intros [H|H]; [|contradiction].
      subst i. discriminate.
Qed.

(** A relation on states that the writes of [save_to_mongodb]
    respect. *)
Section SaveFrame.

Variable env : environment.
Variable R : state -> state -> Prop.
Hypothesis R_refl : forall st, R st st.
Hypothesis R_trans : forall a b c, R a b -> R b c -> R a c.
Hypothesis R_clock : forall st, R st (tick_clock st).
Hypothesis R_industry : forall c st, R st (with_industry c st).
Hypothesis R_keyword : forall c st, R st (with_keyword c st).
Hypothesis R_organization : forall c st, R st (with_organization c st).
Hypothesis R_ids : forall st, R st (tick_ids st).

Local Abbreviation framed Q m := (behaves R Q passes_page_handler m).

Ltac frame_bind := eapply (behaves_bind R_trans) with (Q1 := anything).
Ltac frame_ret := apply (behaves_ret R_refl); try exact I.

Lemma frame_timezone_now : framed anything (timezone_now env).
Proof. intros st. split; [apply R_clock | exact I]. Qed.

Lemma frame_save_industry (name : string) : framed anything (save_industry env name).
Proof.
  unfold save_industry.
  eapply (behaves_bind R_trans) with (Q1 := anything);
    [apply (behaves_get_state R_refl); intros; exact I|].
  intros st _.
  destruct (existsb (has_name name) (db_industry st)); [frame_ret|].
  frame_bind; [apply frame_timezone_now|]. intros t1 _.
  frame_bind; [apply frame_timezone_now|]. intros t2 _.
  apply behaves_modify; [|exact I]. intros st'. apply R_industry.
Qed.

Lemma frame_save_keyword (name : string) : framed anything (save_keyword env name).
Proof.
  unfold save_keyword.
  eapply (behaves_bind R_trans) with (Q1 := anything);
    [apply (behaves_get_state R_refl); intros; exact I|].
  intros st _.
  destruct (existsb (has_name name) (db_keyword st)); [frame_ret|].
  frame_bind; [apply frame_timezone_now|]. intros t1 _.
  frame_bind; [apply frame_timezone_now|]. intros t2 _.
  apply behaves_modify; [|exact I]. intros st'. apply R_keyword.
Qed.

Lemma frame_save_to_mongodb (data : organization_data) :
  framed anything (save_to_mongodb env data).
Proof.
  unfold save_to_mongodb.
  frame_bind;
    [apply (behaves_for_each R_refl R_trans); apply frame_save_industry|].
  intros _ _.
  frame_bind;
    [apply (behaves_for_each R_refl R_trans); apply frame_save_keyword|].
  intros _ _.
  eapply (behaves_bind R_trans) with (Q1 := anything);
    [apply (behaves_get_state R_refl); intros; exact I|].
  intros st _.
  destruct (find (has_apollo_id (org_apollo_id data)) (db_organization st)).
  - frame_bind; [apply frame_timezone_now|]. intros t _.
    frame_bind;
      [apply behaves_modify; [intros st'; apply R_organization | exact I]|].
    intros _ _. frame_ret.
  - frame_bind;
      [apply behaves_modify;
       [intros st'; eapply R_trans; [apply R_organization | apply R_ids] | exact I]|].
    intros _ _. frame_ret.
Qed.

End SaveFrame.

(** A relation on states that a search respects in all it does between
    its two status updates, given that the clock, the pauses, the
    requests and [save_to_mongodb] respect it. *)
Section PageFrame.

Variable env : environment.
Variable R : state -> state -> Prop.
Hypothesis R_refl : forall st, R st st.
Hypothesis R_trans : forall a b c, R a b -> R b c -> R a c.
Hypothesis R_clock : forall st, R st (tick_clock st).
Hypothesis R_sleep : forall st, R st (log_event Sleep st).
Hypothesis R_details :
  forall ids st, R st (log_event (HttpDetails ids) (tick_details st)).
Hypothesis R_save :
  forall data, behaves R anything passes_page_handler (save_to_mongodb env data).

Local Abbreviation framed Q m := (behaves R Q passes_page_handler m).

Ltac frame_bind := eapply (behaves_bind R_trans) with (Q1 := anything).
Ltac frame_ret := apply (behaves_ret R_refl); try exact I.

Lemma frame_save_detail (organizations : list search_hit) (d : org_detail) :
  framed anything (save_detail env organizations d).
Proof.
  unfold save_detail, extract_organization_data.
  frame_bind.
  { frame_bind; [intros st; split; [apply R_clock | exact I]|].
    intros t _. frame_ret. }
  intros data _.
  frame_bind; [apply R_save|]. intros _ _. frame_ret.
Qed.

Lemma frame_fetch_organization_details (ids : list string) :
  framed anything (fetch_organization_details env ids).
Proof.
  unfold fetch_organization_details. destruct ids as [|i ids]; [frame_ret|].
  eapply (behaves_try_except R_trans) with (E1 := caught_by_Exception).
  - eapply (behaves_bind R_trans) with (Q1 := anything).
    + intros st. unfold post_details.
      destruct (details_responses env (details_calls st)); cbn [fst snd];
        (split; [apply R_details | exact I || reflexivity]).
    + intros resp _. destruct (status_code resp =? 200)%Z;
        [|apply (behaves_ret R_refl); exact I].
      destruct (body resp).
      * apply (behaves_raise R_refl). reflexivity.
      * apply (behaves_ret R_refl). exact I.
      * apply (behaves_ret R_refl). exact I.
  - intros e _ _. rewrite sys_exit_raises_NameError.
    apply (behaves_raise R_refl). reflexivity.
  - intros e He Hc. unfold caught_by_Exception in He. congruence.
Qed.

Lemma frame_process_page (resp : response search_results) (page : Z)
      (seen : list string) (total : Z) :
  framed (page_result resp seen total) (process_page env resp page seen total).
Proof.
  unfold process_page.
  eapply (behaves_try_except R_trans)
    with (E1 := fun e => is_JSONDecodeError e = true -> body resp = JsonInvalid).
  - eapply (behaves_bind R_trans)
      with (Q1 := fun results => body resp = JsonObject results).
    { destruct (body resp).
      - apply (behaves_raise R_refl). reflexivity.
      - apply (behaves_raise R_refl). discriminate.
      - apply (behaves_ret R_refl). reflexivity. }
    intros results Hbody.
    eapply behaves_weaken with (Q := page_result resp seen total)
                               (E := passes_page_handler);
      [|auto|unfold passes_page_handler; intros e He; congruence].
    destruct (collect_ids_adds (sr_organizations results) [] seen)
      as [new [Ec _]].
    assert (Hnew : page_ids resp seen = new).
    { unfold page_ids. rewrite Hbody, Ec. reflexivity. }
    rewrite Ec. cbn [app].
    eapply (behaves_bind R_trans) with (Q1 := fun p => fst p = continues resp).
    { unfold continues. rewrite Hbody.
      destruct (Z.of_nat (length (sr_organizations results)) <? per_page)%Z;
        [frame_ret; reflexivity|].
      destruct (sr_has_next_page results) as [[|]|].
      - frame_bind; [apply behaves_modify; [apply R_sleep | exact I]|].
        intros _ _. frame_ret. reflexivity.
      - frame_ret. reflexivity.
      - frame_bind; [apply behaves_modify; [apply R_sleep | exact I]|].
        intros _ _. frame_ret. reflexivity. }
    intros [more next_page] Hmore. cbn [fst] in Hmore.
    frame_bind.
    { destruct new as [|c new]; [frame_ret|].
      frame_bind; [apply frame_fetch_organization_details|].
      intros batch_details _.
      apply (behaves_for_each_detail R_refl R_trans);
        [reflexivity | apply frame_save_detail]. }
    intros _ _. apply (behaves_ret R_refl).
    unfold page_result, hits_of. rewrite Hbody, Hnew. repeat split. exact Hmore.
  - intros e He Hc. apply (behaves_ret R_refl).
    unfold page_result, hits_of, page_ids, continues. rewrite (He Hc).
    rewrite Z.add_0_r, app_nil_r. repeat split.
  - intros e _ Hc. exact Hc.
Qed.

Hypothesis R_search :
  forall loc ind_id page st,
    R st (log_event (HttpSearch loc ind_id page) (tick_search st)).

Lemma frame_paginate (fuel : nat) (loc ind_id : string) :
  forall page seen total,
    behaves R anything anything (paginate env fuel loc ind_id page seen total).
Proof.
  induction fuel as [|fuel IH]; intros page seen total; cbn [paginate].
  - apply (behaves_out_of_fuel R_refl).
  - eapply (behaves_bind R_trans) with (Q1 := anything).
    { intros st. unfold post_search.
      destruct (search_responses env (search_calls st)); cbn [fst snd];
        (split; [apply R_search | exact I]). }
    intros resp _.
    eapply (behaves_bind R_trans) with (Q1 := anything).
    { eapply behaves_weaken; [apply frame_process_page | |]; intros; exact I. }
    intros [[[more page'] seen'] total'] _.
    destruct (if (status_code resp =? 200)%Z then more else false).
    + apply IH.
    + apply (behaves_ret R_refl). exact I.
Qed.

Lemma frame_search_body (fuel : nat) (loc ind_id cookies_file headers_file : string) :
  behaves R anything anything
          (search_body env fuel loc ind_id cookies_file headers_file).
Proof.
  unfold search_body, load_json_file.
  eapply (behaves_bind R_trans) with (Q1 := anything).
  { destruct (filesystem env cookies_file);
      [apply (behaves_raise R_refl) | apply (behaves_raise R_refl)
       | apply (behaves_ret R_refl)]; exact I. }
  intros _ _.
  eapply (behaves_bind R_trans) with (Q1 := anything).
  { destruct (filesystem env headers_file);
      [apply (behaves_raise R_refl) | apply (behaves_raise R_refl)
       | apply (behaves_ret R_refl)]; exact I. }
  intros _ _. apply frame_paginate.
Qed.

End PageFrame.

(* ===================================================================== *)
(** * 40. What a search counts                                           *)
(* ===================================================================== *)

Lemma paginate_counts_hits (env : environment) (fuel : nat) (loc ind_id : string) :
  forall page seen total st n st',
    paginate env fuel loc ind_id page seen total st = (Returned n, st') ->
    exists pages,
      search_calls st' = search_calls st + S pages /\
      n = (total + hits_from env (search_calls st) (S pages))%Z.
Proof.
  induction fuel as [|fuel IH]; intros page seen total st n st' H;
    cbn [paginate] in H; [discriminate|].
  unfold bind at 1, post_search in H.
  destruct (search_responses env (search_calls st)) as [reason|resp] eqn:Er;
    [discriminate|].
  set (st1 := log_event (HttpSearch loc ind_id page) (tick_search st)) in H.
  assert (Hframe : behaves (fun a b => search_calls b = search_calls a)
                           (page_result resp seen total) passes_page_handler
                           (process_page env resp page seen total)).
  { apply frame_process_page; try reflexivity; try (intros a b c; congruence).
    intros data. apply frame_save_to_mongodb; try reflexivity.
    intros a b c; congruence. }
  destruct (Hframe st1) as [HR HQ].
  unfold bind at 1 in H.
  destruct (process_page env resp page seen total st1)
    as [[[[[more page'] seen'] total']|e|] st2]; try discriminate.
  cbn [fst snd] in HR, HQ. destruct HQ as [Ht _].
  assert (Hcalls : search_calls st2 = S (search_calls st)) by (rewrite HR; reflexivity).
  destruct (if (status_code resp =? 200)%Z then more else false).
  - apply IH in H. destruct H as [pages [Hc Hn]]. exists (S pages).
    rewrite Hc, Hcalls. split; [lia|].
    rewrite Hn, Ht, Hcalls.
    change (hits_from env (search_calls st) (S (S pages)))
      with (hits_of (search_responses env (search_calls st)) +
            hits_from env (S (search_calls st)) (S pages))%Z.
    rewrite Er. lia.
  - inversion H; subst. exists 0. rewrite Hcalls. split; [lia|].
    cbn [hits_from]. rewrite Er. lia.
Qed.

(** X9.  The count a search returns, and writes to the combination as
    [results_count], is the number of entries the vendor listed on the
    pages the search requested, all of them: an entry listed twice and an
    entry without an id count too, so the count is not the number of
    organizations saved.  A search that returns made at least one
    request. *)
Theorem search_counts_every_entry
        (env : environment) (fuel : nat)
        (loc ranges ind_id ind cookies_file headers_file : string)
        (st st' : state) (n : Z) :
  search_apollo_and_save_to_mongodb env fuel loc ranges ind_id ind
    cookies_file headers_file st = (Returned n, st') ->
  exists pages,
    search_calls st' = search_calls st + S pages /\
    n = hits_from env (search_calls st) (S pages) /\
    exists tr, trace st' = tr ++ [DbUpdateOne (loc, ind) completed (Some n)].
Proof.
  rewrite search_unfold. cbv zeta.
  set (st1 := snd (update_combination_status env loc ind in_progress None st)).
  assert (H1 : search_calls st1 = search_calls st) by reflexivity.
  clearbody st1. unfold search_body, bind, load_json_file. intros H.
  destruct (filesystem env cookies_file); cbn in H; try discriminate H.
  destruct (filesystem env headers_file); cbn in H; try discriminate H.
  destruct (paginate env fuel loc ind_id 1 [] 0 st1) as [[m|e|] st2] eqn:Ep;
    [| destruct (is_Exception e); discriminate H | discriminate H].
  inversion H; subst. clear H.
  apply paginate_counts_hits in Ep. destruct Ep as [pages [Hc Hn]].
  exists pages. cbn [search_calls trace log_event with_combinations tick_clock].
  split; [rewrite Hc, H1; reflexivity|].
  split; [rewrite Hn, H1; apply Z.add_0_l|]. eexists. reflexivity.
Qed.

(** X9, where the vendor lists one organization twice: the search returns
    2, and one organization is stored. *)
Lemma search_counts_every_entry_witness :
  let r := search_apollo_and_save_to_mongodb twice_listed 5 "NYC"
             "1-10, 10-20, 20-50, 50-100, 100-200" "t1" "Tech"
             "data/cookies.json" "data/headers.json"
             (state_of [nyc_tech pending None]) in
  fst r = Returned 2%Z /\
  length (db_organization (snd r)) = 1 /\
  exists pages,
    search_calls (snd r) = 0 + S pages /\
    2%Z = hits_from twice_listed 0 (S pages) /\
    exists tr, trace (snd r) = tr ++ [DbUpdateOne ("NYC", "Tech") completed (Some 2%Z)].
Proof.
  cbv zeta. split; [vm_compute; reflexivity|]. split; [vm_compute; reflexivity|].
  apply (@search_counts_every_entry twice_listed 5 "NYC"
           "1-10, 10-20, 20-50, 50-100, 100-200" "t1" "Tech"
           "data/cookies.json" "data/headers.json"
           (state_of [nyc_tech pending None])).
  vm_compute. reflexivity.
Defined.

(* ===================================================================== *)
(** * 41. The ids sent to the details endpoint                           *)
(* ===================================================================== *)

Lemma details_requested_app (a b : list event) :
  details_requested (a ++ b) = details_requested a ++ details_requested b.
Proof.
  induction a as [|e a IH]; [reflexivity|].
  destruct e; cbn [app details_requested]; try exact IH.
  rewrite IH, app_assoc. reflexivity.
Qed.

Lemma details_requested_log (e : event) (st : state) :
  details_requested (trace (log_event e st)) =
  details_requested (trace st) ++ details_requested [e].
Proof. apply details_requested_app. Qed.

Lemma fetch_organization_details_request (env : environment)
      (i : string) (ids : list string) (st : state) :
  let r := fetch_organization_details env (i :: ids) st in
  snd r = log_event (HttpDetails (i :: ids)) (tick_details st) /\
  forall e, fst r = Raised e -> is_JSONDecodeError e = false.
Proof.
  cbv zeta. unfold fetch_organization_details, try_except, bind, post_details.
  destruct (details_responses env (details_calls st)) as [reason|resp].
  - cbn. split; [reflexivity|]. intros e H. inversion H. reflexivity.
  - destruct (status_code resp =? 200)%Z.
    + destruct (body resp); cbn; (split; [reflexivity|]); intros e H;
        inversion H; reflexivity.
    + cbn. split; [reflexivity|]. intros e H. discriminate.
Qed.

Lemma process_page_details (env : environment) (resp : response search_results)
      (page : Z) (seen : list string) (total : Z) (st : state) :
  details_requested (trace (snd (process_page env resp page seen total st))) =
  details_requested (trace st) ++ page_ids resp seen.
Proof.
  unfold process_page, page_ids, try_except. unfold bind at 1.
  destruct (body resp) as [| |results];
    try (cbn; rewrite app_nil_r; reflexivity).
  unfold ret at 1.
  destruct (collect_ids_adds (sr_organizations results) [] seen) as [new [Ec _]].
  rewrite Ec. cbn [app fst].
  unfold bind at 1.
  set (step := if (Z.of_nat (length (sr_organizations results)) <? per_page)%Z
               then _ else _).
  assert (Hstep : exists more next st1,
             step st = (Returned (more, next), st1) /\ same_details st st1).
  { unfold step. destruct (_ <? _)%Z.
    - eexists. eexists. eexists. split; reflexivity.
    - destruct (sr_has_next_page results) as [[|]|].
      + eexists. eexists. eexists. split; [reflexivity|].
        unfold same_details. cbn [snd]. rewrite details_requested_log.
        apply app_nil_r.
      + eexists. eexists. eexists. split; reflexivity.
      + eexists. eexists. eexists. split; [reflexivity|].
        unfold same_details. cbn [snd]. rewrite details_requested_log.
        apply app_nil_r. }
  destruct Hstep as [more [next [st1 [Es Hs]]]]. rewrite Es. clear Es step.
  unfold same_details in Hs. rewrite <- Hs.
  destruct new as [|c new].
  { cbn. rewrite app_nil_r. reflexivity. }
  unfold bind at 1. unfold bind at 1.
  destruct (fetch_organization_details_request env c new st1) as [Hst Hexn].
  destruct (fetch_organization_details env (c :: new) st1)
    as [[batch_details|e|] st2]; cbn [fst snd] in Hst, Hexn.
  - assert (Hframe : behaves same_details anything passes_page_handler
                             (for_each_detail batch_details
                                (save_detail env (sr_organizations results)))).
    { apply behaves_for_each_detail;
        [reflexivity | unfold same_details; congruence | reflexivity |].
      intros d. apply frame_save_detail;
        try (intros; unfold same_details; cbn; reflexivity);
        try (unfold same_details; congruence).
      intros data. apply frame_save_to_mongodb;
        try (intros; unfold same_details; cbn; reflexivity);
        unfold same_details; congruence. }
    destruct (Hframe st2) as [Hsame Hout]. unfold same_details in Hsame.
    destruct (for_each_detail batch_details
                (save_detail env (sr_organizations results)) st2)
      as [[[]|e|] st3]; cbn [fst snd] in Hsame, Hout |- *.
    + unfold ret. cbn [snd]. rewrite Hsame, Hst, details_requested_log.
      cbn [details_requested]. rewrite app_nil_r. reflexivity.
    + unfold passes_page_handler in Hout. rewrite Hout. cbn [snd].
      rewrite Hsame, Hst, details_requested_log.
      cbn [details_requested]. rewrite app_nil_r. reflexivity.
    + rewrite Hsame, Hst, details_requested_log.
      cbn [details_requested]. rewrite app_nil_r. reflexivity.
  - rewrite (Hexn e eq_refl). cbn [snd].
    rewrite Hst, details_requested_log.
    cbn [details_requested]. rewrite app_nil_r. reflexivity.
  - cbn [snd]. rewrite Hst, details_requested_log.
    cbn [details_requested]. rewrite app_nil_r. reflexivity.
Qed.

Lemma page_ids_fresh (resp : response search_results) (seen : list string) :
  (NoDup seen -> NoDup (seen ++ page_ids resp seen)) /\
  ~ In EmptyString (page_ids resp seen).
Proof.
  unfold page_ids. destruct (body resp) as [| |results];
    try (rewrite app_nil_r; split; [auto | intros []]).
  destruct (collect_ids_adds (sr_organizations results) [] seen)
    as [new [Ec [Hnd Hne]]].
  rewrite Ec. cbn [fst app]. split; assumption.
Qed.

Lemma paginate_details (env : environment) (fuel : nat) (loc ind_id : string) :
  forall page seen total st,
    NoDup seen ->
    exists ids,
      details_requested (trace (snd (paginate env fuel loc ind_id page seen total st))) =
      details_requested (trace st) ++ ids /\
      NoDup (seen ++ ids) /\ ~ In EmptyString ids.
Proof.
  induction fuel as [|fuel IH]; intros page seen total st Hseen; cbn [paginate].
  - exists []. cbn. rewrite !app_nil_r. repeat split; auto.
  - unfold bind at 1, post_search.
    set (st1 := log_event (HttpSearch loc ind_id page) (tick_search st)).
    assert (H1 : details_requested (trace st1) = details_requested (trace st)).
    { unfold st1. rewrite details_requested_log. cbn. apply app_nil_r. }
    destruct (search_responses env (search_calls st)) as [reason|resp].
    { exists []. cbn [snd]. rewrite H1, !app_nil_r. repeat split; auto. }
    pose proof (process_page_details env resp page seen total st1) as Hd.
    destruct (page_ids_fresh resp seen) as [Hnd Hne].
    assert (Hq : behaves (fun _ _ => True) (page_result resp seen total)
                         passes_page_handler
                         (process_page env resp page seen total)).
    { apply frame_process_page; auto.
      intros data. apply frame_save_to_mongodb; auto. }
    destruct (Hq st1) as [_ Hres].
    unfold bind at 1.
    destruct (process_page env resp page seen total st1)
      as [[[[[more page'] seen'] total']|e|] st2]; cbn [fst snd] in Hd, Hres |- *.
    + destruct Hres as [_ [Hseen' _]].
      destruct (if (status_code resp =? 200)%Z then more else false).
      * destruct (IH page' seen' total' st2) as [ids [E [Hn He]]].
        { rewrite Hseen'. apply Hnd. exact Hseen. }
        exists (page_ids resp seen ++ ids).
        rewrite E, Hd, H1, <- app_assoc. split; [reflexivity|].
        rewrite Hseen', <- app_assoc in Hn. split; [exact Hn|].
        intros H. apply in_app_or in H. tauto.
      * exists (page_ids resp seen). unfold ret. cbn [snd]. rewrite Hd, H1.
        split; [reflexivity|]. split; [apply Hnd; exact Hseen | exact Hne].
    + exists (page_ids resp seen). rewrite Hd, H1.
      split; [reflexivity|]. split; [apply Hnd; exact Hseen | exact Hne].
    + exists (page_ids resp seen). rewrite Hd, H1.
      split; [reflexivity|]. split; [apply Hnd; exact Hseen | exact Hne].
Qed.

(** X10.  Within one search no organization id is sent to the details
    endpoint twice, however often and on however many pages the vendor
    lists it, and the empty id is never sent; this holds for a search
    that returns and for one that fails. *)
Theorem search_requests_details_once
        (env : environment) (fuel : nat)
        (loc ranges ind_id ind cookies_file headers_file : string) (st : state) :
  exists ids,
    details_requested
      (trace (snd (search_apollo_and_save_to_mongodb env fuel loc ranges ind_id ind
                     cookies_file headers_file st))) =
    details_requested (trace st) ++ ids /\
    NoDup ids /\ ~ In EmptyString ids.
Proof.
  rewrite search_unfold. cbv zeta.
  set (st1 := snd (update_combination_status env loc ind in_progress None st)).
  assert (H1 : details_requested (trace st1) = details_requested (trace st)).
  { unfold st1. rewrite update_combination_status_run. cbn [snd].
    rewrite details_requested_log. cbn. apply app_nil_r. }
  assert (Hupd : forall s rc st0,
             details_requested
               (trace (snd (update_combination_status env loc ind s rc st0))) =
             details_requested (trace st0)).
  { intros s rc st0. rewrite update_combination_status_run. cbn [snd].
    rewrite details_requested_log. cbn. apply app_nil_r. }
  clearbody st1.
  assert (Hbody : exists ids,
             details_requested
               (trace (snd (search_body env fuel loc ind_id cookies_file
                              headers_file st1))) =
             details_requested (trace st1) ++ ids /\
             NoDup ids /\ ~ In EmptyString ids).
  { unfold search_body, bind, load_json_file.
    destruct (filesystem env cookies_file);
      try (exists []; cbn; rewrite app_nil_r; repeat split; [constructor | auto]).
    destruct (filesystem env headers_file);
      try (exists []; cbn; rewrite app_nil_r; repeat split; [constructor | auto]).
    cbn [raise ret].
    destruct (paginate_details env fuel loc ind_id 1%Z 0%Z st1 (NoDup_nil _))
      as [ids H].
    exists ids. exact H. }
  destruct Hbody as [ids [E [Hn He]]]. exists ids.
  split; [|split; assumption].
  destruct (search_body env fuel loc ind_id cookies_file headers_file st1)
    as [[n|e|] st2]; cbn [snd] in E |- *.
  - rewrite Hupd, E, H1. reflexivity.
  - destruct (is_Exception e); cbn [snd]; rewrite ?Hupd, E, H1; reflexivity.
  - rewrite E, H1. reflexivity.
Qed.

(* ===================================================================== *)
(** * 42. What no run changes                                            *)
(* ===================================================================== *)

Lemma identity_marked (k : key) s now rc (c : collection) :
  map identity_of (marked k s now rc c) = map identity_of c.
Proof.
  unfold marked. induction c as [|d c IH]; [reflexivity|].
  cbn [update_one]. destruct (matches_key k d); cbn [map].
  - reflexivity.
  - rewrite IH. reflexivity.
Qed.

Lemma identity_reset (now : timestamp) (c : collection) :
  map identity_of (reset_failed_store now c) = map identity_of c.
Proof.
  unfold reset_failed_store, update_many. rewrite map_map.
  apply map_ext. intros d. destruct (is_failed d); reflexivity.
Qed.

Lemma harvested_identity (ks : list key) (c c' : collection) :
  harvested ks c c' -> map identity_of c' = map identity_of c.
Proof.
  induction 1 as [c|k ks c c' t0 t1 n _ IH|k ks c c' t0 t1 t2 _ IH
                  |k ks c c' t0 t1 _ IH|k ks c t0];
    rewrite ?IH, ?identity_marked; reflexivity.
Qed.

Lemma run_writes_identity (env : environment) (o : options) (c c' : collection) :
  run_writes env o c c' ->
  exists added, map identity_of c' = map identity_of c ++ added.
Proof.
  intros [c1 [c2 [Hr [[[new [Hnew _]] _] Hh]]]].
  assert (H1 : map identity_of c1 = map identity_of c).
  { destruct Hr as [[_ ->]|[now ->]]; [reflexivity | apply identity_reset]. }
  assert (H2 : map identity_of c' = map identity_of c2).
  { destruct Hh as [->|[selected [_ Hh]]]; [reflexivity|].
    eapply harvested_identity. exact Hh. }
  exists (map identity_of new). rewrite H2, Hnew, map_app, H1. reflexivity.
Qed.

(** X11.  No run of the command and no run of [main] deletes or reorders
    a combination, or changes its location, employee ranges, industry id,
    industry name or [created_at]: whatever the options, the vendor and
    the database server do, and however the run ends, the stored
    documents keep their identity and their place, and new ones are added
    after them. *)
Theorem runs_keep_every_combination
        (env : environment) (fuel : nat) (o : options) (st : state) :
  (exists added,
      map identity_of (db_combinations (snd (handle env fuel o st))) =
      map identity_of (db_combinations st) ++ added) /\
  (exists added,
      map identity_of (db_combinations (snd (main env fuel st))) =
      map identity_of (db_combinations st) ++ added).
Proof.
  split.
  - destruct (handle_writes env fuel o st) as [H|H].
    + exists []. rewrite H, app_nil_r. reflexivity.
    + eapply run_writes_identity. exact H.
  - eapply run_writes_identity. apply main_writes.
Qed.

(* ===================================================================== *)
(** * 43. The searches that a run starts                                 *)
(* ===================================================================== *)

Lemma started_app (a b : list event) :
  started (a ++ b) = started a ++ started b.
Proof.
  induction a as [|e a IH]; [reflexivity|].
  destruct e as [| | | | | |k s rc| | | | |]; cbn [app started]; try exact IH.
  destruct s; cbn [app]; rewrite ?IH; reflexivity.
Qed.

Lemma started_log (e : event) (st : state) :
  started (trace (log_event e st)) = started (trace st) ++ started [e].
Proof. apply started_app. Qed.

Lemma same_started_trans (a b c : state) :
  same_started a b -> same_started b c -> same_started a c.
Proof. unfold same_started. congruence. Qed.

Lemma search_body_same_started (env : environment) (fuel : nat)
      (loc ind_id cookies_file headers_file : string) (st : state) :
  same_started st (snd (search_body env fuel loc ind_id cookies_file headers_file st)).
Proof.
  assert (H : behaves same_started anything anything
                      (search_body env fuel loc ind_id cookies_file headers_file)).
  { apply frame_search_body;
      try (intros; unfold same_started; cbn [trace log_event tick_clock tick_details
                                              tick_search];
           rewrite ?started_app; cbn [started]; rewrite ?app_nil_r; reflexivity);
      try exact same_started_trans.
    intros data. apply frame_save_to_mongodb;
      try (intros; reflexivity); exact same_started_trans. }
  apply H.
Qed.

Lemma search_started (env : environment) (fuel : nat)
      (loc ranges ind_id ind cookies_file headers_file : string) (st : state) :
  started (trace (snd (search_apollo_and_save_to_mongodb env fuel loc ranges ind_id
                         ind cookies_file headers_file st))) =
  started (trace st) ++ [(loc, ind)].
Proof.
  rewrite search_unfold. cbv zeta.
  set (st1 := snd (update_combination_status env loc ind in_progress None st)).
  assert (H1 : started (trace st1) = started (trace st) ++ [(loc, ind)]).
  { unfold st1. rewrite update_combination_status_run. cbn [snd].
    rewrite started_log. reflexivity. }
  assert (Hupd : forall s rc st0,
             s <> in_progress ->
             started (trace (snd (update_combination_status env loc ind s rc st0))) =
             started (trace st0)).
  { intros s rc st0 Hs. rewrite update_combination_status_run. cbn [snd].
    rewrite started_log. destruct s; try contradiction; cbn; apply app_nil_r. }
  pose proof (search_body_same_started env fuel loc ind_id cookies_file
                headers_file st1) as Hb.
  unfold same_started in Hb. clearbody st1.
  destruct (search_body env fuel loc ind_id cookies_file headers_file st1)
    as [[n|e|] st2]; cbn [snd] in Hb |- *.
  - rewrite Hupd by discriminate. congruence.
  - destruct (is_Exception e); cbn [snd]; rewrite ?Hupd by discriminate; congruence.
  - congruence.
Qed.

Section Dispatch.

Variable env : environment.
Variable fuel : nat.
Variables cookies_file headers_file : string.
Variable pending_count : Z.

Lemma process_started (queue : list projected) :
  forall i n st,
    let r := process_combinations env fuel cookies_file headers_file pending_count
                                  i n queue st in
    exists k,
      started (trace (snd r)) =
      started (trace st) ++ map projected_key (firstn k queue) /\
      (forall m, fst r = Returned m -> firstn k queue = queue).
Proof.
  induction queue as [|combo rest IH]; intros i n st; cbv zeta.
  - exists 0. cbn. rewrite app_nil_r. split; reflexivity.
  - rewrite process_step.
    pose proof (search_started env fuel (p_location combo) (p_employee_ranges combo)
                  (p_industry_id combo) (p_industry_name combo)
                  cookies_file headers_file (announced pending_count i combo st))
      as Hs.
    fold (search_of env fuel cookies_file headers_file combo) in Hs.
    fold (projected_key combo) in Hs.
    assert (Ha : started (trace (announced pending_count i combo st)) =
                 started (trace st)).
    { unfold announced. rewrite started_log. cbn. apply app_nil_r. }
    rewrite Ha in Hs. clear Ha.
    destruct (search_of env fuel cookies_file headers_file combo
                        (announced pending_count i combo st))
      as [[results|e|] st1]; cbn [snd] in Hs.
    + destruct (IH (i + 1)%Z (n + 1)%Z
                   (after_success pending_count i combo results st1))
        as [k [Hk Hall]].
      exists (S k). cbn [firstn map]. split.
      * rewrite Hk. unfold after_success. cbv zeta.
        destruct (i + 1 <? pending_count)%Z;
          rewrite ?started_log; cbn [started]; rewrite ?app_nil_r, Hs, <- app_assoc;
          reflexivity.
      * intros m Hm. rewrite (Hall m Hm). reflexivity.
    + destruct (is_Exception e).
      * destruct (IH (i + 1)%Z n (after_failure env combo e st1)) as [k [Hk Hall]].
        exists (S k). cbn [firstn map]. split.
        -- rewrite Hk. unfold after_failure.
           rewrite update_combination_status_run.
           cbn [snd trace log_event with_combinations tick_clock].
           rewrite !started_app. cbn [started]. rewrite !app_nil_r, Hs, <- app_assoc.
           reflexivity.
        -- intros m Hm. rewrite (Hall m Hm). reflexivity.
      * exists 1. cbn [firstn map snd fst]. split; [exact Hs|].
        intros m Hm. discriminate.
    + exists 1. cbn [firstn map snd fst]. split; [exact Hs|].
      intros m Hm. discriminate.
Qed.

End Dispatch.

(** A relation on states that the generation respects, given that the
    clock and the bulk writes respect it. *)
Section GenerationFrame.

Variable env : environment.
Variable R : state -> state -> Prop.
Hypothesis R_refl : forall st, R st st.
Hypothesis R_trans : forall a b c, R a b -> R b c -> R a c.
Hypothesis R_clock : forall st, R st (tick_clock st).
Hypothesis R_bulk :
  forall ops ok c st,
    R st (log_event (DbBulkWrite ops ok) (tick_bulk (with_combinations c st))).

Ltac gen_bind := eapply (behaves_bind R_trans) with (Q1 := anything).
Ltac gen_ret := apply (behaves_ret R_refl); try exact I.

Lemma frame_bulk_write (ops : list upsert_op) :
  behaves R anything anything (bulk_write env ops).
Proof.
  intros st. unfold bulk_write.
  destruct (bulk_results env (bulk_calls st)) as [|mask].
  - destruct (apply_ops (db_combinations st) ops) as [c n]. cbn [fst snd].
    split; [apply R_bulk | exact I].
  - destruct (apply_ops (db_combinations st) (select_applied mask ops)) as [c n].
    cbn [fst snd]. split; [apply R_bulk | exact I].
Qed.

Lemma frame_flush_batch (batch : list upsert_op) (p n : Z) :
  behaves R anything anything (flush_batch env batch p n).
Proof.
  unfold flush_batch.
  eapply (behaves_try_except R_trans) with (E1 := anything).
  - gen_bind; [apply frame_bulk_write|]. intros m _. gen_ret.
  - intros e _ _. gen_ret.
  - intros e _ _. exact I.
Qed.

Lemma frame_flush_final (batch : list upsert_op) (n : Z) :
  behaves R anything anything (flush_final env batch n).
Proof.
  unfold flush_final. destruct batch as [|op batch]; [gen_ret|].
  eapply (behaves_try_except R_trans) with (E1 := anything).
  - gen_bind; [apply frame_bulk_write|]. intros m _. gen_ret.
  - intros e _ _. gen_ret.
  - intros e _ _. exact I.
Qed.

Lemma frame_generate_loop (tags : list (string * string))
      (items : list (string * string * string)) :
  forall locals,
    behaves R anything anything (generate_loop env tags items locals).
Proof.
  induction items as [|[[loc size] industry] items IH];
    intros [[batch p] n]; cbn [generate_loop].
  - gen_ret.
  - destruct (dict_get tags industry) as [ind_id|]; [|gen_ret].
    gen_bind; [intros st; split; [apply R_clock | exact I]|]. intros created _.
    gen_bind; [intros st; split; [apply R_clock | exact I]|]. intros updated _.
    gen_bind.
    { match goal with |- context [if ?b then _ else _] => destruct b end.
      - apply frame_flush_batch.
      - gen_ret. }
    intros locals' _. apply IH.
Qed.

Lemma frame_status_counts (total : Z) (new_added : option Z) (skipped : bool) :
  behaves R anything anything (status_counts total new_added skipped).
Proof.
  unfold status_counts.
  gen_bind; [apply (behaves_get_state R_refl); intros; exact I|].
  intros st _. gen_ret.
Qed.

Lemma frame_generate_combinations :
  behaves R anything anything (generate_combinations env).
Proof.
  unfold generate_combinations. cbv zeta.
  gen_bind; [apply (behaves_get_state R_refl); intros; exact I|].
  intros st0 _.
  destruct (count_all (db_combinations st0) =? total_potential env)%Z.
  - apply frame_status_counts.
  - gen_bind; [apply frame_generate_loop|].
    intros [[[batch p] n] uncaught] _.
    gen_bind.
    { destruct uncaught; [gen_ret|]. apply frame_flush_final. }
    intros n' _.
    gen_bind; [apply (behaves_get_state R_refl); intros; exact I|].
    intros st1 _. apply frame_status_counts.
Qed.

End GenerationFrame.

(** Neither the reset nor the generation starts a search. *)
Lemma generation_same_started (env : environment) (st : state) :
  started (trace (snd (generate_combinations_from_files env st)))
  = started (trace st).
Proof.
  rewrite generate_combinations_from_files_run.
  destruct (data_files_error env); [reflexivity|].
  assert (H : behaves same_started anything anything (generate_combinations env)).
  { apply frame_generate_combinations;
      try (intros; unfold same_started;
           cbn [trace log_event tick_clock tick_bulk with_combinations];
           rewrite ?started_app; cbn [started]; rewrite ?app_nil_r; reflexivity).
    exact same_started_trans. }
  apply H.
Qed.

Lemma generation_step_same_started (env : environment) (o : options) (st : state) :
  started (trace (snd (when (negb (opt_skip_generation o))
                            (bind (generate_combinations_from_files env)
                                  (fun _ => ret tt)) st)))
  = started (trace st).
Proof.
  unfold when. destruct (negb (opt_skip_generation o)); [|reflexivity].
  unfold bind. pose proof (generation_same_started env st) as H.
  destruct (generate_combinations_from_files env st) as [[stats|e|] st1];
    exact H.
Qed.

(** When its data files are read, or when it is skipped, the generation
    step of a run returns. *)
Lemma generation_step_returns (env : environment) (o : options) (st : state) :
  opt_skip_generation o = true \/ data_files_error env = None ->
  exists st', when (negb (opt_skip_generation o))
                   (bind (generate_combinations_from_files env)
                         (fun _ => ret tt)) st = (Returned tt, st').
Proof.
  intros H. unfold when. destruct (opt_skip_generation o) eqn:Es; cbn [negb].
  - exists st. reflexivity.
  - destruct H as [H|H]; [discriminate H|].
    unfold bind. rewrite generate_combinations_from_files_run, H.
    destruct (generate_combinations_returns env st) as [stats [st' [Eg _]]].
    rewrite Eg. exists st'. reflexivity.
Qed.

Lemma reset_step_run (env : environment) (o : options) (st : state) :
  exists st1,
    when (opt_reset_failed o) (reset_failed env) st = (Returned tt, st1) /\
    started (trace st1) = started (trace st) /\
    (db_combinations st1 = db_combinations st \/
     exists now, db_combinations st1 = reset_failed_store now (db_combinations st)).
Proof.
  unfold when. destruct (opt_reset_failed o).
  - rewrite reset_failed_run. eexists. split; [reflexivity|]. split.
    + cbn [trace log_event with_combinations tick_clock].
      rewrite !started_app. cbn [started]. rewrite !app_nil_r. reflexivity.
    + right. eexists. reflexivity.
  - exists st. split; [reflexivity|]. split; [reflexivity|]. left. reflexivity.
Qed.

(** A run whose filter the server rejects. *)
Lemma handle_rejects (env : environment) (fuel : nat) (o : options) (st : state) :
  rejected env (opt_location o) \/ rejected env (opt_industry o) ->
  os_path_exists env (opt_cookies_file o) = true ->
  os_path_exists env (opt_headers_file o) = true ->
  opt_skip_generation o = true \/ data_files_error env = None ->
  fst (handle env fuel o st) = Raised OperationFailure /\
  started (trace (snd (handle env fuel o st))) = started (trace st).
Proof.
  intros Hr Hc Hh Hg. unfold handle. cbv zeta. rewrite Hc, Hh. cbn [negb].
  destruct (reset_step_run env o st) as [st1 [E1 [Hs1 _]]].
  destruct (@generation_step_returns env o st1 Hg) as [st2 E2].
  pose proof (generation_step_same_started env o st1) as Hs2.
  rewrite E2 in Hs2. cbn [snd] in Hs2.
  assert (Eq : filtered_combinations env o (db_combinations st2) = None).
  { rewrite filtered_of_selected.
    apply (selected_documents_rejected env o (db_combinations st2)) in Hr.
    rewrite Hr. reflexivity. }
  assert (Hrun : run env fuel o st = (Raised OperationFailure, st2)).
  { unfold run. unfold bind at 1. rewrite E1. unfold bind at 1. rewrite E2.
    unfold bind at 1, get_state at 1. rewrite Eq. reflexivity. }
  rewrite Hrun. cbn [fst snd]. split; [reflexivity|]. congruence.
Qed.

(* ===================================================================== *)
(** * 44. A loop that comes to its end                                   *)
(* ===================================================================== *)

Lemma settled_harvested (ks : list key) (c c' : collection) :
  settled ks c c' -> harvested ks c c'.
Proof.
  induction 1 as [c|k ks c c' t0 t1 n _ IH|k ks c c' t0 t1 t2 _ IH
                  |k ks c c' t0 t1 _ IH].
  - constructor.
  - eapply harvested_completed. exact IH.
  - eapply harvested_failed. exact IH.
  - eapply harvested_failed_once. exact IH.
Qed.

Lemma settled_other (ks : list key) (c c' : collection) :
  settled ks c c' ->
  forall k, ~ In k ks -> find_one k c' = find_one k c.
Proof.
  induction 1 as [c|k ks c c' t0 t1 n _ IH|k ks c c' t0 t1 t2 _ IH
                  |k ks c c' t0 t1 _ IH]; intros k' Hk'; [reflexivity| | |];
    (assert (Hne : k' <> k) by (intros ->; apply Hk'; left; reflexivity));
    (rewrite IH by (intros Hin; apply Hk'; right; exact Hin));
    rewrite !find_one_marked_other by exact Hne; reflexivity.
Qed.

Lemma key_in_dec (k : key) (ks : list key) : {In k ks} + {~ In k ks}.
Proof.
  apply in_dec. intros [a b] [a' b'].
  destruct (string_dec a a') as [->|Ha]; [|right; congruence].
  destruct (string_dec b b') as [->|Hb]; [left; reflexivity | right; congruence].
Qed.

Lemma settled_status (ks : list key) (c c' : collection) :
  settled ks c c' ->
  forall k d, In k ks -> find_one k c' = Some d ->
              comb_status d = completed \/ comb_status d = failed.
Proof.
  induction 1 as [c|k ks c c' t0 t1 n Hs IH|k ks c c' t0 t1 t2 Hs IH
                  |k ks c c' t0 t1 Hs IH]; intros k' d Hin Hf;
    [contradiction| | |];
    (destruct (key_in_dec k' ks) as [Hk|Hk]; [exact (IH k' d Hk Hf)|]);
    (destruct Hin as [->|Hin]; [|contradiction]);
    rewrite (settled_other Hs _ Hk) in Hf;
    rewrite !find_one_marked_same in Hf;
    destruct (find_one k' c); cbn in Hf; inversion Hf; auto.
Qed.

Section LoopEnds.

Variable env : environment.
Variable fuel : nat.
Variables cookies_file headers_file : string.
Variable pending_count : Z.

Lemma process_settles (queue : list projected) :
  forall i n st m st',
    process_combinations env fuel cookies_file headers_file pending_count
                         i n queue st = (Returned m, st') ->
    settled (map projected_key queue) (db_combinations st) (db_combinations st').
Proof.
  induction queue as [|combo rest IH]; intros i n st m st' H.
  - inversion H; subst. constructor.
  - rewrite process_step in H. cbn [map].
    destruct (search_effect env fuel (p_location combo) (p_employee_ranges combo)
                (p_industry_id combo) (p_industry_name combo)
                cookies_file headers_file (announced pending_count i combo st))
      as [t0 [t1 Heff]].
    cbv zeta in Heff. fold (search_of env fuel cookies_file headers_file combo) in Heff.
    change (db_combinations (announced pending_count i combo st))
      with (db_combinations st) in Heff.
    fold (projected_key combo) in Heff.
    destruct (search_of env fuel cookies_file headers_file combo
                        (announced pending_count i combo st))
      as [[results|e|] st1]; cbn [fst snd] in Heff.
    + destruct Heff as [_ Hdb]. apply IH in H.
      rewrite after_success_combinations, Hdb in H.
      eapply settled_completed. exact H.
    + destruct Heff as [HE Hdb]. rewrite HE in H. apply IH in H.
      rewrite after_failure_combinations, Hdb in H.
      eapply settled_failed. exact H.
    + discriminate H.
Qed.

End LoopEnds.

Lemma unique_same_key (c : collection) (d x : combination) :
  unique_keys c -> In d c -> In x c -> key_of d = key_of x -> d = x.
Proof.
  intros Hu Hd Hx Hk.
  pose proof (@find_one_unique c d Hu Hd) as H1.
  pose proof (@find_one_unique c x Hu Hx) as H2.
  rewrite Hk in H1. congruence.
Qed.

Lemma count_status_none (s : status) (c : collection) :
  (forall d, In d c -> comb_status d <> s) -> count_status s c = 0%Z.
Proof.
  induction c as [|d c IH]; intros H; [reflexivity|].
  rewrite count_status_cons, IH by (intros x Hx; apply H; right; exact Hx).
  destruct (status_eqb (comb_status d) s) eqn:E; [|reflexivity].
  apply status_eqb_eq in E. exfalso. apply (H d); [left; reflexivity | exact E].
Qed.

Lemma reset_keeps_others (now : timestamp) (c : collection) (d : combination) :
  In d c -> comb_status d <> failed -> In d (reset_failed_store now c).
Proof.
  intros Hin Hs. unfold reset_failed_store, update_many.
  apply in_map_iff. exists d. split; [|exact Hin].
  unfold is_failed. destruct (status_eqb (comb_status d) failed) eqn:E; [|reflexivity].
  apply status_eqb_eq in E. contradiction.
Qed.

Lemma default_build_query (o : options) :
  selects_by_default o -> build_query o = pending_query.
Proof.
  intros [H1 [H2 [H3 _]]]. unfold build_query. rewrite H1, H2, H3. reflexivity.
Qed.

Lemma pending_query_matches (env : environment) (d : combination) :
  query_matches env pending_query d = true <->
  comb_status d = pending \/ comb_status d = failed.
Proof.
  unfold query_matches, pending_query. cbn.
  rewrite !andb_true_r, orb_false_r, orb_true_iff.
  split; intros [H|H]; [left|right|left|right];
    try (apply status_eqb_eq; exact H); apply status_eqb_eq in H; exact H.
Qed.

(** The collection after a loop over all pending and failed
    combinations of a collection with unique keys. *)
Lemma settled_default_queue (env : environment) (c c' : collection) :
  unique_keys c ->
  settled (map key_of (filter (query_matches env pending_query) c)) c c' ->
  count_status pending c' = 0%Z /\
  forall d, In d c -> comb_status d = in_progress \/ comb_status d = completed ->
            In d c'.
Proof.
  intros Hu Hs.
  assert (Hkeys : map key_of c' = map key_of c)
    by (eapply harvested_keys; apply settled_harvested; exact Hs).
  assert (Hu' : unique_keys c') by (unfold unique_keys; rewrite Hkeys; exact Hu).
  split.
  - apply count_status_none. intros d' Hd' Hp.
    pose proof (@find_one_unique c' d' Hu' Hd') as Hf.
    destruct (key_in_dec (key_of d')
                (map key_of (filter (query_matches env pending_query) c))) as [Hin|Hout].
    + destruct (settled_status Hs _ Hin Hf) as [H|H]; congruence.
    + rewrite (settled_other Hs _ Hout) in Hf.
      apply find_some in Hf. destruct Hf as [Hdc Hmk].
      apply Hout. apply in_map_iff. exists d'. split; [reflexivity|].
      apply filter_In. split; [exact Hdc|].
      apply pending_query_matches. left. exact Hp.
  - intros d Hd Hst.
    assert (Hout : ~ In (key_of d)
                     (map key_of (filter (query_matches env pending_query) c))).
    { intros Hin. apply in_map_iff in Hin. destruct Hin as [x [Hk Hx]].
      apply filter_In in Hx. destruct Hx as [Hxc Hq].
      apply pending_query_matches in Hq.
      assert (x = d) by (apply (@unique_same_key c x d Hu Hxc Hd Hk)). subst x.
      destruct Hst as [H|H]; destruct Hq as [H'|H']; congruence. }
    pose proof (settled_other Hs _ Hout) as Hf.
    rewrite (@find_one_unique c d Hu Hd) in Hf.
    apply find_some in Hf. apply Hf.
Qed.

(** The keys searched by a loop over all pending and failed combinations
    of a collection with unique keys: each once, all that were pending or
    failed, and every combination is either searched, and completed or
    failed, or was in progress or completed and is as it was. *)
Lemma settled_default_searched (env : environment) (c c' : collection) :
  unique_keys c ->
  settled (map key_of (filter (query_matches env pending_query) c)) c c' ->
  let searched := map key_of (filter (query_matches env pending_query) c) in
  NoDup searched /\
  (forall d, In d c -> comb_status d = pending \/ comb_status d = failed ->
             In (key_of d) searched) /\
  (forall d, In d c' -> In (key_of d) searched ->
             comb_status d = completed \/ comb_status d = failed) /\
  (forall d, In d c' -> ~ In (key_of d) searched ->
             In d c /\ (comb_status d = in_progress \/ comb_status d = completed)).
Proof.
  intros Hu Hs. cbv zeta.
  assert (Hkeys : map key_of c' = map key_of c)
    by (eapply harvested_keys; apply settled_harvested; exact Hs).
  assert (Hu' : unique_keys c') by (unfold unique_keys; rewrite Hkeys; exact Hu).
  split; [|split; [|split]].
  - apply (unique_keys_filter (query_matches env pending_query) Hu).
  - intros d Hd Hst. apply in_map. apply filter_In. split; [exact Hd|].
    apply pending_query_matches. exact Hst.
  - intros d Hd Hin.
    pose proof (@find_one_unique c' d Hu' Hd) as Hf.
    exact (settled_status Hs _ Hin Hf).
  - intros d Hd Hout.
    pose proof (@find_one_unique c' d Hu' Hd) as Hf.
    rewrite (settled_other Hs _ Hout) in Hf.
    apply find_some in Hf. destruct Hf as [Hdc _]. split; [exact Hdc|].
    destruct (comb_status d) eqn:Est; auto; exfalso; apply Hout;
      apply in_map; apply filter_In; (split; [exact Hdc|]);
      apply pending_query_matches; rewrite Est; auto.
Qed.

Lemma reset_keeps_key (now : timestamp) (c : collection) (d : combination) :
  In d c -> comb_status d = pending \/ comb_status d = failed ->
  exists d1, In d1 (reset_failed_store now c) /\ key_of d1 = key_of d /\
             comb_status d1 = pending.
Proof.
  intros Hin Hst. unfold reset_failed_store, update_many.
  exists (if is_failed d then set_pending now d else d). split; [|split].
  - apply in_map_iff. exists d. split; [reflexivity | exact Hin].
  - destruct (is_failed d); reflexivity.
  - unfold is_failed. destruct (status_eqb (comb_status d) failed) eqn:E;
      [reflexivity|].
    destruct Hst as [H|H]; [exact H|].
    rewrite H in E. discriminate E.
Qed.

Lemma reset_changes_failed_only (now : timestamp) (c : collection)
      (d1 : combination) :
  In d1 (reset_failed_store now c) -> In d1 c \/ comb_status d1 = pending.
Proof.
  unfold reset_failed_store, update_many. intros H.
  apply in_map_iff in H. destruct H as [d [E Hd]].
  destruct (is_failed d); subst d1; [right; reflexivity | left; exact Hd].
Qed.

Section DefaultRun.

Variable env : environment.
Variable fuel : nat.
Variable o : options.
Hypothesis Hdefault : selects_by_default o.

(** A run with the default selection that returns: the state after the
    reset and the generation, whose pending and failed combinations are
    the queue of the loop. *)
Lemma default_run_stages (st st' : state) (r : run_result) :
  unique_keys (db_combinations st) ->
  run env fuel o st = (Returned r, st') ->
  exists st1 st2 new,
    (db_combinations st1 = db_combinations st \/
     exists now, db_combinations st1 = reset_failed_store now (db_combinations st)) /\
    db_combinations st2 = db_combinations st1 ++ new /\
    Forall fresh_document new /\
    unique_keys (db_combinations st2) /\
    started (trace st2) = started (trace st) /\
    settled (map key_of (filter (query_matches env pending_query)
                                (db_combinations st2)))
            (db_combinations st2) (db_combinations st') /\
    started (trace st') =
    started (trace st2)
    ++ map key_of (filter (query_matches env pending_query) (db_combinations st2)).
Proof.
  intros Hu. unfold run.
  set (gen := when (negb (opt_skip_generation o)) _).
  destruct (reset_step_run env o st) as [st1 [E1 [Hs1 Hr1]]].
  assert (Hu1 : unique_keys (db_combinations st1)).
  { destruct Hr1 as [->|[now ->]]; [exact Hu|].
    unfold unique_keys. rewrite reset_keys. exact Hu. }
  unfold bind at 1. rewrite E1.
  pose proof (generation_step_extends env o st1) as [Hext _]. fold gen in Hext.
  pose proof (generation_step_same_started env o st1) as Hs2. fold gen in Hs2.
  unfold bind at 1.
  destruct (gen st1) as [[[]|e|] st2]; cbn [fst snd] in *;
    try (intros H; discriminate H).
  destruct Hext as [[new [Hnew Hfresh]] Hu2]. specialize (Hu2 Hu1).
  unfold bind at 1, get_state at 1.
  unfold filtered_combinations. rewrite (default_build_query Hdefault).
  destruct Hdefault as [_ [_ [_ Hlimit]]]. rewrite Hlimit.
  change (find_query env pending_query (db_combinations st2))
    with (Some (filter (query_matches env pending_query) (db_combinations st2))).
  cbn [apply_limit].
  remember (filter (query_matches env pending_query) (db_combinations st2))
    as queue eqn:Equeue.
  intros H. exists st1, st2, new. rewrite <- Equeue.
  split; [exact Hr1|]. split; [exact Hnew|]. split; [exact Hfresh|].
  split; [exact Hu2|]. split; [congruence|].
  destruct (Z.of_nat (length (map project queue)) =? 0)%Z eqn:Elen.
  - apply Z.eqb_eq in Elen. rewrite length_map in Elen.
    assert (Hq : queue = []) by (destruct queue; [reflexivity | discriminate]).
    inversion H; subst st'. rewrite Hq. cbn [map]. split; [constructor|].
    cbn [trace log_event]. rewrite started_app. cbn [started].
    rewrite !app_nil_r. reflexivity.
  - unfold bind at 1 in H.
    pose proof (process_started env fuel (opt_cookies_file o) (opt_headers_file o)
                  (Z.of_nat (length (map project queue))) (map project queue)
                  0%Z 0%Z st2) as Hst.
    cbv zeta in Hst.
    destruct (process_combinations _ _ _ _ _ _ _ _ _) as [[m|e|] st3] eqn:Ep;
      try discriminate H.
    inversion H; subst st'. cbn [fst snd] in Hst.
    destruct Hst as [k [Hk Hall]]. rewrite (Hall m eq_refl), queue_keys in Hk.
    apply process_settles in Ep. rewrite queue_keys in Ep.
    split; [exact Ep | exact Hk].
Qed.

Lemma default_run_searches (st st' : state) (r : run_result) :
  unique_keys (db_combinations st) ->
  run env fuel o st = (Returned r, st') ->
  (exists searched,
      started (trace st') = started (trace st) ++ searched /\
      NoDup searched /\
      (forall d, In d (db_combinations st) ->
                 comb_status d = pending \/ comb_status d = failed ->
                 In (key_of d) searched) /\
      (forall d, In d (db_combinations st') -> In (key_of d) searched ->
                 comb_status d = completed \/ comb_status d = failed) /\
      (forall d, In d (db_combinations st') -> ~ In (key_of d) searched ->
                 In d (db_combinations st) /\
                 (comb_status d = in_progress \/ comb_status d = completed))) /\
  count_status pending (db_combinations st') = 0%Z /\
  forall d, In d (db_combinations st) ->
            comb_status d = in_progress \/ comb_status d = completed ->
            In d (db_combinations st').
Proof.
  intros Hu Hrun.
  destruct (@default_run_stages st st' r Hu Hrun)
    as [st1 [st2 [new [Hr1 [Hnew [Hfresh [Hu2 [Hs2 [Hset Hstarted]]]]]]]]].
  destruct (@settled_default_searched env _ _ Hu2 Hset)
    as [Hnd [Hall [Hdone Hrest]]].
  destruct (@settled_default_queue env _ _ Hu2 Hset) as [Hp Hin].
  split; [|split; [exact Hp|]].
  - exists (map key_of (filter (query_matches env pending_query)
                               (db_combinations st2))).
    split; [rewrite Hstarted, Hs2; reflexivity|].
    split; [exact Hnd|]. split; [|split; [exact Hdone|]].
    + intros d Hd Hst.
      assert (H1 : exists d1, In d1 (db_combinations st1) /\
                              key_of d1 = key_of d /\
                              (comb_status d1 = pending \/ comb_status d1 = failed)).
      { destruct Hr1 as [E|[now E]]; rewrite E.
        - exists d. auto.
        - destruct (reset_keeps_key now _ d Hd Hst) as [d1 [H1 [H2 H3]]].
          exists d1. auto. }
      destruct H1 as [d1 [H1 [Hk H3]]]. rewrite <- Hk. apply Hall; [|exact H3].
      rewrite Hnew. apply in_or_app. left. exact H1.
    + intros d Hd Hout. destruct (Hrest d Hd Hout) as [Hd2 Hst].
      split; [|exact Hst].
      rewrite Hnew in Hd2. apply in_app_or in Hd2. destruct Hd2 as [Hd1|Hdn].
      * destruct Hr1 as [E|[now E]]; rewrite E in Hd1; [exact Hd1|].
        apply reset_changes_failed_only in Hd1.
        destruct Hd1 as [Hd1|Hpend]; [exact Hd1|].
        destruct Hst as [H|H]; rewrite H in Hpend; discriminate Hpend.
      * rewrite Forall_forall in Hfresh. destruct (Hfresh d Hdn) as [Hpend _].
        destruct Hst as [H|H]; rewrite H in Hpend; discriminate Hpend.
  - intros d Hd Hst. apply Hin; [|exact Hst].
    rewrite Hnew. apply in_or_app. left.
    destruct Hr1 as [E|[now E]]; rewrite E; [exact Hd|].
    apply reset_keeps_others; [exact Hd|].
    destruct Hst as [H|H]; rewrite H; discriminate.
Qed.

End DefaultRun.

(** X12.  A run of the command with the default selection (no
    [--status], no filter, no [--limit]) that passes the check of the two
    files and comes to its end has searched every pending or failed
    combination, when the keys of the collection are unique.  The
    searches it has started are those of a list of keys without
    repetition, in which is the key of every combination that was pending
    or failed before the run.  In the collection it leaves, a
    combination with a key of that list is completed or failed; every
    other combination was in the collection before the run, in progress
    or completed, and is as it was (so the combinations that the
    generation adds and those that the reset makes pending are searched
    too).  No combination is left pending, and one left in progress by an
    interrupted run stays so. *)
Theorem default_run_leaves_nothing_pending
        (env : environment) (fuel : nat) (o : options)
        (st st' : state) (r : run_result) :
  selects_by_default o ->
  unique_keys (db_combinations st) ->
  handle env fuel o st = (Returned r, st') ->
  r <> PreconditionFailed ->
  (exists searched,
      started (trace st') = started (trace st) ++ searched /\
      NoDup searched /\
      (forall d, In d (db_combinations st) ->
                 comb_status d = pending \/ comb_status d = failed ->
                 In (key_of d) searched) /\
      (forall d, In d (db_combinations st') -> In (key_of d) searched ->
                 comb_status d = completed \/ comb_status d = failed) /\
      (forall d, In d (db_combinations st') -> ~ In (key_of d) searched ->
                 In d (db_combinations st) /\
                 (comb_status d = in_progress \/ comb_status d = completed))) /\
  count_status pending (db_combinations st') = 0%Z /\
  forall d, In d (db_combinations st) ->
            comb_status d = in_progress \/ comb_status d = completed ->
            In d (db_combinations st').
Proof.
  intros Hdef Hu H Hr. unfold handle in H. cbv zeta in H.
  destruct (negb (os_path_exists env (opt_cookies_file o))).
  { inversion H; subst. contradiction. }
  destruct (negb (os_path_exists env (opt_headers_file o))).
  { inversion H; subst. contradiction. }
  eapply default_run_searches; eassumption.
Qed.

(** X12, on the scenario with one combination left in progress and one
    failed: the run generates the two other combinations and searches
    them after the failed one; the stale one stays as it is. *)
Lemma default_run_leaves_nothing_pending_witness :
  let st := state_of [nyc_tech in_progress None;
                      mkCombination "LA" "1-10, 10-20, 20-50, 50-100, 100-200"
                                    "h1" "Health" failed None 0%Z 1%Z] in
  let st' := snd (handle scenario 5 default_options st) in
  started (trace st') = [("LA", "Health"); ("NYC", "Health"); ("LA", "Tech")] /\
  count_status pending (db_combinations st') = 0%Z /\
  In (nyc_tech in_progress None) (db_combinations st').
Proof.
  cbv zeta.
  destruct (@default_run_leaves_nothing_pending scenario 5 default_options
              (state_of [nyc_tech in_progress None;
                         mkCombination "LA" "1-10, 10-20, 20-50, 50-100, 100-200"
                                       "h1" "Health" failed None 0%Z 1%Z])
              (snd (handle scenario 5 default_options
                      (state_of [nyc_tech in_progress None;
                                 mkCombination "LA"
                                   "1-10, 10-20, 20-50, 50-100, 100-200"
                                   "h1" "Health" failed None 0%Z 1%Z])))
              AllProcessed) as [_ [Hp Hkept]].
  - repeat split.
  - repeat constructor; cbn; intuition discriminate.
  - vm_compute. reflexivity.
  - discriminate.
  - split; [vm_compute; reflexivity|]. split; [exact Hp|].
    apply Hkept; [left; reflexivity | left; reflexivity].
Defined.

(* ===================================================================== *)
(** * 45. How [main] ends                                                *)
(* ===================================================================== *)

Section MainEnds.

Variable env : environment.
Variable fuel : nat.

Lemma main_loop_ends (pending_count : Z) (queue : list projected) :
  forall processed st out st',
    main_loop env fuel pending_count processed queue st = (out, st') ->
    match out with
    | Returned _ =>
        settled (map projected_key queue) (db_combinations st) (db_combinations st')
    | Raised _ => False
    | OutOfFuel => True
    end.
Proof.
  induction queue as [|combo rest IH]; intros processed st out st' H.
  - inversion H; subst. constructor.
  - cbn [main_loop map] in H |- *.
    unfold bind at 1, try_except at 1, bind at 1 in H.
    destruct (search_effect env fuel (p_location combo) (p_employee_ranges combo)
                (p_industry_id combo) (p_industry_name combo)
                "data/cookies.json" "data/headers.json" st)
      as [t0 [t1 Heff]].
    cbv zeta in Heff. fold (projected_key combo) in Heff.
    destruct (search_apollo_and_save_to_mongodb _ _ _ _ _ _ _ _ _)
      as [[results|e|] st1]; cbn [fst snd] in Heff.
    + destruct Heff as [_ Hdb]. unfold ret at 1 in H. unfold when in H.
      destruct (processed + 1 <? pending_count)%Z.
      * unfold bind at 1, modify at 1 in H. apply IH in H.
        destruct out; auto.
        eapply settled_completed. rewrite <- Hdb. exact H.
      * unfold bind at 1, ret at 1 in H. apply IH in H.
        destruct out; auto.
        eapply settled_completed. rewrite <- Hdb. exact H.
    + destruct Heff as [HE Hdb]. rewrite HE in H. unfold ret at 1 in H.
      apply IH in H. destruct out; auto.
      eapply settled_failed_once. rewrite <- Hdb. exact H.
    + inversion H; subst. exact I.
Qed.

End MainEnds.

Lemma count_status_zero (s : status) (c : collection) (d : combination) :
  count_status s c = 0%Z -> In d c -> comb_status d <> s.
Proof.
  induction c as [|x c IH]; intros H Hin; [contradiction|].
  rewrite count_status_cons in H.
  pose proof (count_status_nonneg s c) as Hn.
  destruct (status_eqb (comb_status x) s) eqn:E; [lia|].
  destruct Hin as [->|Hin].
  - apply status_eqb_neq. exact E.
  - apply IH; [lia | exact Hin].
Qed.

Lemma nothing_pending_iff (env : environment) (c : collection) :
  filter (query_matches env pending_query) c = [] <->
  count_status pending c = 0%Z /\ count_status failed c = 0%Z.
Proof.
  split.
  - intros H. split; apply count_status_none; intros d Hd Hs;
      (assert (Hin : In d (filter (query_matches env pending_query) c))
        by (apply filter_In; split; [exact Hd|];
            apply pending_query_matches; auto));
      rewrite H in Hin; contradiction.
  - intros [Hp Hf].
    destruct (filter (query_matches env pending_query) c) as [|d l] eqn:E;
      [reflexivity|].
    assert (Hin : In d (filter (query_matches env pending_query) c))
      by (rewrite E; left; reflexivity).
    apply filter_In in Hin. destruct Hin as [Hd Hq].
    apply pending_query_matches in Hq. exfalso.
    destruct Hq as [Hq|Hq].
    + exact (@count_status_zero pending c d Hp Hd Hq).
    + exact (@count_status_zero failed c d Hf Hd Hq).
Qed.

(** X13.  [main] raises nothing but what a read of the data files of the
    generation raises, which it raises before anything else is done, and
    [SystemExit(0)].  When the files are read it raises [SystemExit(0)]
    exactly when the generation leaves no pending and no failed
    combination; it then has made no request and written nothing after
    the generation.  Otherwise no exception of a search reaches its
    caller, and when it returns on a collection with unique keys, no
    combination is pending any more. *)
Theorem main_exits_only_when_nothing_is_pending
        (env : environment) (fuel : nat) (st : state) :
  let generated := snd (generate_combinations_from_files env st) in
  let r := main env fuel st in
  match data_files_error env with
  | Some e => r = (Raised e, st)
  | None =>
      (forall e, fst r = Raised e -> e = SystemExit 0 /\ snd r = generated) /\
      (fst r = Raised (SystemExit 0) <->
       count_status pending (db_combinations generated) = 0%Z /\
       count_status failed (db_combinations generated) = 0%Z)
  end /\
  (unique_keys (db_combinations st) -> fst r = Returned tt ->
   count_status pending (db_combinations (snd r)) = 0%Z).
Proof.
  cbv zeta.
  pose proof (generate_combinations_from_files_run env st) as Hread.
  destruct (data_files_error env) as [e0|] eqn:Efiles.
  { assert (Hmain : main env fuel st = (Raised e0, st))
      by (unfold main; unfold bind at 1; rewrite Hread; reflexivity).
    rewrite Hmain. split; [reflexivity|]. intros _ H. discriminate H. }
  destruct (generate_combinations_returns env st) as [stats [stg [Eg _]]].
  pose proof (generate_combinations_extends env st) as [Hext _].
  rewrite Eg in Hread.
  assert (Hmain : main env fuel st =
                  if (Z.of_nat (length (map project
                        (filter (query_matches env pending_query) (db_combinations stg))))
                      =? 0)%Z
                  then (Raised (SystemExit 0), stg)
                  else main_loop env fuel
                         (Z.of_nat (length (map project
                            (filter (query_matches env pending_query)
                                    (db_combinations stg)))))
                         0%Z
                         (map project
                            (filter (query_matches env pending_query)
                                    (db_combinations stg)))
                         stg).
  { unfold main. unfold bind at 1. rewrite Hread. unfold bind at 1, get_state at 1.
    cbv zeta. destruct (_ =? 0)%Z; reflexivity. }
  rewrite Hmain, Hread. clear Hmain. rewrite Eg in Hext. cbn [fst snd] in *.
  set (queue := filter (query_matches env pending_query) (db_combinations stg)).
  pose proof (nothing_pending_iff env (db_combinations stg)) as Hiff.
  fold queue in Hiff.
  destruct (Z.of_nat (length (map project queue)) =? 0)%Z eqn:Elen.
  - apply Z.eqb_eq in Elen. rewrite length_map in Elen.
    assert (Hq : queue = []) by (destruct queue; [reflexivity | discriminate]).
    cbn. split; [split|].
    + intros e H. inversion H. split; reflexivity.
    + split; [intros _; apply Hiff; exact Hq | reflexivity].
    + intros _ H. discriminate.
  - apply Z.eqb_neq in Elen. rewrite length_map in Elen.
    assert (Hq : queue <> []) by (intros H; rewrite H in Elen; apply Elen; reflexivity).
    destruct (main_loop env fuel (Z.of_nat (length (map project queue))) 0
                        (map project queue) stg) as [out st2] eqn:El.
    apply main_loop_ends in El. cbn [fst snd].
    destruct out as [[]|e|].
    + split; [split|].
      * intros e H; discriminate.
      * split; [discriminate|]. intros H. apply Hiff in H. contradiction.
      * intros Hu _. rewrite queue_keys in El.
        destruct Hext as [_ Hu'].
        exact (proj1 (@settled_default_queue env _ _ (Hu' Hu) El)).
    + contradiction.
    + split; [split|].
      * intros e H; discriminate.
      * split; [discriminate|]. intros H. apply Hiff in H. contradiction.
      * intros _ H. discriminate.
Qed.

(** X13, on the scenario without the file of the cities: [main] raises
    what [open] raises, and nothing is written. *)
Lemma main_exits_only_when_nothing_is_pending_witness :
  main without_cities 5 (state_of stray)
  = (Raised (FileNotFoundError "data/all_Cities.csv"), state_of stray).
Proof.
  exact (proj1 (main_exits_only_when_nothing_is_pending
                  without_cities 5 (state_of stray))).
Defined.

(* ===================================================================== *)
(** * 46. The pages of the list view                                     *)
(* ===================================================================== *)

Lemma get_all_page (page_size skip : Z) (c : list organization_doc) :
  (0 < page_size)%Z -> (0 <= skip)%Z ->
  Api.get_all (Some page_size) (Some skip) c =
  Some (firstn (Z.to_nat page_size) (skipn (Z.to_nat skip) c)).
Proof.
  intros Hp Hs. unfold Api.get_all, Api.cursor_skip, Api.cursor_limit.
  assert (E1 : (page_size =? 0)%Z = false) by (apply Z.eqb_neq; lia).
  assert (E2 : (page_size <? 0)%Z = false) by (apply Z.ltb_ge; lia).
  assert (E3 : (skip <? 0)%Z = false) by (apply Z.ltb_ge; lia).
  rewrite E1. destruct (skip =? 0)%Z eqn:E0.
  - apply Z.eqb_eq in E0. subst skip. rewrite E2. reflexivity.
  - rewrite E3, E2. reflexivity.
Qed.

Lemma skipn_nothing_left (n : nat) (c : list organization_doc) :
  skipn n c = [] <-> length c <= n.
Proof.
  split.
  - intros H. pose proof (length_skipn n c) as Hl. rewrite H in Hl. cbn in Hl. lia.
  - intros H. apply length_zero_iff_nil. rewrite length_skipn. lia.
Qed.

(** X14.  With a positive [page_size] and a page from 1 on, the list view
    answers with the documents of that page in store order, and the pages
    tile the collection: what precedes the page, the page and what
    follows it make up the collection, so following [next] from page 1
    shows every organization once.  [next] is absent exactly when nothing
    follows the page, [previous] exactly on page 1, and [count] is the
    size of the collection. *)
Theorem list_pages_tile_the_collection
        (page_size page : Z) (st : state) :
  (0 < page_size)%Z -> (1 <= page)%Z ->
  let c := db_organization st in
  let before := Z.to_nat ((page - 1) * page_size) in
  let upto := Z.to_nat (page * page_size) in
  exists resp,
    Api.list_get (Some page_size) (Some page) st = (Returned (Some resp), st) /\
    Api.lr_count resp = Z.of_nat (length c) /\
    Api.lr_results resp = firstn (Z.to_nat page_size) (skipn before c) /\
    firstn before c ++ Api.lr_results resp ++ skipn upto c = c /\
    (Api.lr_next resp = None <-> skipn upto c = []) /\
    (forall l, Api.lr_next resp = Some l -> l = Api.mkLink (page + 1) page_size) /\
    (Api.lr_previous resp = None <-> page = 1%Z) /\
    (forall l, Api.lr_previous resp = Some l -> l = Api.mkLink (page - 1) page_size).
Proof.
  intros Hp Hpage. cbv zeta.
  assert (Hskip : (0 <= (page - 1) * page_size)%Z) by nia.
  assert (Hupto : Z.to_nat (page * page_size) =
                  Z.to_nat ((page - 1) * page_size) + Z.to_nat page_size).
  { rewrite <- Z2Nat.inj_add by lia. f_equal. lia. }
  unfold Api.list_get, bind, get_state.
  rewrite (get_all_page (db_organization st) Hp Hskip).
  eexists. split; [reflexivity|]. cbn [Api.lr_count Api.lr_results Api.lr_next
                                        Api.lr_previous].
  split; [reflexivity|]. split; [reflexivity|]. split; [|split; [|split; [|split]]].
  - rewrite Hupto, Nat.add_comm, <- skipn_skipn, firstn_skipn, firstn_skipn.
    reflexivity.
  - rewrite skipn_nothing_left.
    destruct ((page - 1) * page_size + page_size <?
              Z.of_nat (length (db_organization st)))%Z eqn:E.
    + apply Z.ltb_lt in E. split; [discriminate | intros H; lia].
    + apply Z.ltb_ge in E. split; [intros _; lia | reflexivity].
  - intros l. destruct (_ <? _)%Z; [|discriminate].
    intros H. inversion H. reflexivity.
  - destruct (page >? 1)%Z eqn:E.
    + apply Z.gtb_lt in E. split; [discriminate | intros H; lia].
    + split; [intros _|reflexivity].
      pose proof (Zgt_cases page 1) as H. rewrite E in H. lia.
  - intros l. destruct (page >? 1)%Z; [|discriminate].
    intros H. inversion H. reflexivity.
Qed.

(** X14, on a store of three organizations: the second page of size two
    holds the third organization and is the last. *)
Lemma list_pages_tile_the_collection_witness :
  let c := db_organization three_organizations in
  exists resp,
    Api.list_get (Some 2%Z) (Some 2%Z) three_organizations =
    (Returned (Some resp), three_organizations) /\
    Api.lr_count resp = Z.of_nat (length c) /\
    Api.lr_results resp = firstn (Z.to_nat 2) (skipn (Z.to_nat ((2 - 1) * 2)) c) /\
    firstn (Z.to_nat ((2 - 1) * 2)) c ++ Api.lr_results resp
      ++ skipn (Z.to_nat (2 * 2)) c = c /\
    (Api.lr_next resp = None <-> skipn (Z.to_nat (2 * 2)) c = []) /\
    (forall l, Api.lr_next resp = Some l -> l = Api.mkLink (2 + 1) 2) /\
    (Api.lr_previous resp = None <-> 2%Z = 1%Z) /\
    (forall l, Api.lr_previous resp = Some l -> l = Api.mkLink (2 - 1) 2).
Proof.
  apply (@list_pages_tile_the_collection 2%Z 2%Z three_organizations); lia.
Defined.

(** X15.  With [page_size=0] the list view neither skips nor limits:
    every page, whatever its number, shows the whole collection, and
    [next] is present unless the collection is empty, so a client that
    follows [next] never comes to an end. *)
Theorem list_page_size_zero_never_ends (query_page : option Z) (st : state) :
  exists resp,
    Api.list_get (Some 0%Z) query_page st = (Returned (Some resp), st) /\
    Api.lr_results resp = db_organization st /\
    (Api.lr_next resp = None <-> db_organization st = []) /\
    (forall l, Api.lr_next resp = Some l -> Api.link_page_size l = 0%Z).
Proof.
  unfold Api.list_get, bind, get_state. cbv zeta.
  set (page := match query_page with Some n => n | None => 1%Z end).
  replace ((page - 1) * 0)%Z with 0%Z by lia.
  cbn [Api.get_all Z.eqb]. eexists. split; [reflexivity|].
  cbn [Api.lr_results Api.lr_next]. split; [reflexivity|].
  destruct (db_organization st) as [|d c].
  - cbn. split; [split; reflexivity | intros l H; discriminate].
  - replace (0 + 0 <? Z.of_nat (length (d :: c)))%Z with true
      by (symmetry; apply Z.ltb_lt; cbn [length]; lia).
    split; [split; discriminate|]. intros l H. inversion H. reflexivity.
Qed.

(* ===================================================================== *)
(** * 47. Deleting an organization                                       *)
(* ===================================================================== *)

Lemma without_oid_absent (i : object_id) (c : list organization_doc) :
  ~ In i (map fst c) -> without_oid i c = c.
Proof.
  induction c as [|d c IH]; intros H; [reflexivity|].
  unfold without_oid in *. cbn [filter]. unfold Api.has_oid at 1.
  destruct (N.eqb (fst d) i) eqn:E.
  - apply N.eqb_eq in E. exfalso. apply H. left. exact E.
  - cbn [negb]. rewrite IH; [reflexivity|]. intros Hin. apply H. right. exact Hin.
Qed.

Lemma delete_by_oid_unique (i : object_id) (c : list organization_doc) :
  NoDup (map fst c) ->
  Api.delete_by_oid i c = without_oid i c /\
  (In i (map fst c) -> length (without_oid i c) + 1 = length c).
Proof.
  induction c as [|d c IH]; intros Hnd; [split; [reflexivity | intros []]|].
  cbn [map] in Hnd. inversion Hnd as [|? ? Hnotin Hnd']; subst.
  destruct (IH Hnd') as [IH1 IH2].
  cbn [Api.delete_by_oid]. unfold without_oid in *. cbn [filter].
  destruct (Api.has_oid i d) eqn:E; cbn [negb]; unfold Api.has_oid in E.
  - apply N.eqb_eq in E. subst i.
    fold (without_oid (fst d) c). rewrite (@without_oid_absent (fst d) c Hnotin).
    split; [reflexivity|]. intros _. cbn [length]. lia.
  - rewrite IH1. split; [reflexivity|].
    intros [H|H]; [apply N.eqb_neq in E; contradiction|].
    cbn [length]. rewrite <- (IH2 H). lia.
Qed.

Lemma find_without_oid (i j : object_id) (c : list organization_doc) :
  find (Api.has_oid j) (without_oid i c) =
  if N.eqb j i then None else find (Api.has_oid j) c.
Proof.
  induction c as [|d c IH].
  - cbn. destruct (N.eqb j i); reflexivity.
  - unfold without_oid in *. cbn [filter find].
    destruct (Api.has_oid i d) eqn:Ei; destruct (Api.has_oid j d) eqn:Ed;
      cbn [negb find]; rewrite ?Ed, ?IH; unfold Api.has_oid in Ei, Ed;
      destruct (N.eqb j i) eqn:Ej; try reflexivity.
    + apply N.eqb_eq in Ei, Ed. apply N.eqb_neq in Ej. congruence.
    + apply N.eqb_eq in Ej, Ed. apply N.eqb_neq in Ei. congruence.
Qed.

(** X16.  Deleting a stored organization through the detail view, on a
    collection whose [_id]s are unique: the view answers 204, exactly that
    document is removed and all others stay in place, a following GET,
    PUT or DELETE of the same id answers 404, and every other id is
    answered as before.  The combinations are not touched. *)
Theorem deleted_organization_is_gone
        (ObjectId : string -> exn + object_id)
        (org_id : string) (i : object_id) (st : state) :
  NoDup (map fst (db_organization st)) ->
  ObjectId org_id = inr i ->
  In i (map fst (db_organization st)) ->
  exists st',
    Api.detail_delete ObjectId org_id st =
    (Returned (Api.mkResponseOf Api.HTTP_204_NO_CONTENT Api.NoData), st') /\
    db_organization st' = without_oid i (db_organization st) /\
    length (db_organization st') + 1 = length (db_organization st) /\
    db_combinations st' = db_combinations st /\
    Api.detail_get ObjectId org_id st' = (Returned Api.not_found, st') /\
    Api.detail_delete ObjectId org_id st' = (Returned Api.not_found, st') /\
    (forall request_data,
        Api.detail_put ObjectId request_data org_id st' =
        (Returned Api.not_found, st')) /\
    (forall other j,
        ObjectId other = inr j -> j <> i ->
        fst (Api.detail_get ObjectId other st') =
        fst (Api.detail_get ObjectId other st)).
Proof.
  intros Hnd Hid Hin.
  destruct (@delete_by_oid_unique i (db_organization st) Hnd) as [Hdel Hlen].
  assert (Hfound : exists d, find (Api.has_oid i) (db_organization st) = Some d).
  { apply in_map_iff in Hin. destruct Hin as [d [Hd Hdin]].
    destruct (find (Api.has_oid i) (db_organization st)) as [x|] eqn:E;
      [eexists; reflexivity|].
    exfalso. apply (find_none _ _ E) in Hdin. unfold Api.has_oid in Hdin.
    rewrite Hd, N.eqb_refl in Hdin. discriminate. }
  destruct Hfound as [d Hd].
  set (st' := with_organization (without_oid i (db_organization st)) st).
  assert (Hgone : Api.get_by_id ObjectId org_id st' = (Returned None, st')).
  { rewrite get_by_id_returns, Hid. unfold st'. cbn [db_organization with_organization].
    rewrite find_without_oid, N.eqb_refl. reflexivity. }
  exists st'. split; [|split; [|split; [|split; [|split; [|split; [|split]]]]]].
  - unfold Api.detail_delete, bind.
    rewrite get_object_returns, get_by_id_returns, Hid, Hd.
    unfold Api.delete, Api.new_ObjectId, bind. rewrite Hid.
    unfold ret, modify. rewrite Hdel. reflexivity.
  - reflexivity.
  - unfold st'. cbn [db_organization with_organization]. apply Hlen. exact Hin.
  - reflexivity.
  - unfold Api.detail_get, bind. rewrite get_object_returns, Hgone. reflexivity.
  - unfold Api.detail_delete, bind. rewrite get_object_returns, Hgone. reflexivity.
  - intros request_data. unfold Api.detail_put, bind.
    rewrite get_object_returns, Hgone. reflexivity.
  - intros other j Hj Hne. unfold Api.detail_get, bind.
    rewrite !get_object_returns, !get_by_id_returns, Hj.
    unfold st'. cbn [db_organization with_organization].
    rewrite find_without_oid.
    replace (N.eqb j i) with false by (symmetry; apply N.eqb_neq; exact Hne).
    destruct (find (Api.has_oid j) (db_organization st)); reflexivity.
Qed.

(** X16, on the store of three organizations and the id [0x0a] of the
    first, as the driver reads 24 hexadecimal digits. *)
Lemma deleted_organization_is_gone_witness :
  let org_id := "00000000000000000000000a" in
  let st := three_organizations in
  exists st',
    Api.detail_delete Api.ObjectId_hex org_id st =
    (Returned (Api.mkResponseOf Api.HTTP_204_NO_CONTENT Api.NoData), st') /\
    db_organization st' = without_oid 10%N (db_organization st) /\
    length (db_organization st') + 1 = length (db_organization st) /\
    db_combinations st' = db_combinations st /\
    Api.detail_get Api.ObjectId_hex org_id st' = (Returned Api.not_found, st') /\
    Api.detail_delete Api.ObjectId_hex org_id st' = (Returned Api.not_found, st') /\
    (forall request_data,
        Api.detail_put Api.ObjectId_hex request_data org_id st' =
        (Returned Api.not_found, st')) /\
    (forall other j,
        Api.ObjectId_hex other = inr j -> j <> 10%N ->
        fst (Api.detail_get Api.ObjectId_hex other st') =
        fst (Api.detail_get Api.ObjectId_hex other st)).
Proof.
  cbv zeta.
  apply (@deleted_organization_is_gone Api.ObjectId_hex
           "00000000000000000000000a" 10%N three_organizations).
  - repeat constructor; cbn; intuition discriminate.
  - vm_compute. reflexivity.
  - cbn. left. reflexivity.
Defined.

(* ===================================================================== *)
(** * 48. The edges of the work selector                                 *)
(* ===================================================================== *)

Lemma apply_limit_idle (n : Z) (l : list combination) :
  (n <= 0)%Z \/ (Z.of_nat (length l) <= n)%Z -> apply_limit (Some n) l = l.
Proof.
  intros H. unfold apply_limit.
  destruct (negb (n =? 0)%Z && (n >? 0)%Z && (n <? Z.of_nat (length l))%Z) eqn:E;
    [|reflexivity].
  apply andb_true_iff in E. destruct E as [E E3].
  apply andb_true_iff in E. destruct E as [_ E2].
  apply Z.ltb_lt in E3. apply Z.gtb_lt in E2. lia.
Qed.

Lemma apply_limit_shortens (limit : option Z) (l : list combination) :
  length (apply_limit limit l) <= length l.
Proof.
  unfold apply_limit. destruct limit as [n|]; [|lia].
  destruct (negb (n =? 0)%Z && (n >? 0)%Z && (n <? Z.of_nat (length l))%Z);
    [|lia].
  rewrite length_firstn. lia.
Qed.

(** X17.  The work selector depends on the options only through
    [--status], [--limit] and the non-empty filters: an empty
    [--location] or [--industry] selects as none does, and the other
    options play no part.  The selector has an answer unless the server
    rejects the pattern of a non-empty filter.  In its answer a limit
    that is zero, negative or not smaller than the number of matching
    combinations is ignored, so [--limit 0] selects everything, the
    answer is never longer than the list of matching combinations, and
    on a collection with unique keys no combination is selected twice.
    When the server rejects a filter, the command raises
    [OperationFailure] once it has found its two files and, unless it is
    skipped, the generation has read its data files; it has then started
    no search. *)
Theorem selector_ignores_empty_filters_and_idle_limits
        (env : environment) (o : options) (c : collection) :
  let matching := filter (query_matches env (build_query o)) c in
  (forall o2,
      truthy (opt_location o2) = truthy (opt_location o) ->
      truthy (opt_industry o2) = truthy (opt_industry o) ->
      opt_status o2 = opt_status o ->
      opt_limit o2 = opt_limit o ->
      selected_documents env o2 c = selected_documents env o c /\
      filtered_combinations env o2 c = filtered_combinations env o c) /\
  match selected_documents env o c with
  | Some selected =>
      ~ (rejected env (opt_location o) \/ rejected env (opt_industry o)) /\
      (forall n, opt_limit o = Some n ->
                 (n <= 0)%Z \/ (Z.of_nat (length matching) <= n)%Z ->
                 selected = matching) /\
      (opt_limit o = None -> selected = matching) /\
      length selected <= length matching /\
      (unique_keys c -> NoDup (map key_of selected))
  | None =>
      (rejected env (opt_location o) \/ rejected env (opt_industry o)) /\
      forall fuel st,
        os_path_exists env (opt_cookies_file o) = true ->
        os_path_exists env (opt_headers_file o) = true ->
        opt_skip_generation o = true \/ data_files_error env = None ->
        fst (handle env fuel o st) = Raised OperationFailure /\
        started (trace (snd (handle env fuel o st))) = started (trace st)
  end.
Proof.
  cbv zeta. split.
  - intros o2 H1 H2 H3 H4.
    assert (Hq : build_query o2 = build_query o).
    { unfold build_query. rewrite H1, H2, H3. reflexivity. }
    unfold selected_documents, filtered_combinations. rewrite Hq, H4.
    split; reflexivity.
  - pose proof (selected_documents_rejected env o c) as Hrej.
    destruct (selected_documents env o c) as [selected|] eqn:H.
    + apply selected_documents_answer in H. subst selected.
      split; [|split; [|split; [|split]]].
      * intros Hr. apply Hrej in Hr. discriminate Hr.
      * intros n Hn Hidle. rewrite Hn. apply apply_limit_idle. exact Hidle.
      * intros Hn. rewrite Hn. reflexivity.
      * apply apply_limit_shortens.
      * intros Hu. apply unique_keys_apply_limit. apply unique_keys_filter. exact Hu.
    + assert (Hr : rejected env (opt_location o) \/ rejected env (opt_industry o))
        by (apply Hrej; reflexivity).
      split; [exact Hr|]. intros fuel st Hc Hh Hg.
      apply handle_rejects; assumption.
Qed.

(** X17, on the scenario: [--location "("] is no regular expression, and
    the command raises once the four combinations are generated. *)
Lemma selector_rejected_witness :
  let r := handle scenario 5 (with_location "(" default_options) initial_state in
  fst r = Raised OperationFailure /\
  length (db_combinations (snd r)) = 4 /\
  started (trace (snd r)) = [].
Proof.
  cbv zeta.
  pose proof (proj2 (selector_ignores_empty_filters_and_idle_limits
                       scenario (with_location "(" default_options) [])) as H.
  cbv zeta in H.
  change (selected_documents scenario (with_location "(" default_options) [])
    with (@None (list combination)) in H.
  destruct H as [_ H].
  destruct (H 5 initial_state eq_refl eq_refl (or_intror eq_refl)) as [H1 H2].
  split; [exact H1|]. split; [vm_compute; reflexivity | exact H2].
Defined.

(* ===================================================================== *)
(** * 49. The set of completed combinations                              *)
(* ===================================================================== *)

Lemma set_add_spec (k : key) (s : list key) :
  (NoDup s -> NoDup (set_add k s)) /\
  forall x, In x (set_add k s) <-> In x s \/ x = k.
Proof.
  unfold set_add. destruct (existsb (key_eqb k) s) eqn:E.
  - split; [auto|]. intros x. split; [auto|]. intros [H|H]; [exact H|].
    subst x. apply existsb_exists in E. destruct E as [y [Hy Hk]].
    apply key_eqb_eq in Hk. subst y. exact Hy.
  - split.
    + intros Hs. apply NoDup_app; [exact Hs | constructor; [intros []|constructor] |].
      intros x Hx [Hk|[]]. subst x.
      assert (Hex : existsb (key_eqb k) s = true).
      { apply existsb_exists. exists k. split; [exact Hx | apply key_eqb_refl]. }
      congruence.
    + intros x. rewrite in_app_iff. cbn [In]. intuition auto.
Qed.

Lemma fold_set_add (l : list combination) :
  forall acc,
    let s := fold_left (fun a combo => set_add (location combo, industry_name combo) a)
                       l acc in
    (NoDup acc -> NoDup s) /\
    forall x, In x s <-> In x acc \/ In x (map key_of l).
Proof.
  induction l as [|d l IH]; intros acc; cbv zeta.
  - cbn. split; [auto|]. intros x. intuition auto.
  - cbn [fold_left map].
    destruct (IH (set_add (location d, industry_name d) acc)) as [IH1 IH2].
    destruct (set_add_spec (location d, industry_name d) acc) as [S1 S2].
    split; [auto|]. intros x. rewrite IH2, S2. cbn [In]. unfold key_of.
    intuition auto.
Qed.

Lemma completed_set_spec (st : state) :
  get_completed_combinations st = (Returned (completed_set st), st) /\
  NoDup (completed_set st) /\
  forall k, In k (completed_set st) <-> completed_key k (db_combinations st).
Proof.
  unfold completed_set, get_completed_combinations, bind, get_state, ret.
  cbn [fst]. split; [reflexivity|].
  destruct (fold_set_add
              (filter (fun d => status_eqb (comb_status d) completed)
                      (db_combinations st)) []) as [H1 H2].
  cbv zeta in H1, H2. split; [apply H1; constructor|].
  intros k. rewrite H2. unfold completed_key. split.
  - intros [[]|H]. apply in_map_iff in H. destruct H as [d [Hk Hd]].
    apply filter_In in Hd. destruct Hd as [Hd Hs]. apply status_eqb_eq in Hs.
    exists d. auto.
  - intros [d [Hd [Hk Hs]]]. right. apply in_map_iff. exists d.
    split; [exact Hk|]. apply filter_In. split; [exact Hd|].
    apply status_eqb_eq. exact Hs.
Qed.

Lemma completed_key_marked_other (k k0 : key) s now rc (c : collection) :
  k <> k0 -> (completed_key k (marked k0 s now rc c) <-> completed_key k c).
Proof.
  intros Hne. unfold marked, completed_key.
  induction c as [|d c IH]; [reflexivity|].
  cbn [update_one]. destruct (matches_key k0 d) eqn:E.
  - apply matches_key_true in E. split; intros [x [[Hx|Hx] [Hk Hs]]].
    + subst x. rewrite key_of_set_update_data in Hk. congruence.
    + exists x. split; [right; exact Hx | auto].
    + subst x. congruence.
    + exists x. split; [right; exact Hx | auto].
  - split; intros [x [[Hx|Hx] [Hk Hs]]].
    + exists x. split; [left; exact Hx | auto].
    + destruct (proj1 IH) as [y [Hy Hy']]; [exists x; auto|].
      exists y. split; [right; exact Hy | exact Hy'].
    + exists x. split; [left; exact Hx | auto].
    + destruct (proj2 IH) as [y [Hy Hy']]; [exists x; auto|].
      exists y. split; [right; exact Hy | exact Hy'].
Qed.

Lemma completed_key_marked_completed (k : key) now rc (c : collection) :
  find_one k c <> None -> completed_key k (marked k completed now rc c).
Proof.
  intros Hf.
  pose proof (find_one_marked_same k completed now rc c) as H.
  destruct (find_one k c) as [d|]; [|contradiction]. cbn [option_map] in H.
  apply find_some in H. destruct H as [Hin Hk].
  apply matches_key_true in Hk.
  eexists. split; [exact Hin|]. split; [exact Hk | reflexivity].
Qed.

Lemma completed_key_marked_failed (k : key) now rc (c : collection) :
  unique_keys c -> ~ completed_key k (marked k failed now rc c).
Proof.
  intros Hu [d [Hd [Hk Hs]]].
  pose proof (@find_one_unique (marked k failed now rc c) d
                (unique_keys_marked k failed now rc Hu) Hd) as Hf.
  rewrite Hk, find_one_marked_same in Hf.
  destruct (find_one k c); cbn in Hf; inversion Hf; subst. cbn in Hs. discriminate.
Qed.

(** X18.  [get_completed_combinations] returns, without writing
    anything, the set of the pairs that have a completed document, each
    once.  A search changes that set at its own pair only: a search that
    returns on a stored combination puts the pair into the set, and a
    search that fails leaves it out of the set when the keys are
    unique. *)
Theorem completed_set_follows_the_searches
        (env : environment) (fuel : nat)
        (loc ranges ind_id ind cookies_file headers_file : string) (st : state) :
  let r := search_apollo_and_save_to_mongodb env fuel loc ranges ind_id ind
             cookies_file headers_file st in
  get_completed_combinations st = (Returned (completed_set st), st) /\
  NoDup (completed_set st) /\
  (forall k, In k (completed_set st) <-> completed_key k (db_combinations st)) /\
  (forall k, k <> (loc, ind) ->
             (In k (completed_set (snd r)) <-> In k (completed_set st))) /\
  (find_one (loc, ind) (db_combinations st) <> None ->
   forall n, fst r = Returned n -> In (loc, ind) (completed_set (snd r))) /\
  (unique_keys (db_combinations st) ->
   forall e, fst r = Raised e -> ~ In (loc, ind) (completed_set (snd r))).
Proof.
  cbv zeta.
  destruct (completed_set_spec st) as [H1 [H2 H3]].
  split; [exact H1|]. split; [exact H2|]. split; [exact H3|].
  destruct (search_effect env fuel loc ranges ind_id ind cookies_file headers_file st)
    as [t0 [t1 Heff]].
  cbv zeta in Heff.
  set (r := search_apollo_and_save_to_mongodb env fuel loc ranges ind_id ind
              cookies_file headers_file st) in *.
  destruct (completed_set_spec (snd r)) as [_ [_ H3']].
  split; [|split].
  - intros k Hk. rewrite H3', H3.
    destruct (fst r) as [n|e|].
    + destruct Heff as [_ ->]. rewrite !completed_key_marked_other by exact Hk.
      reflexivity.
    + destruct Heff as [_ ->]. rewrite !completed_key_marked_other by exact Hk.
      reflexivity.
    + rewrite Heff. rewrite completed_key_marked_other by exact Hk. reflexivity.
  - intros Hf n Hn. rewrite Hn in Heff. destruct Heff as [_ Hdb].
    apply H3'. rewrite Hdb. apply completed_key_marked_completed.
    rewrite find_one_marked_same. destruct (find_one (loc, ind) (db_combinations st));
      [discriminate | contradiction].
  - intros Hu e He. rewrite He in Heff. destruct Heff as [_ Hdb].
    rewrite H3', Hdb. apply completed_key_marked_failed.
    apply unique_keys_marked. exact Hu.
Qed.

(* ===================================================================== *)
(** * 50. A search without its two files                                 *)
(* ===================================================================== *)

(** X19.  A search whose cookies file or headers file is missing or is
    not JSON fails before any request: it raises [FileNotFoundError] for
    the first missing file or [JSONDecodeError] for the first malformed
    one (the cookies file is read first), sends nothing to the vendor,
    saves no organization, and leaves the combination marked in progress
    and then failed. *)
Theorem search_needs_its_two_files
        (env : environment) (fuel : nat)
        (loc ranges ind_id ind cookies_file headers_file : string) (st : state) :
  filesystem env cookies_file <> FileJson \/
  filesystem env headers_file <> FileJson ->
  let r := search_apollo_and_save_to_mongodb env fuel loc ranges ind_id ind
             cookies_file headers_file st in
  fst r = Raised match filesystem env cookies_file, filesystem env headers_file with
                 | FileMissing, _ => FileNotFoundError cookies_file
                 | FileNotJson, _ => JSONDecodeError
                 | FileJson, FileMissing => FileNotFoundError headers_file
                 | FileJson, _ => JSONDecodeError
                 end /\
  search_calls (snd r) = search_calls st /\
  details_calls (snd r) = details_calls st /\
  db_organization (snd r) = db_organization st /\
  db_combinations (snd r) =
  marked (loc, ind) failed (clock env (S (clock_reads st))) None
         (marked (loc, ind) in_progress (clock env (clock_reads st)) None
                 (db_combinations st)).
Proof.
  intros H. cbv zeta. rewrite search_unfold. cbv zeta.
  rewrite update_combination_status_run. cbn [snd].
  unfold search_body, bind, load_json_file.
  destruct (filesystem env cookies_file) eqn:Ec.
  - cbn. repeat split.
  - cbn. repeat split.
  - destruct (filesystem env headers_file) eqn:Eh.
    + cbn. repeat split.
    + cbn. repeat split.
    + exfalso. destruct H as [H|H]; apply H; reflexivity.
Qed.

(** X19, on the scenario without its cookies file. *)
Lemma search_needs_its_two_files_witness :
  let r := search_apollo_and_save_to_mongodb scenario_without_cookies 5 "NYC"
             "1-10, 10-20, 20-50, 50-100, 100-200" "t1" "Tech"
             "data/cookies.json" "data/headers.json"
             (state_of [nyc_tech pending None]) in
  fst r = Raised (FileNotFoundError "data/cookies.json") /\
  search_calls (snd r) = 0 /\
  details_calls (snd r) = 0 /\
  db_organization (snd r) = [] /\
  db_combinations (snd r) =
  marked ("NYC", "Tech") failed 1%Z None
         (marked ("NYC", "Tech") in_progress 0%Z None [nyc_tech pending None]).
Proof.
  apply (@search_needs_its_two_files scenario_without_cookies 5 "NYC"
           "1-10, 10-20, 20-50, 50-100, 100-200" "t1" "Tech"
           "data/cookies.json" "data/headers.json"
           (state_of [nyc_tech pending None])).
  left. discriminate.
Defined.

(* ===================================================================== *)
(** * 51. What [new_added] counts                                        *)
(* ===================================================================== *)

Section NewAdded.

Variable env : environment.

Lemma bulk_write_counts (ops : list upsert_op) (st : state) :
  let r := bulk_write env ops st in
  (count_all (db_combinations st) <= count_all (db_combinations (snd r)))%Z /\
  forall n, fst r = Returned n ->
            (0 <= n)%Z /\
            count_all (db_combinations (snd r)) =
            (count_all (db_combinations st) + n)%Z.
Proof.
  cbv zeta. unfold bulk_write.
  destruct (bulk_results env (bulk_calls st)) as [|mask].
  - pose proof (apply_ops_grows ops (db_combinations st)) as [Hg Hn].
    destruct (apply_ops (db_combinations st) ops) as [c n]. cbn in *.
    split; [lia|]. intros m Hm. inversion Hm; subst. lia.
  - pose proof (apply_ops_grows (select_applied mask ops) (db_combinations st))
      as [Hg Hn].
    destruct (apply_ops (db_combinations st) (select_applied mask ops)) as [c n].
    cbn in *. split; [lia|]. intros m Hm. discriminate.
Qed.

Lemma flush_batch_counts (batch : list upsert_op) (p n : Z) (st : state) :
  exists n' st',
    flush_batch env batch p n st = (Returned ([], p, n'), st') /\
    (n <= n')%Z /\
    (n' - n <= count_all (db_combinations st') - count_all (db_combinations st))%Z.
Proof.
  unfold flush_batch, try_except, bind.
  destruct (bulk_write_counts batch st) as [Hg Hn].
  destruct (bulk_write env batch st) as [[m|e|] st1] eqn:E; cbn [fst snd] in *.
  - destruct (Hn m eq_refl) as [H0 H1]. eexists. eexists.
    split; [reflexivity|]. lia.
  - assert (He : e = BulkWriteError).
    { unfold bulk_write in E. destruct (bulk_results env (bulk_calls st));
        destruct (apply_ops _ _); inversion E; reflexivity. }
    subst e. cbn. eexists. eexists. split; [reflexivity|]. lia.
  - exfalso. unfold bulk_write in E. destruct (bulk_results env (bulk_calls st));
      destruct (apply_ops _ _); discriminate.
Qed.

Lemma flush_final_counts (batch : list upsert_op) (n : Z) (st : state) :
  exists n' st',
    flush_final env batch n st = (Returned n', st') /\
    (n <= n')%Z /\
    (n' - n <= count_all (db_combinations st') - count_all (db_combinations st))%Z.
Proof.
  unfold flush_final. destruct batch as [|op batch].
  - exists n, st. split; [reflexivity|]. lia.
  - unfold try_except, bind.
    destruct (bulk_write_counts (op :: batch) st) as [Hg Hn].
    destruct (bulk_write env (op :: batch) st) as [[m|e|] st1] eqn:E;
      cbn [fst snd] in *.
    + destruct (Hn m eq_refl) as [H0 H1]. eexists. eexists.
      split; [reflexivity|]. lia.
    + assert (He : e = BulkWriteError).
      { unfold bulk_write in E. destruct (bulk_results env (bulk_calls st));
          destruct (apply_ops _ _); inversion E; reflexivity. }
      subst e. cbn. eexists. eexists. split; [reflexivity|]. lia.
    + exfalso. unfold bulk_write in E. destruct (bulk_results env (bulk_calls st));
        destruct (apply_ops _ _); discriminate.
Qed.

Lemma generate_loop_counts (tags : list (string * string))
      (items : list (string * string * string)) :
  forall batch p n st,
    exists batch' p' n' uncaught st',
      generate_loop env tags items (batch, p, n) st =
      (Returned ((batch', p', n'), uncaught), st') /\
      (n <= n')%Z /\
      (n' - n <= count_all (db_combinations st') - count_all (db_combinations st))%Z.
Proof.
  induction items as [|[[loc size] industry] items IH]; intros batch p n st.
  - exists batch, p, n, None, st. split; [reflexivity|]. lia.
  - cbn [generate_loop]. destruct (dict_get tags industry) as [ind_id|].
    + unfold bind at 1, timezone_now at 1. unfold bind at 1, timezone_now at 1.
      set (op := mkUpsert (loc, industry) _).
      set (st0 := tick_clock (tick_clock st)).
      unfold bind at 1.
      destruct (Z.of_nat (length (batch ++ [op])) >=? batch_size)%Z.
      * destruct (flush_batch_counts (batch ++ [op]) (p + 1)%Z n st0)
          as [n1 [st1 [E [H1 H2]]]].
        rewrite E.
        destruct (IH [] (p + 1)%Z n1 st1) as [b' [p' [n' [u [st' [E' [H3 H4]]]]]]].
        exists b', p', n', u, st'. split; [exact E'|].
        change (db_combinations st0) with (db_combinations st) in H2. lia.
      * unfold ret at 1.
        destruct (IH (batch ++ [op]) (p + 1)%Z n st0)
          as [b' [p' [n' [u [st' [E' [H3 H4]]]]]]].
        exists b', p', n', u, st'. split; [exact E'|].
        change (db_combinations st0) with (db_combinations st) in H4. lia.
    + eexists. eexists. eexists. eexists. eexists. split; [reflexivity|]. lia.
Qed.

End NewAdded.

(** After a bulk write that raised, the document that write inserted is
    in the collection and in [total], but not in [new_added]. *)
Example new_added_can_miss_inserts :
  let r := generate_combinations failing_writes initial_state in
  count_all (db_combinations (snd r)) = 1%Z /\
  exists stats, fst r = Returned stats /\
                stat_total stats = 1%Z /\ stat_new_added stats = Some 0%Z.
Proof. cbv zeta. split; [reflexivity|]. eexists. repeat split. Qed.

(** X20.  [new_added] never counts a document that was not inserted: it
    lies between 0 and the growth of the collection during the call, and
    [total] is the size of the collection after the call.  [new_added]
    is the growth when every bulk write succeeds (it can be smaller after
    a bulk write that raised, see [new_added_can_miss_inserts]). *)
Theorem new_added_never_exceeds_the_growth (env : environment) (st : state) :
  exists stats st',
    generate_combinations env st = (Returned stats, st') /\
    stat_total stats = count_all (db_combinations st') /\
    forall n,
      stat_new_added stats = Some n ->
      (0 <= n <= count_all (db_combinations st') - count_all (db_combinations st))%Z /\
      ((forall m, bulk_results env m = BulkOk) ->
       n = (count_all (db_combinations st') - count_all (db_combinations st))%Z).
Proof.
  unfold generate_combinations. cbv zeta.
  unfold bind at 1, get_state at 1.
  destruct (count_all (db_combinations st) =? total_potential env)%Z eqn:E.
  - apply Z.eqb_eq in E. eexists. eexists. split; [reflexivity|]. cbn.
    split; [symmetry; exact E|]. intros n H. discriminate.
  - apply Z.eqb_neq in E.
    destruct (generate_loop_counts env (formatted_industry_tags env)
                (product3 (all_Cities env) employee_ranges_defined
                          (apollo_industries env)) [] 0%Z 0%Z st)
      as [batch [p [n1 [u [st1 [E1 [H1 H2]]]]]]].
    pose proof (@generate_combinations_exact env st) as Hexact.
    unfold generate_combinations in Hexact. cbv zeta in Hexact.
    unfold bind at 1, get_state at 1 in Hexact.
    replace (count_all (db_combinations st) =? total_potential env)%Z with false
      in Hexact by (symmetry; apply Z.eqb_neq; exact E).
    unfold bind at 1. unfold bind at 1 in Hexact. rewrite E1 in *.
    assert (Hfin : exists n2 st2,
               match u with
               | None => flush_final env batch n1
               | Some _ => ret n1
               end st1 = (Returned n2, st2) /\
               (n1 <= n2)%Z /\
               (n2 - n1 <= count_all (db_combinations st2)
                           - count_all (db_combinations st1))%Z).
    { destruct u; [|apply flush_final_counts].
      exists n1, st1. split; [reflexivity|]. lia. }
    destruct Hfin as [n2 [st2 [E2 [H3 H4]]]].
    unfold bind at 1. unfold bind at 1 in Hexact. rewrite E2 in *.
    eexists. eexists. split; [reflexivity|]. cbn. split; [reflexivity|].
    intros n Hn. inversion Hn; subst n. split; [lia|].
    intros Hok. destruct (Hexact Hok E) as [stats [st' [Eg [_ [Hdb [Hnew _]]]]]].
    cbn in Eg. inversion Eg; subst. cbn in Hnew. inversion Hnew.
    rewrite Hdb. pose proof (apply_ops_grows (all_generated_ops env st)
                               (db_combinations st)) as [Hg _]. lia.
Qed.

(* ===================================================================== *)
(** * 52. Every selected combination is searched once                    *)
(* ===================================================================== *)

(** X21.  The loop of the command starts the search of the selected
    combinations in the order of the queue, each once: the combinations
    it marks in progress are a prefix of the queue, in order, and the
    whole queue when the loop comes to its end.  None is skipped after a
    failure and none is searched again. *)
Theorem loop_searches_each_selected_combination_once
        (env : environment) (fuel : nat) (cookies_file headers_file : string)
        (pending_count i n : Z) (queue : list projected) (st : state) :
  let r := process_combinations env fuel cookies_file headers_file pending_count
                                i n queue st in
  exists k,
    started (trace (snd r)) =
    started (trace st) ++ map projected_key (firstn k queue) /\
    (forall m, fst r = Returned m ->
               started (trace (snd r)) =
               started (trace st) ++ map projected_key queue).
Proof.
  cbv zeta.
  destruct (process_started env fuel cookies_file headers_file pending_count
                            queue i n st) as [k [Hk Hall]].
  exists k. split; [exact Hk|]. intros m Hm. rewrite Hk, (Hall m Hm). reflexivity.
Qed.

(* ===================================================================== *)
(** * 53. Nothing saved is lost                                          *)
(* ===================================================================== *)

Lemma keeps_saved_same (a b : state) :
  db_organization b = db_organization a ->
  db_industry b = db_industry a ->
  db_keyword b = db_keyword a ->
  keeps_saved a b.
Proof.
  intros H1 H2 H3. unfold keeps_saved. rewrite H1, H2, H3.
  repeat split; exists []; rewrite app_nil_r; reflexivity.
Qed.

Lemma keeps_saved_trans (a b c : state) :
  keeps_saved a b -> keeps_saved b c -> keeps_saved a c.
Proof.
  intros [[o1 H1] [[i1 H2] [k1 H3]]] [[o2 H4] [[i2 H5] [k2 H6]]].
  unfold keeps_saved. rewrite H4, H1, H5, H2, H6, H3, <- !app_assoc.
  repeat split; eexists; reflexivity.
Qed.

Lemma set_organization_identity (i : string) (data : organization_data)
      (c : list organization_doc) :
  org_apollo_id data = i ->
  map org_identity (set_organization i data c) = map org_identity c.
Proof.
  intros Hi. induction c as [|d c IH]; [reflexivity|].
  cbn [set_organization]. destruct (has_apollo_id i d) eqn:E; cbn [map].
  - unfold org_identity at 1 3. cbn [fst snd]. unfold has_apollo_id in E.
    apply String.eqb_eq in E. rewrite Hi, E. reflexivity.
  - rewrite IH. reflexivity.
Qed.

Lemma save_to_mongodb_keeps_saved (env : environment) (data : organization_data) :
  behaves keeps_saved anything passes_page_handler (save_to_mongodb env data).
Proof.
  intros st. destruct (save_to_mongodb_run env data st)
    as [st1 [_ [[ai [Hi _]] [[ak [Hk _]] E]]]].
  rewrite E.
  destruct (find (has_apollo_id (org_apollo_id data)) (db_organization st));
    cbn [fst snd]; (split; [|exact I]); unfold keeps_saved;
    cbn [db_organization db_industry db_keyword with_organization tick_ids tick_clock].
  - rewrite set_organization_identity by reflexivity.
    split; [exists []; rewrite app_nil_r; reflexivity|].
    split; eexists; eassumption.
  - rewrite map_app. split; [eexists; reflexivity|]. split; eexists; eassumption.
Qed.

(** X22.  A search never loses what was saved, however it ends: the
    organizations stored before keep their [_id], their [apollo_id] and
    their place, the industry and keyword documents stay exactly as they
    are, and whatever the search adds comes after them. *)
Theorem search_keeps_what_was_saved
        (env : environment) (fuel : nat)
        (loc ranges ind_id ind cookies_file headers_file : string) (st : state) :
  keeps_saved st
    (snd (search_apollo_and_save_to_mongodb env fuel loc ranges ind_id ind
            cookies_file headers_file st)).
Proof.
  rewrite search_unfold. cbv zeta.
  set (st1 := snd (update_combination_status env loc ind in_progress None st)).
  assert (H1 : keeps_saved st st1) by (apply keeps_saved_same; reflexivity).
  assert (Hbody : behaves keeps_saved anything anything
                          (search_body env fuel loc ind_id cookies_file headers_file)).
  { apply frame_search_body;
      try (intros; apply keeps_saved_same; reflexivity);
      try exact keeps_saved_trans.
    apply save_to_mongodb_keeps_saved. }
  destruct (Hbody st1) as [H2 _]. clearbody st1.
  assert (Hupd : forall s rc st0,
             keeps_saved st0 (snd (update_combination_status env loc ind s rc st0)))
    by (intros; apply keeps_saved_same; reflexivity).
  destruct (search_body env fuel loc ind_id cookies_file headers_file st1)
    as [[n|e|] st2]; cbn [snd] in H2 |- *.
  - eapply keeps_saved_trans; [|apply Hupd].
    eapply keeps_saved_trans; eassumption.
  - destruct (is_Exception e); cbn [snd].
    + eapply keeps_saved_trans; [|apply Hupd].
      eapply keeps_saved_trans; eassumption.
    + eapply keeps_saved_trans; eassumption.
  - eapply keeps_saved_trans; eassumption.
Qed.

(* ===================================================================== *)
(** * 54. Where the pages end                                            *)
(* ===================================================================== *)

Lemma ends_ret {A} (a : A) : ends (ret a).
Proof. intros st. discriminate. Qed.

Lemma ends_raise {A} (e : exn) : ends (@raise A e).
Proof. intros st. discriminate. Qed.

Lemma ends_modify (f : state -> state) : ends (modify f).
Proof. intros st. discriminate. Qed.

Lemma ends_bind {A B} (m : py A) (k : A -> py B) :
  ends m -> (forall a, ends (k a)) -> ends (bind m k).
Proof.
  intros Hm Hk st. unfold bind. specialize (Hm st).
  destruct (m st) as [[a|e|] st1]; cbn [fst] in *.
  - apply Hk.
  - discriminate.
  - contradiction.
Qed.

Lemma ends_try_except {A} (m : py A) (classes : exn -> bool) (h : exn -> py A) :
  ends m -> (forall e, ends (h e)) -> ends (try_except m classes h).
Proof.
  intros Hm Hh st. unfold try_except. specialize (Hm st).
  destruct (m st) as [[a|e|] st1]; cbn [fst] in *.
  - discriminate.
  - destruct (classes e); [apply Hh | discriminate].
  - contradiction.
Qed.

Lemma ends_for_each {A} (xs : list A) (body : A -> py unit) :
  (forall x, ends (body x)) -> ends (for_each xs body).
Proof.
  intros H. induction xs as [|x xs IH]; cbn [for_each].
  - apply ends_ret.
  - apply ends_bind; [apply H | intros _; exact IH].
Qed.

Section PageEnds.

Variable env : environment.

Lemma ends_timezone_now : ends (timezone_now env).
Proof. intros st. discriminate. Qed.

Lemma ends_save_to_mongodb (data : organization_data) :
  ends (save_to_mongodb env data).
Proof.
  intros st. destruct (save_to_mongodb_run env data st) as [st1 [_ [_ [_ E]]]].
  rewrite E. destruct (find _ _); discriminate.
Qed.

Lemma ends_save_detail (organizations : list search_hit) (d : org_detail) :
  ends (save_detail env organizations d).
Proof.
  unfold save_detail, extract_organization_data.
  apply ends_bind.
  - apply ends_bind; [apply ends_timezone_now | intros t; apply ends_ret].
  - intros data. apply ends_bind; [apply ends_save_to_mongodb|].
    intros _. apply ends_ret.
Qed.

Lemma ends_fetch_organization_details (ids : list string) :
  ends (fetch_organization_details env ids).
Proof.
  unfold fetch_organization_details. destruct ids as [|i ids]; [apply ends_ret|].
  apply ends_try_except.
  - apply ends_bind.
    + intros st. unfold post_details.
      destruct (details_responses env (details_calls st)); discriminate.
    + intros resp. destruct (status_code resp =? 200)%Z; [|apply ends_ret].
      destruct (body resp); [apply ends_raise | apply ends_ret | apply ends_ret].
  - intros e. rewrite sys_exit_raises_NameError. apply ends_raise.
Qed.

Lemma ends_process_page (resp : response search_results) (page : Z)
      (seen : list string) (total : Z) :
  ends (process_page env resp page seen total).
Proof.
  unfold process_page. apply ends_try_except; [|intros e; apply ends_ret].
  apply ends_bind.
  { destruct (body resp); [apply ends_raise | apply ends_raise | apply ends_ret]. }
  intros results.
  destruct (collect_ids (sr_organizations results) [] seen) as [current all_ids].
  apply ends_bind.
  { destruct (Z.of_nat (length (sr_organizations results)) <? per_page)%Z;
      [apply ends_ret|].
    destruct (sr_has_next_page results) as [[|]|]; try apply ends_ret;
      (apply ends_bind; [apply ends_modify | intros _; apply ends_ret]). }
  intros [more next_page].
  apply ends_bind; [|intros _; apply ends_ret].
  destruct current as [|c current]; [apply ends_ret|].
  apply ends_bind; [apply ends_fetch_organization_details|].
  intros [[details|]|[|[|]]]; cbn [for_each_detail];
    try apply ends_ret; try apply ends_raise.
  apply ends_for_each. apply ends_save_detail.
Qed.

Lemma paginate_stops (fuel : nat) (loc ind_id : string) :
  forall k page seen total st out st',
    k < fuel ->
    stops (search_responses env (search_calls st + k)) = true ->
    paginate env fuel loc ind_id page seen total st = (out, st') ->
    out <> OutOfFuel /\
    search_calls st < search_calls st' <= search_calls st + S k.
Proof.
  induction fuel as [|fuel IH]; intros k page seen total st out st' Hk Hstop H;
    [lia|].
  cbn [paginate] in H. unfold bind at 1, post_search in H.
  destruct (search_responses env (search_calls st)) as [reason|resp] eqn:Er.
  { inversion H; subst. cbn. split; [discriminate | lia]. }
  set (st1 := log_event (HttpSearch loc ind_id page) (tick_search st)) in H.
  assert (Hframe : behaves (fun a b => search_calls b = search_calls a)
                           (page_result resp seen total) passes_page_handler
                           (process_page env resp page seen total)).
  { apply frame_process_page; try reflexivity; try (intros a b c; congruence).
    intros data. apply frame_save_to_mongodb; try reflexivity.
    intros a b c; congruence. }
  destruct (Hframe st1) as [HR HQ].
  pose proof (ends_process_page resp page seen total st1) as Hends.
  unfold bind at 1 in H.
  destruct (process_page env resp page seen total st1)
    as [[[[[more page'] seen'] total']|e|] st2]; cbn [fst snd] in HR, HQ, Hends.
  - destruct HQ as [_ [_ Hmore]].
    assert (Hc : search_calls st2 = S (search_calls st)) by (rewrite HR; reflexivity).
    destruct (if (status_code resp =? 200)%Z then more else false) eqn:Em.
    + assert (Hgo : stops (HttpResponse resp) = false).
      { unfold stops. destruct (status_code resp =? 200)%Z eqn:Es;
          [|discriminate Em].
        rewrite <- Hmore, Em. reflexivity. }
      destruct k as [|k].
      { rewrite Nat.add_0_r, Er in Hstop. congruence. }
      destruct (IH k page' seen' total' st2 out st') as [H1 H2]; [lia | | exact H |].
      { rewrite Hc. replace (S (search_calls st) + k) with (search_calls st + S k)
          by lia. exact Hstop. }
      split; [exact H1 | lia].
    + inversion H; subst. split; [discriminate | lia].
  - inversion H; subst. split; [discriminate|]. rewrite HR. cbn. lia.
  - contradiction.
Qed.

End PageEnds.

(** X23.  The loop over the pages ends at the first answer that closes
    it: a request that raises, a status other than 200, a body that is no
    JSON object, a page of fewer than 25 entries, or one that says
    [has_next_page: false].  If the answer to request number k from now,
    counted from 0, is such an answer, the search comes to an end (it
    returns or raises) after at most k + 1 requests, however the earlier
    answers look. *)
Theorem search_ends_at_the_first_closing_answer
        (env : environment) (fuel : nat)
        (loc ranges ind_id ind cookies_file headers_file : string)
        (st : state) (k : nat) :
  k < fuel ->
  stops (search_responses env (search_calls st + k)) = true ->
  let r := search_apollo_and_save_to_mongodb env fuel loc ranges ind_id ind
             cookies_file headers_file st in
  fst r <> OutOfFuel /\
  search_calls (snd r) <= search_calls st + S k.
Proof.
  intros Hk Hstop. cbv zeta. rewrite search_unfold. cbv zeta.
  set (st1 := snd (update_combination_status env loc ind in_progress None st)).
  assert (H1 : search_calls st1 = search_calls st) by reflexivity.
  assert (Hupd : forall s rc st0,
             search_calls (snd (update_combination_status env loc ind s rc st0)) =
             search_calls st0) by reflexivity.
  clearbody st1.
  assert (Hbody : fst (search_body env fuel loc ind_id cookies_file headers_file st1)
                  <> OutOfFuel /\
                  search_calls (snd (search_body env fuel loc ind_id cookies_file
                                       headers_file st1))
                  <= search_calls st + S k).
  { unfold search_body, bind, load_json_file.
    destruct (filesystem env cookies_file);
      try (cbn; split; [discriminate | lia]).
    destruct (filesystem env headers_file);
      try (cbn; split; [discriminate | lia]).
    cbn [ret raise].
    destruct (paginate env fuel loc ind_id 1 [] 0 st1) as [out st2] eqn:Ep.
    destruct (@paginate_stops env fuel loc ind_id k 1%Z [] 0%Z st1 out st2 Hk)
      as [P1 P2]; [rewrite H1; exact Hstop | exact Ep |].
    cbn [fst snd]. split; [exact P1 | lia]. }
  destruct Hbody as [B1 B2].
  destruct (search_body env fuel loc ind_id cookies_file headers_file st1)
    as [[n|e|] st2]; cbn [fst snd] in *.
  - split; [discriminate|]. rewrite Hupd. exact B2.
  - destruct (is_Exception e); cbn [fst snd]; rewrite ?Hupd;
      (split; [discriminate | exact B2]).
  - contradiction.
Qed.

(** X23, on the scenario: the first answer lists one organization. *)
Lemma search_ends_at_the_first_closing_answer_witness :
  let r := search_apollo_and_save_to_mongodb scenario 1 "NYC"
             "1-10, 10-20, 20-50, 50-100, 100-200" "t1" "Tech"
             "data/cookies.json" "data/headers.json"
             (state_of [nyc_tech pending None]) in
  fst r <> OutOfFuel /\ search_calls (snd r) <= 0 + 1.
Proof.
  apply (@search_ends_at_the_first_closing_answer scenario 1 "NYC"
           "1-10, 10-20, 20-50, 50-100, 100-200" "t1" "Tech"
           "data/cookies.json" "data/headers.json"
           (state_of [nyc_tech pending None]) 0).
  - lia.
  - reflexivity.
Defined.

(* ===================================================================== *)
(** * 55. A detail that matches no entry of its page                     *)
(* ===================================================================== *)

Lemma save_detail_unmatched (env : environment) (organizations : list search_hit)
      (d : org_detail) (st : state) :
  find (fun org => option_string_eqb (hit_id org) (det_id d)) organizations = None ->
  snd (save_detail env organizations d st) =
  snd (save_to_mongodb env (unmatched_data (clock env (clock_reads st)) d)
                       (tick_clock st)).
Proof.
  intros Hf. unfold save_detail. rewrite Hf.
  unfold bind at 1, extract_organization_data, bind at 1, timezone_now, ret at 1.
  cbn [String.eqb]. fold (unmatched_data (clock env (clock_reads st)) d).
  unfold bind.
  destruct (save_to_mongodb env (unmatched_data (clock env (clock_reads st)) d)
                            (tick_clock st)) as [[oid|e|] st1]; reflexivity.
Qed.

(** X24.  A detail whose id is the id of no entry of its page is saved
    all the same, with the defaults of the missing entry: under the
    empty [apollo_id] and the empty name, with the address, the
    industries, the keywords and the number of employees of the detail.
    All such details share one document: the first one adds it, every
    later one replaces its data and keeps its [_id]. *)
Theorem unmatched_detail_goes_under_the_empty_id
        (env : environment) (organizations : list search_hit)
        (d : org_detail) (st : state) :
  find (fun org => option_string_eqb (hit_id org) (det_id d)) organizations = None ->
  let st' := snd (save_detail env organizations d st) in
  exists oid stored,
    find (has_apollo_id "") (db_organization st') = Some (oid, stored) /\
    org_name stored = "" /\
    org_apollo_id stored = "" /\
    org_address stored = det_raw_address d /\
    org_industry stored = det_industries d /\
    org_keywords stored = det_keywords d /\
    org_number_of_employees stored = det_estimated_num_employees d /\
    match find (has_apollo_id "") (db_organization st) with
    | Some existing_org =>
        oid = fst existing_org /\
        length (db_organization st') = length (db_organization st)
    | None => length (db_organization st') = S (length (db_organization st))
    end.
Proof.
  intros Hf. cbv zeta. rewrite (@save_detail_unmatched env organizations d st Hf).
  set (data := unmatched_data (clock env (clock_reads st)) d).
  destruct (save_to_mongodb_run env data (tick_clock st)) as [st1 [_ [_ [_ E]]]].
  rewrite E. clear E.
  change (db_organization (tick_clock st)) with (db_organization st).
  change (org_apollo_id data) with EmptyString.
  destruct (find (has_apollo_id "") (db_organization st)) as [old|] eqn:F;
    cbn [snd db_organization with_organization tick_ids].
  - set (data' := set_updated_at (clock env (clock_reads st1)) data).
    destruct (@find_set_organization "" data' (db_organization st) old eq_refl F)
      as [H1 [H2 _]].
    exists (fst old), data'. split; [exact H1|]. repeat split.
    apply (f_equal (@length _)) in H2. rewrite !length_map in H2. exact H2.
  - exists (N.of_nat (ids_issued st)), data. split.
    + apply find_added_last; [exact F | reflexivity].
    + repeat split. rewrite length_app. cbn [length]. lia.
Qed.

(** X24, on a page that lists one organization and a detail of
    another. *)
Lemma unmatched_detail_goes_under_the_empty_id_witness :
  let d := mkDetail (Some "o9") 7%Z ["Retail"] [] "9 Side St" in
  let st' := snd (save_detail scenario [one_hit] d initial_state) in
  exists oid stored,
    find (has_apollo_id "") (db_organization st') = Some (oid, stored) /\
    org_name stored = "" /\
    org_apollo_id stored = "" /\
    org_address stored = "9 Side St" /\
    org_industry stored = ["Retail"] /\
    org_keywords stored = [] /\
    org_number_of_employees stored = 7%Z /\
    length (db_organization st') = 1.
Proof.
  apply (@unmatched_detail_goes_under_the_empty_id scenario [one_hit]
           (mkDetail (Some "o9") 7%Z ["Retail"] [] "9 Side St") initial_state).
  reflexivity.
Defined.
